(** * llarp/ev/ev_win32.hpp: the Windows event-loop backend

    A shallow embedding of the completion-port TUN path ([win32_tun_io],
    [tun_ev_loop], [exit_tun_loop]) and of the readiness loop
    ([llarp_win32_loop] with its [tcp_conn], [tcp_serv] and [udp_listener]
    endpoints), followed by the properties established about them.

    Code that touches the operating system is written in a state-and-failure
    monad: the state holds the process' globals, the heap objects the code
    allocates and a chronological trace of the external calls and callbacks
    it makes; failure ([None]) stands for undefined behaviour or a thrown
    exception.  Results of operating-system calls are inputs. *)

From Stdlib Require Import ZArith Lia.
From Stdlib Require Import Strings.Byte.
From stdpp Require Import base option list.

(** ** State-and-failure monad *)

Definition M (S A : Type) : Type := S → option (A * S).

#[global] Instance M_ret {S} : MRet (M S) := λ A a s, Some (a, s).
#[global] Instance M_bind {S} : MBind (M S) :=
  λ A B k m s, match m s with Some (a, s') => k a s' | None => None end.

Definition get {S} : M S S := λ s, Some (s, s).
Definition put {S} (s : S) : M S unit := λ _, Some (tt, s).
Definition modify {S} (f : S → S) : M S unit := λ s, Some (tt, f s).
Definition fail {S A} : M S A := λ _, None.
Definition when {S} (b : bool) (m : M S unit) : M S unit :=
  if b then m else mret tt.

(** State reached by a computation, when it does not fail. *)
Definition exec {S A} (m : M S A) (s : S) : option S := snd <$> m s.

(** ** Fixed-width integers and Winsock constants *)

Definition wrap (w : Z) (x : Z) : Z := (x mod 2 ^ w)%Z.
(** Conversion to a signed [w]-bit integer (two's complement). *)
Definition to_signed (w : Z) (x : Z) : Z :=
  let y := wrap w x in if (y <? 2 ^ (w - 1))%Z then y else (y - 2 ^ w)%Z.
Definition to_int : Z → Z := to_signed 32.

(** winsock2.h / afunix.h. *)
Definition AF_UNIX : Z := 1.
Definition AF_INET : Z := 2.
Definition AF_INET6 : Z := 23.
Definition sizeof_sockaddr_in : Z := 16.
Definition sizeof_sockaddr_in6 : Z := 28.
Definition sizeof_sockaddr_un : Z := 110.
Definition WSAEINPROGRESS : Z := 10036.
Definition WSAECONNREFUSED : Z := 10061.

(** ** Readiness backend: the endpoints of [namespace llarp] *)

Module ev.

(** Caller-supplied callback tables; a field records whether the function
    pointer is set. *)
Record llarp_tcp_connecter := { connected : bool; error : bool }.
Record llarp_tcp_acceptor := { accepted : bool }.
Record llarp_udp_io := { tick : bool }.
Record llarp_tun_io := { recvpkt : bool; before_write : bool }.

(** The variants of an endpoint.  [tun] is the virtual-interface variant,
    which [llarp_win32_loop::create_tun] would have to construct. *)
Inductive variant :=
| tun
| tcp_conn (_addr_family : Z) (_conn : option llarp_tcp_connecter)
| tcp_serv (tcp : llarp_tcp_acceptor)
| udp_listener (udp : llarp_udp_io).

Record ev_io := { fd : Z; _shouldClose : bool; impl : variant }.

Definition is_tun (e : ev_io) : bool :=
  match impl e with tun => true | _ => false end.

(** External calls and callbacks, in the order they are made.  Endpoint
    objects are named by their address in [objs].  Logging and the
    formatting of error strings are not traced. *)
Inductive event :=
| os_usocket (family : Z)
| os_connect (fd : Z) (family : Z) (slen : Z)
| os_accept (fd : Z)
| os_bind (fd : Z) (family : Z) (slen : Z)
| os_listen (fd : Z)
| os_setsockopt_v6only (fd : Z)
| os_close (fd : Z)
| os_sendto (fd : Z) (data : list byte) (sz : Z) (family : Z) (slen : Z)
| os_upoll_ctl_add (fd : Z) (e : nat) (write : bool)
| os_upoll_ctl_del (fd : Z)
| WSASetLastError (code : Z)
| call_connected (e : nat)          (* tcp_conn::connected() *)
| call_ev_io_flush_write (e : nat)  (* ev_io::flush_write() *)
| cb_error (e : nat)                (* _conn->error(_conn) *)
| cb_accepted (serv conn : nat)     (* tcp->accepted(tcp, &connimpl->tcp) *)
| cb_udp_tick (e : nat).

(** The loop object together with the heap of endpoints and the thread's
    Winsock error code. *)
Record loop := {
  objs : list (option ev_io);   (* address ↦ live object, [None] once deleted *)
  handlers : list nat;          (* llarp_ev_loop::handlers, owning pointers *)
  upollfd : option (list (Z * nat * bool));
                                (* nullptr, or the descriptors added to the
                                   poll set with their data.ptr and whether
                                   UPOLLOUT was requested *)
  wsa_last_error : Z;
  trace : list event
}.

Definition emit (e : event) : M loop unit :=
  modify (λ s, {| objs := objs s; handlers := handlers s; upollfd := upollfd s;
                  wsa_last_error := wsa_last_error s; trace := trace s ++ [e] |}).

Definition set_last_error (code : Z) : M loop unit :=
  modify (λ s, {| objs := objs s; handlers := handlers s; upollfd := upollfd s;
                  wsa_last_error := code; trace := trace s |}).

(** [new T(...)]: the object is placed at a fresh address. *)
Definition new (e : ev_io) : M loop nat :=
  s ← get;
  put {| objs := objs s ++ [Some e]; handlers := handlers s; upollfd := upollfd s;
         wsa_last_error := wsa_last_error s; trace := trace s |};;
  mret (length (objs s)).

(** [delete e]; deleting what is not a live object is undefined. *)
Definition delete (e : nat) : M loop unit :=
  s ← get;
  match objs s !! e with
  | Some (Some _) =>
      put {| objs := <[e := None]> (objs s); handlers := handlers s;
             upollfd := upollfd s; wsa_last_error := wsa_last_error s;
             trace := trace s |}
  | _ => fail
  end.

(** [e->...]: access through a pointer; undefined unless the object is live. *)
Definition deref (e : nat) : M loop ev_io :=
  s ← get;
  match objs s !! e with
  | Some (Some o) => mret o
  | _ => fail
  end.

Definition push_handler (e : nat) : M loop unit :=
  modify (λ s, {| objs := objs s; handlers := handlers s ++ [e]; upollfd := upollfd s;
                  wsa_last_error := wsa_last_error s; trace := trace s |}).

(** What a method of the data path does besides updating its endpoint: the
    calls on the descriptor and the callbacks, in order. *)
Inductive io :=
| os_uread (fd sz : Z)
| os_uwrite (fd sz : Z)
| os_recvfrom (fd sz : Z)
| cb_tcp_read (amount : Z)        (* tcp.read(&tcp, InitBuffer(buf, amount)) *)
| cb_udp_recvfrom (sz : Z).       (* udp->recvfrom(udp, addr, b), b.sz = sz *)

End ev.

Module tcp_conn.
Import ev.

(** [tcp_conn::flush_write] *)
Definition flush_write (this : nat) : M loop unit :=
  emit (call_connected this);;
  emit (call_ev_io_flush_write this).

(** [tcp_conn::connect].  [result] is what [::connect] returns and [err] the
    Winsock error code it leaves when it does not return 0. *)
Definition connect (this : nat) (result err : Z) : M loop unit :=
  o ← deref this;
  match impl o with
  | tcp_conn family _conn =>
      let slen :=
        if (family =? AF_UNIX)%Z then sizeof_sockaddr_un
        else if (family =? AF_INET6)%Z then sizeof_sockaddr_in6
        else sizeof_sockaddr_in in
      emit (os_connect (fd o) family slen);;
      when (negb (result =? 0)%Z) (set_last_error err);;
      if (result =? 0)%Z then
        emit (call_connected this)
      else
        s ← get;
        if (wsa_last_error s =? WSAEINPROGRESS)%Z then
          emit (WSASetLastError 0);;
          set_last_error 0
        else
          match _conn with
          | None => fail                       (* _conn->error on a null _conn *)
          | Some c => when (error c) (emit (cb_error this))
          end
  | _ => fail
  end.

(** [tcp_conn::read] on the endpoint [o]; [tcp_read] tells whether [tcp.read]
    is set and [amount] is what [uread] returns if it is called.  The result
    is the value returned, the endpoint afterwards and what was done. *)
Definition read (o : ev_io) (tcp_read : bool) (sz amount : Z) : Z * ev_io * list io :=
  if _shouldClose o then ((-1)%Z, o, [])
  else if (0 <? amount)%Z then
    (0%Z, o, os_uread (fd o) sz :: if tcp_read then [cb_tcp_read amount] else [])
  else
    ((-1)%Z, {| fd := fd o; _shouldClose := true; impl := impl o |},
     [os_uread (fd o) sz]).

(** [tcp_conn::do_write]; [written] is what [uwrite] returns if it is
    called. *)
Definition do_write (o : ev_io) (sz written : Z) : Z * list io :=
  if _shouldClose o then ((-1)%Z, []) else (written, [os_uwrite (fd o) sz]).

End tcp_conn.

Module udp_listener.
Import ev.

(** [udp_listener::sendto].  [to_family] is [to->sa_family]; [sent] is what
    [::sendto] returns if it is called. *)
Definition sendto (this : nat) (to_family : Z) (data : list byte) (sz : Z)
    (sent : Z) : M loop Z :=
  let slen :=
    if (to_family =? AF_INET)%Z then Some sizeof_sockaddr_in
    else if (to_family =? AF_INET6)%Z then Some sizeof_sockaddr_in6
    else None in
  match slen with
  | None => mret (-1)%Z
  | Some slen =>
      o ← deref this;
      emit (os_sendto (fd o) data sz to_family slen);;
      mret (to_int sent)
  end.

(** [udp_listener::read] on the endpoint [o]; [udp_recvfrom] tells whether
    [udp->recvfrom] is set, which the method does not test, and [ret] is what
    [::recvfrom] returns.  [None] is the call through a null pointer. *)
Definition read (o : ev_io) (udp_recvfrom : bool) (sz ret : Z) : option (Z * list io) :=
  if (ret <? 0)%Z then Some ((-1)%Z, [os_recvfrom (fd o) sz])
  else if (sz <? ret)%Z then Some ((-1)%Z, [os_recvfrom (fd o) sz])
  else if udp_recvfrom then Some (0%Z, [os_recvfrom (fd o) sz; cb_udp_recvfrom ret])
  else None.

End udp_listener.

Module llarp_win32_loop.
Import ev.

(** A fresh loop: [llarp_win32_loop() : upollfd(nullptr)]. *)
Definition init_loop : loop :=
  {| objs := []; handlers := []; upollfd := None; wsa_last_error := 0; trace := [] |}.

Definition set_upoll (u : option (list (Z * nat * bool))) : M loop unit :=
  modify (λ s, {| objs := objs s; handlers := handlers s; upollfd := u;
                  wsa_last_error := wsa_last_error s; trace := trace s |}).

Definition set_handlers (h : list nat) : M loop unit :=
  modify (λ s, {| objs := objs s; handlers := h; upollfd := upollfd s;
                  wsa_last_error := wsa_last_error s; trace := trace s |}).

(** [init]; [created] tells whether [upoll_create] returned a poll set. *)
Definition init (created : bool) : M loop bool :=
  s ← get;
  when (bool_decide (upollfd s = None))
       (set_upoll (if created then Some [] else None));;
  s' ← get;
  mret (bool_decide (upollfd s' ≠ None)).

(** [add_ev]; [ctl] is the result of [upoll_ctl(upollfd, UPOLL_CTL_ADD, ...)]. *)
Definition add_ev (e : nat) (write : bool) (ctl : Z) : M loop bool :=
  o ← deref e;
  emit (os_upoll_ctl_add (fd o) e write);;
  if (ctl =? -1)%Z then
    delete e;;
    mret false
  else
    s ← get;
    set_upoll ((λ regs, regs ++ [(fd o, e, write)]) <$> upollfd s);;
    push_handler e;;
    mret true.

(** [tcp_connect]; [sock] is the result of [usocket], [ctl] of [upoll_ctl],
    [result] and [err] those of [::connect]. *)
Definition tcp_connect (tcp : option llarp_tcp_connecter) (family : Z)
    (sock ctl result err : Z) : M loop bool :=
  emit (os_usocket family);;
  if (sock =? -1)%Z then mret false
  else
    conn ← new {| fd := sock; _shouldClose := false; impl := tcp_conn family tcp |};
    _ ← add_ev conn true ctl;
    tcp_conn.connect conn result err;;
    mret true.

(** [bind_tcp]; [sock], [bound] and [listening] are the results of [usocket],
    [::bind] and [ulisten]. *)
Definition bind_tcp (tcp : llarp_tcp_acceptor) (family : Z)
    (sock bound listening : Z) : M loop (option nat) :=
  emit (os_usocket family);;
  if (sock =? -1)%Z then mret None
  else
    let sz :=
      if (family =? AF_INET6)%Z then sizeof_sockaddr_in6
      else if (family =? AF_UNIX)%Z then sizeof_sockaddr_un
      else sizeof_sockaddr_in in
    emit (os_bind sock family sz);;
    if (bound =? -1)%Z then emit (os_close sock);; mret None
    else
      emit (os_listen sock);;
      if (listening =? -1)%Z then emit (os_close sock);; mret None
      else
        e ← new {| fd := sock; _shouldClose := false; impl := tcp_serv tcp |};
        mret (Some e).

(** [udp_bind]; [sock], [v6only] and [bound] are the results of [usocket],
    [setsockopt] and [bind]. *)
Definition udp_bind (family : Z) (sock v6only bound : Z) : M loop Z :=
  let slen :=
    if (family =? AF_INET)%Z then Some sizeof_sockaddr_in
    else if (family =? AF_INET6)%Z then Some sizeof_sockaddr_in6
    else None in
  match slen with
  | None => mret (-1)%Z
  | Some slen =>
      emit (os_usocket family);;
      if (sock =? -1)%Z then mret (-1)%Z
      else if (family =? AF_INET6)%Z && (v6only =? -1)%Z then
        emit (os_setsockopt_v6only sock);; emit (os_close sock);; mret (-1)%Z
      else
        when (family =? AF_INET6)%Z (emit (os_setsockopt_v6only sock));;
        emit (os_bind sock family slen);;
        if (bound =? -1)%Z then emit (os_close sock);; mret (-1)%Z
        else mret sock
  end.

(** The caller's [llarp_udp_io], passed by pointer: [impl] and [fd] are
    written by the loop. *)
Record udp_io := { io : llarp_udp_io; io_impl : option nat; io_fd : Z }.

(** [create_udp] *)
Definition create_udp (l : udp_io) (family : Z) (sock v6only bound : Z)
    : M loop (option nat * udp_io) :=
  fd ← udp_bind family sock v6only bound;
  if (fd =? -1)%Z then mret (None, l)
  else
    listener ← new {| fd := fd; _shouldClose := false; impl := udp_listener (io l) |};
    mret (Some listener, {| io := io l; io_impl := Some listener; io_fd := io_fd l |}).

(** [udp_listen] *)
Definition udp_listen (l : udp_io) (family : Z) (sock v6only bound ctl : Z)
    : M loop (bool * udp_io) :=
  r ← create_udp l family sock v6only bound;
  match r.1 with
  | None => mret (false, r.2)
  | Some e =>
      o ← deref e;
      let l' := {| io := io r.2; io_impl := io_impl r.2; io_fd := fd o |} in
      b ← add_ev e false ctl;
      mret (b, l')
  end.

(** [close_ev]; [ctl] is the result of [upoll_ctl(upollfd, UPOLL_CTL_DEL, ...)]. *)
Definition close_ev (e : nat) (ctl : Z) : M loop bool :=
  o ← deref e;
  emit (os_upoll_ctl_del (fd o));;
  s ← get;
  when (negb (ctl =? -1)%Z)
       (set_upoll (filter (λ r : Z * nat * bool, r.1.2 ≠ e) <$> upollfd s));;
  mret (negb (ctl =? -1)%Z).

(** The [while] of [udp_close] over [handlers], whose elements are owning
    pointers: each one that holds [listener] is erased, which destroys the
    endpoint. *)
Fixpoint erase_handlers (listener : nat) (hs : list nat) : M loop unit :=
  match hs with
  | [] => mret tt
  | h :: rest =>
      when (bool_decide (h = listener)) (delete listener);;
      erase_handlers listener rest
  end.

(** [udp_close] *)
Definition udp_close (l : udp_io) (ctl : Z) : M loop (bool * udp_io) :=
  match io_impl l with
  | None => mret (false, l)
  | Some listener =>
      _ ← close_ev listener ctl;
      s ← get;
      erase_handlers listener (handlers s);;
      set_handlers (filter (λ h : nat, h ≠ listener) (handlers s));;
      mret (true, {| io := io l; io_impl := None; io_fd := io_fd l |})
  end.

(** [create_tun]: "no tunnels here". *)
Definition create_tun (tio : llarp_tun_io) : M loop (option nat) := mret None.

(** [running] *)
Definition running (s : loop) : bool := bool_decide (upollfd s ≠ None).

(** [stop]: "do nothing". *)
Definition stop : M loop unit := mret tt.

(** [tcp_serv::read]; [new_fd] is the result of [::accept] and [ctl] that of
    the [upoll_ctl] made by [add_ev]. *)
Definition tcp_serv_read (this : nat) (new_fd ctl : Z) : M loop Z :=
  o ← deref this;
  match impl o with
  | tcp_serv tcp =>
      emit (os_accept (fd o));;
      if (new_fd =? -1)%Z then mret (-1)%Z
      else
        connimpl ← new {| fd := new_fd; _shouldClose := false;
                          impl := tcp_conn 0 None |};
        ok ← add_ev connimpl true ctl;
        if (ok : bool) then
          when (accepted tcp) (emit (cb_accepted this connimpl));;
          mret 0%Z
        else
          delete connimpl;;
          mret (-1)%Z
  | _ => fail
  end.

(** *** The loop as a transition system

    The operations a user of the loop performs on it, each with the results
    of the operating-system calls it makes; [dispatch_*] are the endpoint
    methods [tick] and [run] invoke on a registered endpoint. *)
Inductive call :=
| call_init (created : bool)
| call_tcp_connect (tcp : option llarp_tcp_connecter) (family sock ctl result err : Z)
| call_bind_tcp (tcp : llarp_tcp_acceptor) (family sock bound listening : Z)
| call_udp_listen (l : udp_io) (family sock v6only bound ctl : Z)
| call_create_tun (tio : llarp_tun_io)
| call_add_ev (e : nat) (write : bool) (ctl : Z)
| call_close_ev (e : nat) (ctl : Z)
| call_udp_close (l : udp_io) (ctl : Z)
| call_sendto (e : nat) (to_family : Z) (data : list byte) (sz sent : Z)
| dispatch_tcp_serv_read (e : nat) (new_fd ctl : Z)
| dispatch_tcp_conn_flush_write (e : nat).

Definition do_call (c : call) : loop → option loop :=
  match c with
  | call_init created => exec (init created)
  | call_tcp_connect tcp family sock ctl result err =>
      exec (tcp_connect tcp family sock ctl result err)
  | call_bind_tcp tcp family sock bound listening =>
      exec (bind_tcp tcp family sock bound listening)
  | call_udp_listen l family sock v6only bound ctl =>
      exec (udp_listen l family sock v6only bound ctl)
  | call_create_tun tio => exec (create_tun tio)
  | call_add_ev e write ctl => exec (add_ev e write ctl)
  | call_close_ev e ctl => exec (close_ev e ctl)
  | call_udp_close l ctl => exec (udp_close l ctl)
  | call_sendto e to_family data sz sent =>
      exec (udp_listener.sendto e to_family data sz sent)
  | dispatch_tcp_serv_read e new_fd ctl => exec (tcp_serv_read e new_fd ctl)
  | dispatch_tcp_conn_flush_write e => exec (tcp_conn.flush_write e)
  end.

Inductive steps : loop → loop → Prop :=
| steps_refl s : steps s s
| steps_step s c s' s'' : steps s s' → do_call c s' = Some s'' → steps s s''.

Definition reachable (s : loop) : Prop := steps init_loop s.

End llarp_win32_loop.

(** ** Completion backend: the TUN path *)

(** Buffer sizes of ev/ev.hpp, which this header only uses. *)
Class EvSizes := {
EV_READ_BUF_SZ : Z;
EV_WRITE_BUF_SZ : Z
}.

(** The drop decision of [llarp::util::CoDelQueue] (util/codel.hpp) for an
  entry whose sojourn time has reached the target delay: given the current
  time and the entry's timestamp it says whether the entry is dropped. *)
Class CoDel := {
codel_state : Type;
codel_init : codel_state;
codel_drop : Z → Z → codel_state → bool * codel_state
}.

Module tun.
Section tun.
Context `{!EvSizes, !CoDel}.

Inductive HANDLE := INVALID_HANDLE_VALUE | NULL | Handle (h : nat).

#[global] Instance HANDLE_eq_dec : EqDecision HANDLE.
Proof. solve_decision. Defined.

(** A completion key: 0, the all-ones value [(ULONG_PTR)~0], or the address
    of a [win32_tun_io] cast to an integer (never 0 nor all-ones). *)
Inductive ULONG_PTR := null | all_ones | ptr (a : nat).

(** What [buf] of a request points to: an endpoint's [readbuf] or the bytes
    of a queued write. *)
Inductive bufref := readbuf (ev : nat) | entry_buf (data : list byte).

Record asio_evt_pkt := { write : bool; sz : Z; buf : bufref }.

(** *** [win32_tun_io::WriteBuffer] *)

(** [buf] holds the bytes of the array that have been written; the rest of
    the array is indeterminate. *)
Record WriteBuffer_t := { timestamp : Z; bufsz : Z; wbuf : list byte }.

(** [WriteBuffer(const byte_t* ptr, size_t sz)]; [ptr] is the memory the
    pointer refers to. *)
Definition WriteBuffer (ptr : list byte) (sz : Z) : WriteBuffer_t :=
  if (sz <=? EV_WRITE_BUF_SZ)%Z then
    {| timestamp := 0; bufsz := sz; wbuf := take (Z.to_nat sz) ptr |}
  else
    {| timestamp := 0; bufsz := 0; wbuf := [] |}.

Definition GetTime (b : WriteBuffer_t) : Z := timestamp b.
(** [PutTime]; [now] is [llarp::time_now_ms()]. *)
Definition PutTime (now : Z) (b : WriteBuffer_t) : WriteBuffer_t :=
  {| timestamp := now; bufsz := bufsz b; wbuf := wbuf b |}.
Definition Compare (l r : WriteBuffer_t) : bool := (timestamp l <? timestamp r)%Z.

(** *** [LossyWriteQueue_t]: [CoDelQueue<WriteBuffer, ..., 5, 100, 128>] *)

Definition dropMs : Z := 5.
Definition initialIntervalMs : Z := 100.
Definition MaxSize : nat := 128.

Record CoDelQueue := { m_Queue : list WriteBuffer_t; m_codel : codel_state }.

Definition new_queue : CoDelQueue := {| m_Queue := []; m_codel := codel_init |}.

(** Modelled from the spec: [CoDelQueue::Emplace] (util/codel.hpp is not
    part of this file).  "push(data) enqueues a copy of data tagged with the
    current time; fails (drops) silently if it exceeds the maximum size":
    the entry is built by the element type's constructor from the arguments
    and stamped by [PutTime]; the bound is the queue's capacity ("capacity
    is bounded (e.g. 128 entries) ... entries exceeding capacity are
    dropped"). *)
Definition Emplace (now : Z) (ptr : list byte) (sz : Z) (q : CoDelQueue) : CoDelQueue :=
  if bool_decide (length (m_Queue q) < MaxSize) then
    {| m_Queue := m_Queue q ++ [PutTime now (WriteBuffer ptr sz)];
       m_codel := m_codel q |}
  else q.

(** Modelled from the spec: the walk of [CoDelQueue::Process].  "it walks
    queued entries oldest-first and, for each, applies the Controlled-Delay
    decision before handing it to sink"; an entry whose sojourn time is
    under the target delay is never dropped ("leave the dropping state as
    soon as minimum sojourn time falls back under target").  The result
    lists the entries handed to the visitor, in order. *)
Fixpoint drain (now : Z) (st : codel_state) (entries : list WriteBuffer_t)
    : list WriteBuffer_t * codel_state :=
  match entries with
  | [] => ([], st)
  | b :: rest =>
      if (now - GetTime b <? dropMs)%Z then
        let r := drain now st rest in (b :: r.1, r.2)
      else
        let d := codel_drop now (GetTime b) st in
        let r := drain now d.2 rest in
        (if d.1 then r.1 else b :: r.1, r.2)
  end.

(** Modelled from the spec: [CoDelQueue::Process], which leaves the queue
    empty. *)
Definition Process (now : Z) (q : CoDelQueue) : list WriteBuffer_t * CoDelQueue :=
  let r := drain now (m_codel q) (m_Queue q) in
  (r.1, {| m_Queue := []; m_codel := r.2 |}).

(** *** Objects, threads and the process state *)

Record device := { tun_fd : HANDLE }.
Record win32_tun_io := {
  t : ev.llarp_tun_io;
  tunif : device;
  m_LossyWriteQueue : option CoDelQueue    (* the unique_ptr, [None] if null *)
}.

(** The four outputs of [GetQueuedCompletionStatus]. *)
Record GQCS := { alert : bool; size : Z; listener : ULONG_PTR; ovl : option nat }.

Inductive thread := main | worker (i : nat).

(** A thread running [tun_ev_loop]: blocked in [GetQueuedCompletionStatus],
    returned from it with [r], or returned from [tun_ev_loop]. *)
Inductive tstate := waiting | dequeued (r : GQCS) | exited.

(** The thread that calls into the endpoints and finally [exit_tun_loop]:
    before the call, blocked in its [WaitForMultipleObjects] on [i] handles,
    or past it. *)
Inductive main_pc := running | joining (i : Z) | finished.

Inductive event :=
| CreateIoCompletionPort (fd existing : HANDLE) (key : ULONG_PTR) (nthreads : Z)
| CreateThread (i : nat)
| ReadFile (fd : HANDLE) (buf : bufref) (sz : Z) (pkt : nat)
| WriteFile (fd : HANDLE) (data : list byte) (sz : Z) (pkt : nat)
| cb_before_write (ev : nat)
| cb_recvpkt (ev : nat) (size : Z)
| delete_pkt (pkt : nat)
| PostQueuedCompletionStatus (h : HANDLE) (key : ULONG_PTR)
| WaitForMultipleObjects (i : Z)
| CloseHandle_thread (j : nat)
| delete_kThreadPool
| CancelIo (fd : HANDLE)
| tuntap_destroy (ev : nat)
| CloseHandle (h : HANDLE)
| tuntap_start (ev : nat)
| tuntap_set_ip (ev : nat)
| tuntap_up (ev : nat).

Record process := {
  tun_listeners : list nat;            (* std::list<win32_tun_io*> *)
  tun_event_queue : HANDLE;
  threads : list tstate;               (* the threads of kThreadPool, in order *)
  objs : list (option win32_tun_io);   (* address ↦ live endpoint *)
  pkts : list (option asio_evt_pkt);   (* request records ever allocated,
                                          [None] once deleted *)
  pending : list (nat * nat);          (* requests the device has accepted and
                                          not completed: endpoint, record *)
  port : list GQCS;                    (* completion packets queued on the
                                          port, oldest first *)
  clock : Z;                           (* llarp::time_now_ms() *)
  pc : main_pc;
  cur : thread;                        (* the thread that is executing *)
  trace : list (thread * event)
}.

Definition set_tun_listeners (x : list nat) (s : process) : process :=
  {| tun_listeners := x; tun_event_queue := tun_event_queue s; threads := threads s;
     objs := objs s; pkts := pkts s; pending := pending s; port := port s; clock :=
     clock s; pc := pc s; cur := cur s; trace := trace s |}.
Definition set_tun_event_queue (x : HANDLE) (s : process) : process :=
  {| tun_listeners := tun_listeners s; tun_event_queue := x; threads := threads s;
     objs := objs s; pkts := pkts s; pending := pending s; port := port s; clock :=
     clock s; pc := pc s; cur := cur s; trace := trace s |}.
Definition set_threads (x : list tstate) (s : process) : process :=
  {| tun_listeners := tun_listeners s; tun_event_queue := tun_event_queue s; threads
     := x; objs := objs s; pkts := pkts s; pending := pending s; port := port s; clock
     := clock s; pc := pc s; cur := cur s; trace := trace s |}.
Definition set_objs (x : list (option win32_tun_io)) (s : process) : process :=
  {| tun_listeners := tun_listeners s; tun_event_queue := tun_event_queue s; threads
     := threads s; objs := x; pkts := pkts s; pending := pending s; port := port s;
     clock := clock s; pc := pc s; cur := cur s; trace := trace s |}.
Definition set_pkts (x : list (option asio_evt_pkt)) (s : process) : process :=
  {| tun_listeners := tun_listeners s; tun_event_queue := tun_event_queue s; threads
     := threads s; objs := objs s; pkts := x; pending := pending s; port := port s;
     clock := clock s; pc := pc s; cur := cur s; trace := trace s |}.
Definition set_pending (x : list (nat * nat)) (s : process) : process :=
  {| tun_listeners := tun_listeners s; tun_event_queue := tun_event_queue s; threads
     := threads s; objs := objs s; pkts := pkts s; pending := x; port := port s; clock
     := clock s; pc := pc s; cur := cur s; trace := trace s |}.
Definition set_port (x : list GQCS) (s : process) : process :=
  {| tun_listeners := tun_listeners s; tun_event_queue := tun_event_queue s; threads
     := threads s; objs := objs s; pkts := pkts s; pending := pending s; port := x;
     clock := clock s; pc := pc s; cur := cur s; trace := trace s |}.
Definition set_clock (x : Z) (s : process) : process :=
  {| tun_listeners := tun_listeners s; tun_event_queue := tun_event_queue s; threads
     := threads s; objs := objs s; pkts := pkts s; pending := pending s; port := port
     s; clock := x; pc := pc s; cur := cur s; trace := trace s |}.
Definition set_pc (x : main_pc) (s : process) : process :=
  {| tun_listeners := tun_listeners s; tun_event_queue := tun_event_queue s; threads
     := threads s; objs := objs s; pkts := pkts s; pending := pending s; port := port
     s; clock := clock s; pc := x; cur := cur s; trace := trace s |}.
Definition set_cur (x : thread) (s : process) : process :=
  {| tun_listeners := tun_listeners s; tun_event_queue := tun_event_queue s; threads
     := threads s; objs := objs s; pkts := pkts s; pending := pending s; port := port
     s; clock := clock s; pc := pc s; cur := x; trace := trace s |}.
Definition set_trace (x : list (thread * event)) (s : process) : process :=
  {| tun_listeners := tun_listeners s; tun_event_queue := tun_event_queue s; threads
     := threads s; objs := objs s; pkts := pkts s; pending := pending s; port := port
     s; clock := clock s; pc := pc s; cur := cur s; trace := x |}.

(** The process before anything has been created. *)
Definition init : process :=
  {| tun_listeners := []; tun_event_queue := INVALID_HANDLE_VALUE; threads := [];
     objs := []; pkts := []; pending := []; port := []; clock := 0;
     pc := running; cur := main; trace := [] |}.

Definition emit (e : event) : M process unit :=
  modify (λ s, set_trace (trace s ++ [(cur s, e)]) s).

(** [this->...]: undefined unless the endpoint is live. *)
Definition deref (this : nat) : M process win32_tun_io :=
  s ← get;
  match objs s !! this with
  | Some (Some o) => mret o
  | _ => fail
  end.

Definition store (this : nat) (o : win32_tun_io) : M process unit :=
  modify (λ s, set_objs (<[this := Some o]> (objs s)) s).

(** [new asio_evt_pkt] followed by the assignments to its fields. *)
Definition new_pkt (p : asio_evt_pkt) : M process nat :=
  s ← get;
  modify (λ s, set_pkts (pkts s ++ [Some p]) s);;
  mret (length (pkts s)).

(** [pkt->...]: undefined unless the record is live. *)
Definition deref_pkt (pkt : nat) : M process asio_evt_pkt :=
  s ← get;
  match pkts s !! pkt with
  | Some (Some p) => mret p
  | _ => fail
  end.

(** [delete pkt]; undefined unless the record is live. *)
Definition delete_asio_evt_pkt (pkt : nat) : M process unit :=
  _ ← deref_pkt pkt;
  emit (delete_pkt pkt);;
  modify (λ s, set_pkts (<[pkt := None]> (pkts s)) s).

(** The device accepts an overlapped request of endpoint [this]; its
    completion will be reported to the port with the key the descriptor was
    associated with, [(ULONG_PTR)this]. *)
Definition submit (this pkt : nat) : M process unit :=
  modify (λ s, set_pending (pending s ++ [(this, pkt)]) s).

Fixpoint for_each {A} (f : A → M process unit) (l : list A) : M process unit :=
  match l with
  | [] => mret tt
  | x :: rest => f x;; for_each f rest
  end.

(** *** The thread pool *)

(** [begin_tun_loop]; [new HANDLE[nThreads]] throws for a negative count. *)
Definition begin_tun_loop (nThreads : Z) : M process unit :=
  if (nThreads <? 0)%Z then fail
  else
    modify (set_threads (replicate (Z.to_nat nThreads) waiting));;
    for_each (λ i, emit (CreateThread i)) (seq 0 (Z.to_nat nThreads)).

(** *** [win32_tun_io] *)

(** The constructor; [dev] is what [tuntap_init()] returns. *)
Definition new_win32_tun_io (tio : ev.llarp_tun_io) (dev : device) : M process nat :=
  s ← get;
  modify (λ s, set_objs (objs s ++ [Some {| t := tio; tunif := dev;
                                            m_LossyWriteQueue := Some new_queue |}]) s);;
  mret (length (objs s)).

(** [read] *)
Definition read (this : nat) (buf : bufref) (sz : Z) : M process unit :=
  o ← deref this;
  pkt ← new_pkt {| write := false; sz := sz; buf := buf |};
  emit (ReadFile (tun_fd (tunif o)) buf sz pkt);;
  submit this pkt.

(** [do_write] *)
Definition do_write (this : nat) (data : list byte) (sz : Z) : M process unit :=
  o ← deref this;
  pkt ← new_pkt {| write := true; sz := sz; buf := entry_buf data |};
  emit (WriteFile (tun_fd (tunif o)) data sz pkt);;
  submit this pkt.

(** [flush_write] *)
Definition flush_write (this : nat) : M process unit :=
  o ← deref this;
  when (ev.before_write (t o)) (emit (cb_before_write this));;
  match m_LossyWriteQueue o with
  | None => fail
  | Some q =>
      s ← get;
      let r := Process (clock s) q in
      store this {| t := t o; tunif := tunif o; m_LossyWriteQueue := Some r.2 |};;
      for_each (λ b, do_write this (wbuf b) (bufsz b)) r.1
  end.

(** [queue_write] *)
Definition queue_write (this : nat) (buf : list byte) (sz : Z) : M process bool :=
  o ← deref this;
  match m_LossyWriteQueue o with
  | Some q =>
      s ← get;
      store this {| t := t o; tunif := tunif o;
                    m_LossyWriteQueue := Some (Emplace (clock s) buf sz q) |};;
      flush_write this;;
      mret true
  | None => mret false
  end.

Definition set_tun_fd (this : nat) (fd : HANDLE) : M process unit :=
  o ← deref this;
  store this {| t := t o; tunif := {| tun_fd := fd |};
                m_LossyWriteQueue := m_LossyWriteQueue o |}.

(** [setup]; each of [start], [set_ip] and [up] gives what the call to
    [tuntap_start], [tuntap_set_ip] and [tuntap_up] returns and the
    descriptor it leaves in the device. *)
Definition setup (this : nat) (start set_ip up : Z * HANDLE) : M process bool :=
  emit (tuntap_start this);;
  set_tun_fd this start.2;;
  if (start.1 =? -1)%Z then mret false
  else
    emit (tuntap_set_ip this);;
    set_tun_fd this set_ip.2;;
    if (set_ip.1 =? -1)%Z then mret false
    else
      emit (tuntap_up this);;
      set_tun_fd this up.2;;
      if (up.1 =? -1)%Z then mret false
      else
        o ← deref this;
        if bool_decide (tun_fd (tunif o) = INVALID_HANDLE_VALUE) then mret false
        else mret true.

(** [add_ev]; [numCPU] is [sys_info.dwNumberOfProcessors] and [created] the
    port [CreateIoCompletionPort] makes when it is asked for a new one
    ([None] if it returns [NULL]). *)
Definition add_ev (this : nat) (numCPU : Z) (created : option nat) : M process bool :=
  o ← deref this;
  s ← get;
  (if bool_decide (tun_event_queue s = INVALID_HANDLE_VALUE) then
     emit (CreateIoCompletionPort (tun_fd (tunif o)) NULL (ptr this)
                                  (wrap 32 (numCPU * 2)));;
     modify (set_tun_event_queue (from_option Handle NULL created));;
     begin_tun_loop (to_int (wrap 32 (numCPU * 2)))
   else
     emit (CreateIoCompletionPort (tun_fd (tunif o)) (tun_event_queue s)
                                  (ptr this) 0));;
  modify (λ s, set_tun_listeners (tun_listeners s ++ [this]) s);;
  read this (readbuf this) 4096;;
  mret true.

(** [delete] of an endpoint: [~win32_tun_io], then the object is gone. *)
Definition destroy (this : nat) : M process unit :=
  o ← deref this;
  emit (CancelIo (tun_fd (tunif o)));;
  when (negb (bool_decide (tun_fd (tunif o) = NULL))) (emit (tuntap_destroy this));;
  modify (λ s, set_objs (<[this := None]> (objs s)) s).

(** *** [tun_ev_loop] *)

Inductive control := Continue | Break.

(** The body of the [while(true)] after [GetQueuedCompletionStatus] has
    returned [r]. *)
Definition tun_ev_loop_body (r : GQCS) : M process control :=
  if negb (alert r) then mret Continue
  else
    match listener r with
    | all_ones => mret Break
    | null => fail
    | ptr ev =>
        match ovl r with
        | None => fail
        | Some pkt =>
            p ← deref_pkt pkt;
            o ← deref ev;
            (if negb (write p) then
               when (ev.recvpkt (t o)) (emit (cb_recvpkt ev (size r)));;
               flush_write ev;;
               read ev (readbuf ev) EV_READ_BUF_SZ
             else
               read ev (readbuf ev) EV_READ_BUF_SZ);;
            delete_asio_evt_pkt pkt;;
            mret Continue
        end
    end.

(** *** [exit_tun_loop] *)

Definition port_open (s : process) : bool :=
  match tun_event_queue s with Handle _ => true | _ => false end.

Definition sentinel : GQCS :=
  {| alert := true; size := 0; listener := all_ones; ovl := None |}.

(** Up to the call of [WaitForMultipleObjects]; [i] is the value of
    [(&kThreadPool)[1] - kThreadPool], which depends on what lies behind the
    global in memory. *)
Definition exit_tun_loop_post (i : Z) : M process unit :=
  s ← get;
  emit (PostQueuedCompletionStatus (tun_event_queue s) all_ones);;
  when (port_open s) (modify (set_port (port s ++ [sentinel])));;
  emit (WaitForMultipleObjects i).

(** From the return of [WaitForMultipleObjects] on.  The loop over the
    handles reads [kThreadPool[j]] for every [j < i]; beyond the array that
    [begin_tun_loop] allocated the read is undefined. *)
Definition exit_tun_loop_finish (i : Z) : M process unit :=
  s0 ← get;
  (if (Z.of_nat (length (threads s0)) <? i)%Z then fail else mret tt);;
  for_each (λ j, emit (CloseHandle_thread j)) (seq 0 (Z.to_nat i));;
  emit delete_kThreadPool;;
  s ← get;
  for_each destroy (tun_listeners s);;
  modify (set_tun_listeners []);;
  emit (CloseHandle (tun_event_queue s)).

(** *** The process as a transition system *)

Definition is_exited (st : tstate) : bool :=
  match st with exited => true | _ => false end.

Definition MAXIMUM_WAIT_OBJECTS : Z := 64.

(** [WaitForMultipleObjects(i, kThreadPool, TRUE, INFINITE)] can return: all
    of the first [i] threads have terminated, or the call is refused (a
    count that is zero, too large, or beyond the pool). *)
Definition wait_satisfied (i : Z) (ths : list tstate) : bool :=
  if (1 <=? i)%Z && (i <=? MAXIMUM_WAIT_OBJECTS)%Z && (i <=? Z.of_nat (length ths))%Z
  then forallb is_exited (take (Z.to_nat i) ths)
  else true.

(** What [GetQueuedCompletionStatus] leaves when its 100 ms elapse. *)
Definition timed_out : GQCS :=
  {| alert := false; size := 0; listener := null; ovl := None |}.

Inductive action :=
| call_new (tio : ev.llarp_tun_io) (dev : device)
| call_setup (ev : nat) (start set_ip up : Z * HANDLE)
| call_add_ev (ev : nat) (numCPU : Z) (created : option nat)
| call_queue_write (ev : nat) (buf : list byte) (sz : Z)
| time_passes (dt : Z)
| io_completes (k : nat) (ok : bool) (n : Z)   (* the k-th pending request *)
| thread_dequeues (tid : nat)
| thread_runs (tid : nat)
| call_exit_tun_loop (i : Z)
| wait_returns.

(** A call made by the main thread while it has not entered
    [exit_tun_loop]. *)
Definition by_main {A} (m : M process A) (s : process) : option process :=
  match pc s with
  | running => exec m (set_cur main s)
  | _ => None
  end.

Definition do_action (a : action) (s : process) : option process :=
  match a with
  | call_new tio dev => by_main (new_win32_tun_io tio dev) s
  | call_setup ev start set_ip up => by_main (setup ev start set_ip up) s
  | call_add_ev ev numCPU created => by_main (add_ev ev numCPU created) s
  | call_queue_write ev buf sz => by_main (queue_write ev buf sz) s
  | time_passes dt =>
      if (0 <=? dt)%Z then Some (set_clock (clock s + dt)%Z s) else None
  | io_completes k ok n =>
      match pending s !! k with
      | Some (ev, pkt) =>
          let s' := set_pending (delete k (pending s)) s in
          Some (if port_open s then
                  set_port (port s ++ [{| alert := ok; size := n;
                                          listener := ptr ev; ovl := Some pkt |}]) s'
                else s')
      | None => None
      end
  | thread_dequeues tid =>
      match threads s !! tid with
      | Some waiting =>
          match port s with
          | r :: rest =>
              Some (set_threads (<[tid := dequeued r]> (threads s)) (set_port rest s))
          | [] => Some (set_threads (<[tid := dequeued timed_out]> (threads s)) s)
          end
      | _ => None
      end
  | thread_runs tid =>
      match threads s !! tid with
      | Some (dequeued r) =>
          match tun_ev_loop_body r (set_cur (worker tid) s) with
          | Some (Continue, s') => Some (set_threads (<[tid := waiting]> (threads s')) s')
          | Some (Break, s') => Some (set_threads (<[tid := exited]> (threads s')) s')
          | None => None
          end
      | _ => None
      end
  | call_exit_tun_loop i =>
      set_pc (joining i) <$> by_main (exit_tun_loop_post i) s
  | wait_returns =>
      match pc s with
      | joining i =>
          if wait_satisfied i (threads s) then
            set_pc finished <$> exec (exit_tun_loop_finish i) (set_cur main s)
          else None
      | _ => None
      end
  end.

Fixpoint run (acts : list action) (s : process) : option process :=
  match acts with
  | [] => Some s
  | a :: rest => match do_action a s with Some s' => run rest s' | None => None end
  end.

Inductive steps : process → process → Prop :=
| steps_refl s : steps s s
| steps_step s a s' s'' : steps s s' → do_action a s' = Some s'' → steps s s''.

Definition reachable (s : process) : Prop := steps init s.

End tun.
End tun.

(** ** Vocabulary of the statements *)

(** The events a computation on the loop appended to its trace. *)
Definition appended (s s' : ev.loop) (evs : list ev.event) : Prop :=
  ev.trace s' = ev.trace s ++ evs.


(** A loop whose poll set has been created and is empty. *)
Definition started_loop : ev.loop :=
  {| ev.objs := []; ev.handlers := []; ev.upollfd := Some [];
     ev.wsa_last_error := 0; ev.trace := [] |}.

(** A started loop owning one connection on descriptor 4 towards an IPv4
    address, with the caller's callback table [c]. *)
Definition loop_with_conn (c : ev.llarp_tcp_connecter) : ev.loop :=
  {| ev.objs := [Some {| ev.fd := 4; ev._shouldClose := false;
                         ev.impl := ev.tcp_conn AF_INET (Some c) |}];
     ev.handlers := [0]; ev.upollfd := Some [(4%Z, 0, true)];
     ev.wsa_last_error := 0; ev.trace := [] |}.


(** A computation keeps a property of the state whenever it returns. *)
Definition preserves {S A} (P : S → Prop) (m : M S A) : Prop :=
  ∀ s a s', P s → m s = Some (a, s') → P s'.

(** No live endpoint of the loop is a virtual interface. *)
Definition no_tun (s : ev.loop) : Prop :=
  ∀ e o, ev.objs s !! e = Some (Some o) → ev.is_tun o = false.

(** The started loop after a [tcp_connect] on descriptor 4 was refused, the
    caller having set both callbacks. *)
Definition loop_after_refusal : ev.loop :=
  {| ev.objs := [Some {| ev.fd := 4; ev._shouldClose := false;
                         ev.impl := ev.tcp_conn AF_INET
                                      (Some {| ev.connected := true; ev.error := true |}) |}];
     ev.handlers := [0]; ev.upollfd := Some [(4%Z, 0, true)];
     ev.wsa_last_error := WSAECONNREFUSED;
     ev.trace := [ev.os_usocket AF_INET; ev.os_upoll_ctl_add 4 0 true;
                  ev.os_connect 4 AF_INET sizeof_sockaddr_in; ev.cb_error 0] |}.

Section tun_vocabulary.
Context `{!EvSizes, !CoDel}.
Import tun.

(** The state after the running thread has allocated the request record [p],
    made the call [e] with it and the device has accepted the request. *)
Definition issued (this : nat) (p : asio_evt_pkt) (e : nat → event) (s : process)
    : process :=
  set_pending (pending s ++ [(this, length (pkts s))])
    (set_trace (trace s ++ [(cur s, e (length (pkts s)))])
       (set_pkts (pkts s ++ [Some p]) s)).

(** The state after one [do_write] for each of the buffers [bs], in order. *)
Definition issued_writes (this : nat) (fd : HANDLE) (bs : list WriteBuffer_t)
    (s : process) : process :=
  foldl (λ s b, issued this {| write := true; sz := bufsz b; buf := entry_buf (wbuf b) |}
                  (WriteFile fd (wbuf b) (bufsz b)) s) s bs.

(** The events the running thread appended to the trace. *)
Definition logged (s s' : process) (evs : list event) : Prop :=
  trace s' = trace s ++ ((λ e, (cur s, e)) <$> evs).

Definition is_ReadFile (e : thread * event) : bool :=
  match e.2 with ReadFile _ _ _ _ => true | _ => false end.

Definition is_WriteFile (e : thread * event) : bool :=
  match e.2 with WriteFile _ _ _ _ => true | _ => false end.

(** The number of reads issued so far. *)
Definition reads_issued (s : process) : nat := length (filter is_ReadFile (trace s)).

(** The number of writes issued so far. *)
Definition writes_issued (s : process) : nat := length (filter is_WriteFile (trace s)).

(** The endpoint's write queue. *)
Definition queue_of (this : nat) (s : process) : option CoDelQueue :=
  o ← objs s !! this; o' ← o; m_LossyWriteQueue o'.

(** The endpoint's device descriptor. *)
Definition fd_of (this : nat) (s : process) : option HANDLE :=
  o ← objs s !! this; o' ← o; Some (tun_fd (tunif o')).

(** The state in which [flush_write] leaves the endpoint before the writes
    are issued. *)
Definition flushing (this : nat) (o : win32_tun_io) (q : CoDelQueue) (s : process)
    : process :=
  let s1 := if ev.before_write (t o)
            then set_trace (trace s ++ [(cur s, cb_before_write this)]) s else s in
  set_objs (<[this := Some {| t := t o; tunif := tunif o;
                              m_LossyWriteQueue := Some (Process (clock s) q).2 |}]>
              (objs s)) s1.

(** The state after the running thread has deleted the request record [p]. *)
Definition released (p : nat) (s : process) : process :=
  set_pkts (<[p := None]> (pkts s)) (set_trace (trace s ++ [(cur s, delete_pkt p)]) s).

(** The state after [begin_tun_loop n]. *)
Definition spawned (n : nat) (s : process) : process :=
  set_trace (trace s ++ ((λ i, (cur s, CreateThread i)) <$> seq 0 n))
    (set_threads (replicate n waiting) s).

(** The request record of a standing read of [sz] bytes into [readbuf]. *)
Definition standing_read (this : nat) (sz : Z) : asio_evt_pkt :=
  {| write := false; sz := sz; buf := readbuf this |}.

(** The state after the [recvpkt] callback, if one is set, has been
    invoked. *)
Definition received (this : nat) (size : Z) (o : win32_tun_io) (s : process) : process :=
  if ev.recvpkt (t o)
  then set_trace (trace s ++ [(cur s, cb_recvpkt this size)]) s else s.

(** The port and the size of the thread pool are [h] and [n]. *)
Definition pool_is (h : HANDLE) (n : nat) (s : process) : Prop :=
  tun_event_queue s = h ∧ length (threads s) = n.

(** A dequeued packet on which [tun_ev_loop] leaves its loop. *)
Definition is_stop (r : GQCS) : bool :=
  match listener r with all_ones => alert r | _ => false end.

(** A thread that has left [tun_ev_loop] or holds the packet that makes it
    leave. *)
Definition stopped (st : tstate) : bool :=
  match st with dequeued r => is_stop r | exited => true | waiting => false end.

(** The number of packets [exit_tun_loop] has posted. *)
Definition posted (s : process) : nat :=
  match pc s with running => 0 | _ => 1 end.

(** Every stop packet, queued or dequeued, was posted by [exit_tun_loop]. *)
Definition stops_are_posted (s : process) : Prop :=
  length (filter is_stop (port s)) + length (filter stopped (threads s)) ≤ posted s.

(** The completion a thread holds between [GetQueuedCompletionStatus] and
    the end of the loop body. *)
Definition holding (st : tstate) : option GQCS :=
  match st with dequeued r => Some r | _ => None end.

(** A request the device has accepted, as the packet its completion will
    be: the key is the endpoint, the payload the record. *)
Definition request (x : nat * nat) : GQCS :=
  {| alert := true; size := 0; listener := ptr x.1; ovl := Some x.2 |}.

(** The requests in flight, as packets: those the device has not completed,
    those queued on the port and those a thread has dequeued and not yet
    handled. *)
Definition requests (s : process) : list GQCS :=
  (request <$> pending s) ++ port s ++ omap holding (threads s).

(** The records deleted so far, in order. *)
Definition deleted (tr : list (thread * event)) : list nat :=
  omap (λ e, match e.2 with delete_pkt p => Some p | _ => None end) tr.

Definition live_pkt (s : process) (p : nat) : Prop :=
  ∃ rec, pkts s !! p = Some (Some rec).

Definition live_obj (s : process) (e : nat) : Prop :=
  ∃ o, objs s !! e = Some (Some o).

(** A packet with an endpoint for key names a live record and, until the
    endpoints are destroyed, a live endpoint; a packet without a record is
    the stop packet or a timeout. *)
Definition request_ok (s : process) (r : GQCS) : Prop :=
  match listener r, ovl r with
  | ptr e, Some p => live_pkt s p ∧ (pc s ≠ finished → live_obj s e)
  | all_ones, None => True
  | null, None => alert r = false
  | _, _ => False
  end.

Definition requests_ok (s : process) (R : list GQCS) : Prop :=
  NoDup (omap ovl R) ∧ Forall (request_ok s) R.

(** The invariant of the completion path: requests in flight name distinct
    live records, deleted records are dead and were deleted once, and every
    live endpoint has its write queue. *)
Record consistent (s : process) : Prop := {
  consistent_requests : requests_ok s (requests s);
  consistent_dead : ∀ p, p ∈ deleted (trace s) → pkts s !! p = Some None;
  consistent_once : NoDup (deleted (trace s));
  consistent_queues :
    ∀ e o, objs s !! e = Some (Some o) → is_Some (m_LossyWriteQueue o)
}.

(** Every live endpoint has its write queue. *)
Definition have_queues (s : process) : Prop :=
  ∀ e o, objs s !! e = Some (Some o) → is_Some (m_LossyWriteQueue o).

(** [u] differs from [s0] in nothing the requests depend on: no request was
    issued, completed, dequeued or released and no endpoint destroyed. *)
Definition quiet (s0 u : process) : Prop :=
  pkts u = pkts s0 ∧ pending u = pending s0 ∧ port u = port s0 ∧
  threads u = threads s0 ∧ pc u = pc s0 ∧
  deleted (trace u) = deleted (trace s0) ∧
  (∀ e, live_obj s0 e → live_obj u e).

(** As [quiet], but endpoints may have been destroyed. *)
Definition quiet_but_for_endpoints (s0 u : process) : Prop :=
  pkts u = pkts s0 ∧ pending u = pending s0 ∧ port u = port s0 ∧
  threads u = threads s0 ∧ deleted (trace u) = deleted (trace s0).

(** [s'] is [s] after endpoint [e] has issued requests with the new records
    [news], and possibly after the thread pool has been started. *)
Definition grown (e : nat) (news : list asio_evt_pkt) (s s' : process) : Prop :=
  pkts s' = pkts s ++ (Some <$> news) ∧
  pending s' = pending s ++ ((λ p, (e, p)) <$> seq (length (pkts s)) (length news)) ∧
  port s' = port s ∧
  (threads s' = threads s ∨ omap holding (threads s') = []) ∧
  pc s' = pc s ∧
  deleted (trace s') = deleted (trace s) ∧
  (∀ x, live_obj s x → live_obj s' x).

(** The event is the deletion of record [p]. *)
Definition deletes (p : nat) (e : thread * event) : bool :=
  match e.2 with delete_pkt q => bool_decide (q = p) | _ => false end.

(** The event is not the deletion of a record. *)
Definition keeps_records (e : event) : Prop :=
  match e with delete_pkt _ => False | _ => True end.

End tun_vocabulary.

(** ** A concrete platform and concrete runs *)

(** The buffer sizes ev/ev.hpp is taken to define in the examples. *)
Definition example_sizes : EvSizes :=
  {| EV_READ_BUF_SZ := 4096; EV_WRITE_BUF_SZ := 2048 |}.

(** A drop decision that drops every entry it is asked about. *)
Definition eager_codel : CoDel :=
  {| codel_state := unit; codel_init := tt; codel_drop := λ _ _ _, (true, tt) |}.

Section examples.
#[local] Existing Instance example_sizes.
#[local] Existing Instance eager_codel.
Import tun.

Definition example_tio : ev.llarp_tun_io :=
  {| ev.recvpkt := true; ev.before_write := false |}.

Definition example_dev : device := {| tun_fd := Handle 7 |}.

(** The process after the actions [acts], from the start. *)
Definition after (acts : list action) : process := default init (run acts init).

(** One endpoint is constructed. *)
Definition constructed : list action := [call_new example_tio example_dev].

(** The endpoint is registered on a machine with one processor, which starts
    two threads. *)
Definition registered : list action :=
  constructed ++ [call_add_ev 0 1 (Some 1)].

(** The device completes the standing read with 60 bytes and thread 0
    dequeues the completion. *)
Definition read_dequeued : list action :=
  registered ++ [io_completes 0 true 60; thread_dequeues 0].

Definition read_completion : GQCS :=
  {| alert := true; size := 60; listener := ptr 0; ovl := Some 0 |}.

(** Three bytes are written and the device completes the write; thread 0
    dequeues the completion. *)
Definition write_dequeued : list action :=
  registered ++ [call_queue_write 0 [x01; x02; x03]%byte 3; io_completes 1 true 3;
                 thread_dequeues 0].

Definition write_completion : GQCS :=
  {| alert := true; size := 3; listener := ptr 0; ovl := Some 1 |}.

(** Thread 0 handles the completion of the write. *)
Definition write_completed : list action := write_dequeued ++ [thread_runs 0].

(** [exit_tun_loop] is called, the size of the pool evaluating to 2, and
    thread 1 dequeues the packet it posts. *)
Definition stopping : list action :=
  registered ++ [call_exit_tun_loop 2; thread_dequeues 1; thread_runs 1].

(** The endpoint the examples construct, with an empty queue. *)
Definition example_endpoint : win32_tun_io :=
  {| t := example_tio; tunif := example_dev; m_LossyWriteQueue := Some new_queue |}.

End examples.

(** ** Vocabulary of the further properties *)

(** The loop after the endpoint at address [e] has been destroyed. *)
Definition destroyed (e : nat) (s : ev.loop) : ev.loop :=
  {| ev.objs := <[e := None]> (ev.objs s); ev.handlers := ev.handlers s;
     ev.upollfd := ev.upollfd s; ev.wsa_last_error := ev.wsa_last_error s;
     ev.trace := ev.trace s |}.

(** The loop after the events [evs] have been appended to its trace. *)
Definition logging (evs : list ev.event) (s : ev.loop) : ev.loop :=
  {| ev.objs := ev.objs s; ev.handlers := ev.handlers s;
     ev.upollfd := ev.upollfd s; ev.wsa_last_error := ev.wsa_last_error s;
     ev.trace := ev.trace s ++ evs |}.

(** The arguments with which [udp_bind] returns the socket: a supported
    family and no failing call. *)
Definition binds (family sock v6only bound : Z) : Prop :=
  (family = AF_INET ∨ family = AF_INET6 ∧ v6only ≠ (-1)%Z) ∧
  sock ≠ (-1)%Z ∧ bound ≠ (-1)%Z.

(** Every registered endpoint has been allocated. *)
Definition in_bounds (s : ev.loop) : Prop :=
  Forall (λ h, h < length (ev.objs s)) (ev.handlers s).

(** The poll set exists. *)
Definition polling (s : ev.loop) : Prop := ev.upollfd s ≠ None.

(** A started loop owning one TCP acceptor on descriptor 5, whose [accepted]
    callback is set. *)
Definition loop_with_serv : ev.loop :=
  {| ev.objs := [Some {| ev.fd := 5; ev._shouldClose := false;
                         ev.impl := ev.tcp_serv {| ev.accepted := true |} |}];
     ev.handlers := [0]; ev.upollfd := Some [(5%Z, 0, false)];
     ev.wsa_last_error := 0; ev.trace := [] |}.

(** A started loop owning one UDP listener on descriptor 3, and the caller's
    [llarp_udp_io] that points to it. *)
Definition loop_with_listener : ev.loop :=
  {| ev.objs := [Some {| ev.fd := 3; ev._shouldClose := false;
                         ev.impl := ev.udp_listener {| ev.tick := false |} |}];
     ev.handlers := [0]; ev.upollfd := Some [(3%Z, 0, false)];
     ev.wsa_last_error := 0; ev.trace := [] |}.

Definition listener_io : llarp_win32_loop.udp_io :=
  {| llarp_win32_loop.io := {| ev.tick := false |};
     llarp_win32_loop.io_impl := Some 0; llarp_win32_loop.io_fd := 3 |}.

(** A caller's [llarp_udp_io] that no listener has been created for. *)
Definition unbound_io : llarp_win32_loop.udp_io :=
  {| llarp_win32_loop.io := {| ev.tick := false |};
     llarp_win32_loop.io_impl := None; llarp_win32_loop.io_fd := 0 |}.

(** An open TCP connection on descriptor 4. *)
Definition open_conn : ev.ev_io :=
  {| ev.fd := 4; ev._shouldClose := false; ev.impl := ev.tcp_conn AF_INET None |}.

Section completion_vocabulary.
Context `{!EvSizes, !CoDel}.
Import tun.

(** The calls the destructor of the endpoint at [e] makes. *)
Definition destructor_calls (s : process) (e : nat) : list event :=
  match objs s !! e with
  | Some (Some o) =>
      CancelIo (tun_fd (tunif o)) ::
      if bool_decide (tun_fd (tunif o) = NULL) then [] else [tuntap_destroy e]
  | _ => []
  end.

(** The state after the running thread has destroyed the endpoint at [e]. *)
Definition destroying (e : nat) (s : process) : process :=
  set_objs (<[e := None]> (objs s))
    (set_trace (trace s ++ ((λ ev, (cur s, ev)) <$> destructor_calls s e)) s).

(** A read, if the event is one, is into an endpoint's [readbuf] and asks for
    the 4096 bytes of [add_ev] or for the size of the buffer. *)
Definition standing (e : thread * event) : Prop :=
  match e.2 with
  | ReadFile _ (readbuf _) sz _ => sz = 4096%Z ∨ sz = EV_READ_BUF_SZ
  | ReadFile _ (entry_buf _) _ _ => False
  | _ => True
  end.

(** A return of [GetQueuedCompletionStatus] that dequeued nothing: FALSE
    with a null [lpOverlapped], which is what the elapsed wait leaves. *)
Definition is_timeout (r : GQCS) : bool :=
  negb (alert r) && bool_decide (ovl r = None).

(** Some request in flight carries the record [p]. *)
Definition names (s : process) (p : nat) : Prop :=
  ∃ r, r ∈ requests s ∧ ovl r = Some p.

(** The record [p] is allocated, no request in flight carries it and it has
    not been deleted. *)
Definition leaked (p : nat) (s : process) : Prop :=
  live_pkt s p ∧ ¬ names s p ∧ p ∉ deleted (trace s).

(** From [s] to [s'] records were deleted only if a request carried them,
    and the requests of [s'] carry records carried in [s] or allocated
    since. *)
Definition stems (s s' : process) : Prop :=
  (∀ x, live_pkt s x → ¬ names s x → live_pkt s' x) ∧
  (∀ x, names s' x → names s x ∨ length (pkts s) ≤ x) ∧
  (∀ x, x ∈ deleted (trace s') → x ∈ deleted (trace s) ∨ names s x).

End completion_vocabulary.

Section more_examples.
#[local] Existing Instance example_sizes.
#[local] Existing Instance eager_codel.
Import tun.

(** The device fails the standing read and thread 0 dequeues the
    completion. *)
Definition read_failed : list action :=
  registered ++ [io_completes 0 false 0; thread_dequeues 0].

Definition failed_read : GQCS :=
  {| alert := false; size := 0; listener := ptr 0; ovl := Some 0 |}.

(** Thread 0 handles the completion of the failed read. *)
Definition read_failure_handled : list action := read_failed ++ [thread_runs 0].

End more_examples.

(** * Properties *)

(** Unfolding of the monad's operations. *)
Ltac munfold :=
  unfold exec, when, mbind, mret, M_bind, M_ret, get, put, modify, fail in *.

Section preserves.
Context {S : Type} (P : S → Prop).

Lemma preserves_ret {A} (a : A) : preserves P (mret a).
Proof. intros s a' s' HP [= _ <-]. exact HP. Qed.

Lemma preserves_bind {A B} (m : M S A) (k : A → M S B) :
  preserves P m → (∀ a, preserves P (k a)) → preserves P (m ≫= k).
Proof.
  intros Hm Hk s b s' HP. unfold mbind, M_bind.
  destruct (m s) as [[a s1]|] eqn:E; [|done].
  intros Hrun. eapply Hk; [|exact Hrun]. eapply Hm; eauto.
Qed.

Lemma preserves_get : preserves P get.
Proof. intros s a s' HP [= _ <-]. exact HP. Qed.

Lemma preserves_fail {A} : preserves P (@fail S A).
Proof. intros s a s' _ [=]. Qed.

Lemma preserves_put s0 : P s0 → preserves P (put s0).
Proof. intros H0 s a s' _ [= _ <-]. exact H0. Qed.

Lemma preserves_modify f : (∀ s, P s → P (f s)) → preserves P (modify f).
Proof. intros Hf s a s' HP [= _ <-]. by apply Hf. Qed.

Lemma preserves_when b (m : M S unit) : preserves P m → preserves P (when b m).
Proof. intros Hm. destruct b; [exact Hm|apply preserves_ret]. Qed.

Lemma preserves_exec {A} (m : M S A) s s' :
  preserves P m → P s → exec m s = Some s' → P s'.
Proof.
  intros Hm HP. unfold exec. destruct (m s) as [[a s1]|] eqn:E; [|done].
  intros [= <-]. eapply Hm; eauto.
Qed.

End preserves.

(** Decomposition of a goal [preserves P m] along the structure of [m]; the
    primitives of each state are closed by [prim]. *)
Ltac preserves_with prim :=
  repeat first
    [ prim
    | apply preserves_ret
    | apply preserves_get
    | apply preserves_fail
    | apply preserves_when
    | apply preserves_bind; [|intros ?]
    | match goal with
      | |- preserves _ (if ?b then _ else _) => destruct b
      | |- preserves _ (match ?x with _ => _ end) => destruct x
      | |- preserves _ (let _ := _ in _) => cbv zeta
      end ].

(** ** UDP: [udp_listener::sendto] *)

Section udp_sendto.
Import ev.

Lemma sendto_other_family this to_family data sz sent s :
  to_family ≠ AF_INET → to_family ≠ AF_INET6 →
  udp_listener.sendto this to_family data sz sent s = Some ((-1)%Z, s).
Proof.
  intros H4 H6. unfold udp_listener.sendto.
  destruct (Z.eqb_spec to_family AF_INET) as [|_]; [done|].
  destruct (Z.eqb_spec to_family AF_INET6) as [|_]; [done|].
  reflexivity.
Qed.

Lemma sendto_inet this o data sz sent s :
  objs s !! this = Some (Some o) →
  udp_listener.sendto this AF_INET data sz sent s =
    emit (os_sendto (fd o) data sz AF_INET sizeof_sockaddr_in) s
      ≫= λ r, Some (to_int sent, r.2).
Proof.
  intros Hlive. unfold udp_listener.sendto, deref, emit. munfold. simpl.
  by rewrite Hlive.
Qed.

Lemma sendto_inet6 this o data sz sent s :
  objs s !! this = Some (Some o) →
  udp_listener.sendto this AF_INET6 data sz sent s =
    emit (os_sendto (fd o) data sz AF_INET6 sizeof_sockaddr_in6) s
      ≫= λ r, Some (to_int sent, r.2).
Proof.
  intros Hlive. unfold udp_listener.sendto, deref, emit. munfold. simpl.
  by rewrite Hlive.
Qed.

(** C7.  A destination whose family is neither [AF_INET] nor [AF_INET6] makes
    [sendto] return -1 with the state, and so the trace of operating-system
    calls, unchanged; for an [AF_INET] or [AF_INET6] destination exactly one
    [::sendto] is issued, with the socket length of that family. *)
Theorem udp_sendto_validates_family this to_family data sz sent s :
  (to_family ≠ AF_INET → to_family ≠ AF_INET6 →
     udp_listener.sendto this to_family data sz sent s = Some ((-1)%Z, s)) ∧
  (∀ o, objs s !! this = Some (Some o) → to_family = AF_INET → ∃ s',
     udp_listener.sendto this to_family data sz sent s = Some (to_int sent, s') ∧
     trace s' = trace s ++ [os_sendto (fd o) data sz AF_INET sizeof_sockaddr_in]) ∧
  (∀ o, objs s !! this = Some (Some o) → to_family = AF_INET6 → ∃ s',
     udp_listener.sendto this to_family data sz sent s = Some (to_int sent, s') ∧
     trace s' = trace s ++ [os_sendto (fd o) data sz AF_INET6 sizeof_sockaddr_in6]).
Proof.
  split; [|split].
  - apply sendto_other_family.
  - intros o Hlive ->. rewrite (sendto_inet _ _ _ _ _ _ Hlive).
    eexists; split; reflexivity.
  - intros o Hlive ->. rewrite (sendto_inet6 _ _ _ _ _ _ Hlive).
    eexists; split; reflexivity.
Qed.

(** A loop holding one UDP socket on descriptor 3. *)
Lemma udp_sendto_validates_family_witness :
  let o := {| fd := 3; _shouldClose := false; impl := udp_listener {| tick := false |} |} in
  let s := {| objs := [Some o]; handlers := [0]; upollfd := Some [(3%Z, 0, false)];
              wsa_last_error := 0; trace := [] |} in
  udp_listener.sendto 0 AF_UNIX [x68; x69]%byte 2 2 s = Some ((-1)%Z, s) ∧
  (∃ s', udp_listener.sendto 0 AF_INET [x68; x69]%byte 2 2 s = Some (to_int 2, s') ∧
         trace s' = [os_sendto 3 [x68; x69]%byte 2 AF_INET sizeof_sockaddr_in]) ∧
  (∃ s', udp_listener.sendto 0 AF_INET6 [x68; x69]%byte 2 2 s = Some (to_int 2, s') ∧
         trace s' = [os_sendto 3 [x68; x69]%byte 2 AF_INET6 sizeof_sockaddr_in6]).
Proof.
  intros o s. split; [|split].
  - apply (proj1 (udp_sendto_validates_family 0 AF_UNIX _ _ _ s)); discriminate.
  - apply (proj1 (proj2 (udp_sendto_validates_family 0 AF_INET [x68; x69]%byte 2 2 s)) o);
      reflexivity.
  - apply (proj2 (proj2 (udp_sendto_validates_family 0 AF_INET6 [x68; x69]%byte 2 2 s)) o);
      reflexivity.
Defined.

End udp_sendto.

(** ** TCP: [tcp_conn::connect] and [llarp_win32_loop::tcp_connect] *)

Section tcp_connect.
Import ev.





Lemma new_spec e s :
  new e s = Some (length (objs s),
                  {| objs := objs s ++ [Some e]; handlers := handlers s;
                     upollfd := upollfd s; wsa_last_error := wsa_last_error s;
                     trace := trace s |}).
Proof. reflexivity. Qed.

Lemma add_ev_registers e o write ctl s :
  objs s !! e = Some (Some o) → ctl ≠ (-1)%Z →
  llarp_win32_loop.add_ev e write ctl s =
    Some (true, {| objs := objs s; handlers := handlers s ++ [e];
                   upollfd := (λ regs, regs ++ [(fd o, e, write)]) <$> upollfd s;
                   wsa_last_error := wsa_last_error s;
                   trace := trace s ++ [os_upoll_ctl_add (fd o) e write] |}).
Proof.
  intros Hlive Hctl. unfold llarp_win32_loop.add_ev, deref, emit, push_handler,
    llarp_win32_loop.set_upoll. munfold. simpl. rewrite Hlive. simpl.
  by destruct (Z.eqb_spec ctl (-1)).
Qed.




End tcp_connect.

(** ** The readiness loop has no virtual interfaces *)

Section no_tunnels.
Import ev.

Lemma no_tun_emit e : preserves no_tun (emit e).
Proof. apply preserves_modify. intros s H. exact H. Qed.

Lemma no_tun_set_last_error c : preserves no_tun (set_last_error c).
Proof. apply preserves_modify. intros s H. exact H. Qed.

Lemma no_tun_push_handler e : preserves no_tun (push_handler e).
Proof. apply preserves_modify. intros s H. exact H. Qed.

Lemma no_tun_set_upoll u : preserves no_tun (llarp_win32_loop.set_upoll u).
Proof. apply preserves_modify. intros s H. exact H. Qed.

Lemma no_tun_set_handlers h : preserves no_tun (llarp_win32_loop.set_handlers h).
Proof. apply preserves_modify. intros s H. exact H. Qed.

Lemma no_tun_new o : is_tun o = false → preserves no_tun (new o).
Proof.
  intros Ho s a s' HP [= _ <-]. intros e o'. cbn.
  intros [?|[_ ?]]%lookup_app_Some; [by eapply HP|].
  destruct (e - length (objs s)) as [|[|]]; naive_solver.
Qed.

Lemma no_tun_delete e : preserves no_tun (delete e).
Proof.
  intros s a s' HP. unfold delete. munfold.
  destruct (objs s !! e) as [[o|]|] eqn:E; [|done..].
  intros [= _ <-] e' o'. cbn.
  destruct (decide (e = e')) as [<-|Hne].
  - rewrite list_lookup_insert_eq; [done|]. by eapply lookup_lt_Some.
  - rewrite list_lookup_insert_ne; [|done]. apply HP.
Qed.

Lemma no_tun_deref e : preserves no_tun (deref e).
Proof.
  intros s a s' HP. unfold deref. munfold.
  destruct (objs s !! e) as [[o|]|]; [|done..]. by intros [= _ <-].
Qed.

Ltac no_tun_prim :=
  first [ apply no_tun_emit | apply no_tun_set_last_error | apply no_tun_push_handler
        | apply no_tun_set_upoll | apply no_tun_set_handlers | apply no_tun_delete
        | apply no_tun_deref | apply no_tun_new; reflexivity ].

Lemma no_tun_add_ev e write ctl : preserves no_tun (llarp_win32_loop.add_ev e write ctl).
Proof. unfold llarp_win32_loop.add_ev. preserves_with no_tun_prim. Qed.

Lemma no_tun_connect e result err : preserves no_tun (tcp_conn.connect e result err).
Proof. unfold tcp_conn.connect. preserves_with no_tun_prim. Qed.

Lemma no_tun_erase_handlers e hs :
  preserves no_tun (llarp_win32_loop.erase_handlers e hs).
Proof.
  induction hs as [|h hs IH]; cbn [llarp_win32_loop.erase_handlers].
  - apply preserves_ret.
  - apply preserves_bind; [|intros ?; exact IH].
    apply preserves_when, no_tun_delete.
Qed.

Lemma no_tun_do_call c s s' :
  no_tun s → llarp_win32_loop.do_call c s = Some s' → no_tun s'.
Proof.
  intros HP. destruct c; cbn [llarp_win32_loop.do_call];
    apply preserves_exec; try exact HP.
  - unfold llarp_win32_loop.init. preserves_with no_tun_prim.
  - unfold llarp_win32_loop.tcp_connect.
    preserves_with ltac:(first [no_tun_prim | apply no_tun_add_ev | apply no_tun_connect]).
  - unfold llarp_win32_loop.bind_tcp. preserves_with no_tun_prim.
  - unfold llarp_win32_loop.udp_listen, llarp_win32_loop.create_udp,
      llarp_win32_loop.udp_bind.
    preserves_with ltac:(first [no_tun_prim | apply no_tun_add_ev]).
  - unfold llarp_win32_loop.create_tun. preserves_with no_tun_prim.
  - apply no_tun_add_ev.
  - unfold llarp_win32_loop.close_ev. preserves_with no_tun_prim.
  - unfold llarp_win32_loop.udp_close, llarp_win32_loop.close_ev.
    preserves_with ltac:(first [no_tun_prim | apply no_tun_erase_handlers]).
  - unfold udp_listener.sendto. preserves_with no_tun_prim.
  - unfold llarp_win32_loop.tcp_serv_read.
    preserves_with ltac:(first [no_tun_prim | apply no_tun_add_ev]).
  - unfold tcp_conn.flush_write. preserves_with no_tun_prim.
Qed.

Lemma no_tun_steps s s' : llarp_win32_loop.steps s s' → no_tun s → no_tun s'.
Proof.
  induction 1 as [|s c s' s'' _ IH Hc]; [done|].
  intros HP. eapply no_tun_do_call; [|exact Hc]. by apply IH.
Qed.

(** C10.  [create_tun] returns the null pointer for every input and leaves the
    loop as it was; in every state the loop reaches through its operations no
    live endpoint is a virtual interface, so none is owned by [handlers] or
    present in the poll set that [tick] dispatches from. *)
Theorem create_tun_returns_nullptr :
  (∀ tio s, llarp_win32_loop.create_tun tio s = Some (None, s)) ∧
  (∀ s, llarp_win32_loop.reachable s →
     ∀ e o, objs s !! e = Some (Some o) → is_tun o = false).
Proof.
  split; [done|]. intros s Hs. eapply no_tun_steps; [exact Hs|].
  intros e o. cbn. by rewrite lookup_nil.
Qed.

Lemma loop_after_refusal_reachable : llarp_win32_loop.reachable loop_after_refusal.
Proof.
  apply llarp_win32_loop.steps_step with
    (c := llarp_win32_loop.call_tcp_connect (Some {| connected := true; error := true |})
            AF_INET 4 0 (-1) WSAECONNREFUSED) (s' := started_loop); [|reflexivity].
  apply llarp_win32_loop.steps_step with
    (c := llarp_win32_loop.call_init true) (s' := llarp_win32_loop.init_loop);
    [apply llarp_win32_loop.steps_refl|reflexivity].
Qed.

(** A loop after [init] and one refused [tcp_connect]: its only endpoint is a
    TCP connection. *)
Lemma create_tun_returns_nullptr_witness :
  llarp_win32_loop.create_tun {| recvpkt := true; before_write := false |} started_loop
    = Some (None, started_loop) ∧
  is_tun {| fd := 4; _shouldClose := false;
            impl := tcp_conn AF_INET (Some {| connected := true; error := true |}) |} = false.
Proof.
  split; [apply (proj1 create_tun_returns_nullptr)|].
  exact (proj2 create_tun_returns_nullptr loop_after_refusal
           loop_after_refusal_reachable 0 _ eq_refl).
Defined.

End no_tunnels.

(** ** The TUN endpoint: [win32_tun_io] *)

Section win32_tun_io.
Context `{!EvSizes, !CoDel}.
Import tun.

Lemma deref_live this o s : objs s !! this = Some (Some o) → deref this s = Some (o, s).
Proof. intros Hlive. unfold deref. munfold. by rewrite Hlive. Qed.

Lemma set_tun_fd_spec this o fd s :
  objs s !! this = Some (Some o) →
  set_tun_fd this fd s =
    Some (tt, set_objs (<[this := Some {| t := t o; tunif := {| tun_fd := fd |};
                                          m_LossyWriteQueue := m_LossyWriteQueue o |}]>
                          (objs s)) s).
Proof.
  intros Hlive. unfold set_tun_fd, store. unfold mbind, M_bind.
  by rewrite (deref_live _ _ _ Hlive).
Qed.

Lemma lookup_stored this (o o' : option win32_tun_io) (l : list (option win32_tun_io)) :
  l !! this = Some o → <[this := o']> l !! this = Some o'.
Proof. intros Hl. apply list_lookup_insert_eq. by eapply lookup_lt_Some. Qed.

(** C9.  [setup] calls [tuntap_start], [tuntap_set_ip] and [tuntap_up] in that
    order and stops at the first that returns -1, returning false; it makes
    no other call, so nothing undoes the steps already performed and the
    device keeps the descriptor the last performed step left; it returns true
    exactly when all three succeeded and the descriptor is not
    [INVALID_HANDLE_VALUE]. *)
Theorem setup_is_fail_fast this o start set_ip up s :
  objs s !! this = Some (Some o) →
  ∃ b s', setup this start set_ip up s = Some (b, s') ∧
    let performed : list (event * (Z * HANDLE)) :=
      if (start.1 =? -1)%Z then [(tuntap_start this, start)]
      else if (set_ip.1 =? -1)%Z then
        [(tuntap_start this, start); (tuntap_set_ip this, set_ip)]
      else [(tuntap_start this, start); (tuntap_set_ip this, set_ip);
            (tuntap_up this, up)] in
    logged s s' performed.*1 ∧
    fd_of this s' = snd <$> last performed.*2 ∧
    (b = true ↔ start.1 ≠ (-1)%Z ∧ set_ip.1 ≠ (-1)%Z ∧ up.1 ≠ (-1)%Z ∧
                up.2 ≠ INVALID_HANDLE_VALUE).
Proof.
  intros Hlive. unfold setup, emit. unfold mbind, M_bind, modify. cbn.
  erewrite set_tun_fd_spec by exact Hlive. cbn.
  destruct (Z.eqb_spec start.1 (-1)) as [E1|E1].
  { do 2 eexists. split; [reflexivity|]. unfold logged, fd_of. cbn.
    erewrite lookup_stored by exact Hlive. split_and!; [done..|]. intuition congruence. }
  erewrite set_tun_fd_spec by (cbn; by eapply lookup_stored). cbn.
  rewrite list_insert_insert_eq.
  destruct (Z.eqb_spec set_ip.1 (-1)) as [E2|E2].
  { do 2 eexists. split; [reflexivity|]. unfold logged, fd_of. cbn.
    erewrite lookup_stored by exact Hlive. rewrite <- app_assoc.
    split_and!; [done..|]. intuition congruence. }
  erewrite set_tun_fd_spec by (cbn; by eapply lookup_stored). cbn.
  rewrite list_insert_insert_eq.
  destruct (Z.eqb_spec up.1 (-1)) as [E3|E3].
  { do 2 eexists. split; [reflexivity|]. unfold logged, fd_of. cbn.
    erewrite lookup_stored by exact Hlive. rewrite <- !app_assoc.
    split_and!; [done..|]. intuition congruence. }
  erewrite deref_live by (cbn; by eapply lookup_stored). cbn.
  case_bool_decide as E4.
  - do 2 eexists. split; [reflexivity|]. unfold logged, fd_of. cbn.
    erewrite lookup_stored by exact Hlive. rewrite <- !app_assoc.
    split_and!; [done..|]. intuition congruence.
  - do 2 eexists. split; [reflexivity|]. unfold logged, fd_of. cbn.
    erewrite lookup_stored by exact Hlive. rewrite <- !app_assoc.
    split_and!; [done..|]. intuition congruence.
Qed.

Lemma read_spec this o buf sz s :
  objs s !! this = Some (Some o) →
  read this buf sz s =
    Some (tt, issued this {| write := false; sz := sz; buf := buf |}
                (ReadFile (tun_fd (tunif o)) buf sz) s).
Proof.
  intros Hlive. unfold read. unfold mbind at 1, M_bind at 1.
  by rewrite (deref_live _ _ _ Hlive).
Qed.

Lemma do_write_spec this o data sz s :
  objs s !! this = Some (Some o) →
  do_write this data sz s =
    Some (tt, issued this {| write := true; sz := sz; buf := entry_buf data |}
                (WriteFile (tun_fd (tunif o)) data sz) s).
Proof.
  intros Hlive. unfold do_write. unfold mbind at 1, M_bind at 1.
  by rewrite (deref_live _ _ _ Hlive).
Qed.

Lemma for_each_do_write_spec this o bs s :
  objs s !! this = Some (Some o) →
  for_each (λ b, do_write this (wbuf b) (bufsz b)) bs s =
    Some (tt, issued_writes this (tun_fd (tunif o)) bs s).
Proof.
  revert s. induction bs as [|b bs IH]; intros s Hlive; [done|].
  cbn [for_each]. unfold mbind, M_bind.
  rewrite (do_write_spec _ _ _ _ _ Hlive). by rewrite IH.
Qed.

Lemma issued_writes_cons this fd b bs s :
  issued_writes this fd (b :: bs) s =
    issued_writes this fd bs
      (issued this {| write := true; sz := bufsz b; buf := entry_buf (wbuf b) |}
         (WriteFile fd (wbuf b) (bufsz b)) s).
Proof. reflexivity. Qed.

(** The fields a sequence of writes leaves alone, and what it adds. *)
Lemma issued_writes_frame this fd bs s :
  let s' := issued_writes this fd bs s in
  tun_listeners s' = tun_listeners s ∧ tun_event_queue s' = tun_event_queue s ∧
  threads s' = threads s ∧ objs s' = objs s ∧ port s' = port s ∧
  clock s' = clock s ∧ pc s' = pc s ∧ cur s' = cur s.
Proof.
  revert s. induction bs as [|b bs IH]; intros s; [done|].
  rewrite issued_writes_cons. exact (IH _).
Qed.

Lemma issued_writes_pkts this fd bs s :
  pkts (issued_writes this fd bs s) =
    pkts s ++ ((λ b, Some {| write := true; sz := bufsz b; buf := entry_buf (wbuf b) |})
               <$> bs).
Proof.
  revert s. induction bs as [|b bs IH]; intros s.
  - cbn. by rewrite app_nil_r.
  - rewrite issued_writes_cons, IH. cbn. by rewrite <- app_assoc.
Qed.

Lemma issued_writes_trace this fd bs s :
  trace (issued_writes this fd bs s) =
    trace s ++ imap (λ i b, (cur s, WriteFile fd (wbuf b) (bufsz b) (length (pkts s) + i)))
                 bs.
Proof.
  revert s. induction bs as [|b bs IH]; intros s.
  - cbn. by rewrite app_nil_r.
  - rewrite issued_writes_cons, IH. cbn. rewrite <- app_assoc. cbn.
    rewrite Nat.add_0_r. do 2 f_equal. apply imap_ext. intros i x _. cbn.
    rewrite length_app. cbn. do 2 f_equal. lia.
Qed.

Lemma issued_writes_pending this fd bs s :
  pending (issued_writes this fd bs s) =
    pending s ++ imap (λ i _, (this, length (pkts s) + i)) bs.
Proof.
  revert s. induction bs as [|b bs IH]; intros s.
  - cbn. by rewrite app_nil_r.
  - rewrite issued_writes_cons, IH. cbn. rewrite <- app_assoc. cbn.
    rewrite Nat.add_0_r. do 2 f_equal. apply imap_ext. intros i x _. cbn.
    rewrite length_app. cbn. f_equal. lia.
Qed.

Lemma flush_write_spec this o q s :
  objs s !! this = Some (Some o) → m_LossyWriteQueue o = Some q →
  flush_write this s =
    Some (tt, issued_writes this (tun_fd (tunif o)) (Process (clock s) q).1
                (flushing this o q s)).
Proof.
  intros Hlive Hq. unfold flush_write. unfold mbind at 1, M_bind at 1.
  rewrite (deref_live _ _ _ Hlive). rewrite Hq. unfold flushing, emit, store.
  set (o' := {| t := t o; tunif := tunif o;
                m_LossyWriteQueue := Some (Process (clock s) q).2 |}).
  munfold. destruct (ev.before_write (t o)); cbn.
  - rewrite (for_each_do_write_spec this o'); [done|]. cbn.
    by eapply lookup_stored.
  - rewrite (for_each_do_write_spec this o'); [done|]. cbn.
    by eapply lookup_stored.
Qed.



Lemma queue_write_spec this o q buf sz s :
  objs s !! this = Some (Some o) → m_LossyWriteQueue o = Some q →
  let q1 := Emplace (clock s) buf sz q in
  let o1 := {| t := t o; tunif := tunif o; m_LossyWriteQueue := Some q1 |} in
  queue_write this buf sz s =
    Some (true, issued_writes this (tun_fd (tunif o)) (Process (clock s) q1).1
                  (flushing this o1 q1 (set_objs (<[this := Some o1]> (objs s)) s))).
Proof.
  intros Hlive Hq q1 o1. unfold queue_write. unfold mbind at 1, M_bind at 1.
  rewrite (deref_live _ _ _ Hlive), Hq. unfold store. munfold. cbn.
  rewrite (flush_write_spec this o1 q1); [done| |done]. cbn.
  by eapply lookup_stored.
Qed.


Lemma for_each_emit_spec {A} (f : A → event) l s :
  for_each (λ x, emit (f x)) l s =
    Some (tt, set_trace (trace s ++ ((λ x, (cur s, f x)) <$> l)) s).
Proof.
  revert s. induction l as [|x l IH]; intros s; cbn.
  - rewrite app_nil_r. by destruct s.
  - unfold mbind, M_bind, emit, modify. rewrite IH. cbn. by rewrite <- app_assoc.
Qed.

Lemma begin_tun_loop_spec n s :
  (0 ≤ n)%Z → begin_tun_loop n s = Some (tt, spawned (Z.to_nat n) s).
Proof.
  intros Hn. unfold begin_tun_loop. destruct (Z.ltb_spec n 0); [lia|].
  unfold mbind, M_bind, modify. by rewrite for_each_emit_spec.
Qed.

Lemma thread_count numCPU :
  (0 ≤ numCPU < 2 ^ 30)%Z → to_int (wrap 32 (numCPU * 2)) = (2 * numCPU)%Z.
Proof.
  intros Hn. unfold to_int, to_signed, wrap.
  rewrite Z.mod_mod by lia. rewrite Z.mod_small by lia.
  destruct (Z.ltb_spec (numCPU * 2) (2 ^ (32 - 1))); lia.
Qed.

Lemma add_ev_first_spec this o numCPU created s :
  objs s !! this = Some (Some o) → tun_event_queue s = INVALID_HANDLE_VALUE →
  (0 ≤ numCPU < 2 ^ 30)%Z →
  add_ev this numCPU created s =
    Some (true,
      issued this (standing_read this 4096)
        (ReadFile (tun_fd (tunif o)) (readbuf this) 4096)
        (set_tun_listeners (tun_listeners s ++ [this])
           (spawned (Z.to_nat (2 * numCPU))
              (set_tun_event_queue (from_option Handle NULL created)
                 (set_trace (trace s ++ [(cur s, CreateIoCompletionPort (tun_fd (tunif o))
                                                   NULL (ptr this) (2 * numCPU))]) s))))).
Proof.
  intros Hlive Hq Hn. unfold add_ev. unfold mbind at 1, M_bind at 1.
  rewrite (deref_live _ _ _ Hlive). unfold mbind at 1, M_bind at 1. cbn [get].
  rewrite bool_decide_eq_true_2 by done.
  rewrite (thread_count _ Hn).
  replace (wrap 32 (numCPU * 2)) with (2 * numCPU)%Z
    by (unfold wrap; rewrite Z.mod_small; lia).
  unfold emit. munfold. rewrite begin_tun_loop_spec by lia. cbn.
  by rewrite (read_spec _ o).
Qed.

Lemma add_ev_subsequent_spec this o numCPU created s :
  objs s !! this = Some (Some o) → tun_event_queue s ≠ INVALID_HANDLE_VALUE →
  add_ev this numCPU created s =
    Some (true,
      issued this (standing_read this 4096)
        (ReadFile (tun_fd (tunif o)) (readbuf this) 4096)
        (set_tun_listeners (tun_listeners s ++ [this])
           (set_trace (trace s ++ [(cur s, CreateIoCompletionPort (tun_fd (tunif o))
                                             (tun_event_queue s) (ptr this) 0)]) s))).
Proof.
  intros Hlive Hq. unfold add_ev. unfold mbind at 1, M_bind at 1.
  rewrite (deref_live _ _ _ Hlive). unfold mbind at 1, M_bind at 1. cbn [get].
  rewrite bool_decide_eq_false_2 by done.
  unfold emit. munfold. cbn. by rewrite (read_spec _ o).
Qed.

Lemma delete_spec p r s :
  pkts s !! p = Some (Some r) → delete_asio_evt_pkt p s = Some (tt, released p s).
Proof.
  intros Hp. unfold delete_asio_evt_pkt, deref_pkt, emit. munfold. by rewrite Hp.
Qed.

Lemma issued_pkts this p e s : pkts (issued this p e s) = pkts s ++ [Some p].
Proof. reflexivity. Qed.

Lemma issued_trace this p e s :
  trace (issued this p e s) = trace s ++ [(cur s, e (length (pkts s)))].
Proof. reflexivity. Qed.

Lemma issued_cur this p e s : cur (issued this p e s) = cur s.
Proof. reflexivity. Qed.

Lemma issued_writes_cur this fd bs s : cur (issued_writes this fd bs s) = cur s.
Proof. apply issued_writes_frame. Qed.

Lemma received_frame this n o s :
  let s' := received this n o s in
  objs s' = objs s ∧ pkts s' = pkts s ∧ clock s' = clock s ∧ cur s' = cur s ∧
  pending s' = pending s.
Proof. unfold received. by destruct (ev.recvpkt (t o)). Qed.

Lemma drain_then_read_then_delete ev p rec o q s :
  pkts s !! p = Some (Some rec) →
  objs s !! ev = Some (Some o) → m_LossyWriteQueue o = Some q →
  ((flush_write ev;; read ev (readbuf ev) EV_READ_BUF_SZ) ≫=
     λ _, delete_asio_evt_pkt p;; mret Continue) s =
    Some (Continue,
      released p
        (issued ev (standing_read ev EV_READ_BUF_SZ)
           (ReadFile (tun_fd (tunif o)) (readbuf ev) EV_READ_BUF_SZ)
           (issued_writes ev (tun_fd (tunif o)) (Process (clock s) q).1
              (flushing ev o q s)))).
Proof.
  intros Hp Hlive Hq. unfold mbind, M_bind.
  rewrite (flush_write_spec ev o q s) by done.
  set (s1 := flushing ev o q s).
  set (o' := {| t := t o; tunif := tunif o;
                m_LossyWriteQueue := Some (Process (clock s) q).2 |}).
  pose proof (issued_writes_frame ev (tun_fd (tunif o)) (Process (clock s) q).1 s1)
    as (_ & _ & _ & Hobjs & _).
  rewrite (read_spec ev o').
  2:{ rewrite Hobjs. subst s1. unfold flushing. cbn. by eapply lookup_stored. }
  erewrite delete_spec; [done|].
  rewrite issued_pkts, issued_writes_pkts, <- app_assoc.
  apply lookup_app_l_Some. subst s1. unfold flushing.
  by destruct (ev.before_write (t o)).
Qed.

Lemma body_read_spec r ev p rec o q s :
  alert r = true → listener r = ptr ev → ovl r = Some p →
  pkts s !! p = Some (Some rec) → write rec = false →
  objs s !! ev = Some (Some o) → m_LossyWriteQueue o = Some q →
  tun_ev_loop_body r s =
    Some (Continue,
      released p
        (issued ev (standing_read ev EV_READ_BUF_SZ)
           (ReadFile (tun_fd (tunif o)) (readbuf ev) EV_READ_BUF_SZ)
           (issued_writes ev (tun_fd (tunif o)) (Process (clock s) q).1
              (flushing ev o q (received ev (size r) o s))))).
Proof.
  intros Ha Hl Hovl Hp Hw Hlive Hq. unfold tun_ev_loop_body.
  rewrite Ha, Hl, Hovl. cbn [negb]. unfold mbind at 1, M_bind at 1.
  unfold deref_pkt at 1. munfold. rewrite Hp. rewrite (deref_live _ _ _ Hlive).
  rewrite Hw. cbn [negb]. unfold received.
  destruct (ev.recvpkt (t o)).
  - exact (drain_then_read_then_delete ev p rec o q
             (set_trace (trace s ++ [(cur s, cb_recvpkt ev (size r))]) s) Hp Hlive Hq).
  - exact (drain_then_read_then_delete ev p rec o q s Hp Hlive Hq).
Qed.

Lemma body_write_spec r ev p rec o s :
  alert r = true → listener r = ptr ev → ovl r = Some p →
  pkts s !! p = Some (Some rec) → write rec = true →
  objs s !! ev = Some (Some o) →
  tun_ev_loop_body r s =
    Some (Continue,
      released p
        (issued ev (standing_read ev EV_READ_BUF_SZ)
           (ReadFile (tun_fd (tunif o)) (readbuf ev) EV_READ_BUF_SZ) s)).
Proof.
  intros Ha Hl Hovl Hp Hw Hlive. unfold tun_ev_loop_body.
  rewrite Ha, Hl, Hovl. cbn [negb]. unfold mbind at 1, M_bind at 1.
  unfold deref_pkt at 1. munfold. rewrite Hp. rewrite (deref_live _ _ _ Hlive).
  rewrite Hw. cbn [negb]. rewrite (read_spec ev o) by done.
  erewrite delete_spec; [done|]. rewrite issued_pkts. by apply lookup_app_l_Some.
Qed.

Lemma reads_issued_logged s s' evs :
  trace s' = trace s ++ evs →
  reads_issued s' = reads_issued s + length (filter is_ReadFile evs).
Proof. intros Htr. unfold reads_issued. by rewrite Htr, filter_app, length_app. Qed.

Lemma writes_issued_logged s s' evs :
  trace s' = trace s ++ evs →
  writes_issued s' = writes_issued s + length (filter is_WriteFile evs).
Proof. intros Htr. unfold writes_issued. by rewrite Htr, filter_app, length_app. Qed.

Lemma no_reads_among_writes c fd n (bs : list WriteBuffer_t) :
  filter is_ReadFile (imap (λ i b, (c, WriteFile fd (wbuf b) (bufsz b) (n + i))) bs) = [].
Proof.
  revert n. induction bs as [|b bs IH]; intros n; [done|].
  rewrite imap_cons. rewrite filter_cons_False by (cbn; tauto).
  rewrite <- (IH (S n)). f_equal. apply imap_ext. intros i x _. cbn.
  do 2 f_equal. lia.
Qed.

Lemma all_writes_among_writes c fd n (bs : list WriteBuffer_t) :
  length (filter is_WriteFile
            (imap (λ i b, (c, WriteFile fd (wbuf b) (bufsz b) (n + i))) bs)) = length bs.
Proof.
  revert n. induction bs as [|b bs IH]; intros n; [done|].
  rewrite imap_cons. rewrite filter_cons_True by (cbn; tauto). cbn.
  rewrite <- (IH (S n)). do 3 f_equal. apply imap_ext. intros i x _. cbn.
  do 2 f_equal. lia.
Qed.

(** The trace after the completion of a read has been handled. *)
Lemma body_read_trace p ev o q sz0 s :
  trace (released p
           (issued ev (standing_read ev EV_READ_BUF_SZ)
              (ReadFile (tun_fd (tunif o)) (readbuf ev) EV_READ_BUF_SZ)
              (issued_writes ev (tun_fd (tunif o)) (Process (clock s) q).1
                 (flushing ev o q (received ev sz0 o s))))) =
  trace s ++
    (if ev.recvpkt (t o) then [(cur s, cb_recvpkt ev sz0)] else []) ++
    (if ev.before_write (t o) then [(cur s, cb_before_write ev)] else []) ++
    imap (λ i b, (cur s, WriteFile (tun_fd (tunif o)) (wbuf b) (bufsz b)
                                   (length (pkts s) + i))) (Process (clock s) q).1 ++
    [(cur s, ReadFile (tun_fd (tunif o)) (readbuf ev) EV_READ_BUF_SZ
                      (length (pkts s) + length (Process (clock s) q).1));
     (cur s, delete_pkt p)].
Proof.
  unfold released. cbn [trace set_pkts set_trace].
  rewrite issued_trace, !issued_cur, !issued_writes_cur, issued_writes_trace,
    issued_writes_pkts, length_app, length_fmap.
  unfold flushing, received.
  destruct (ev.recvpkt (t o)), (ev.before_write (t o)); cbn;
    rewrite <- ?app_assoc; cbn; done.
Qed.

Lemma preserves_for_each {A} (P : process → Prop) (f : A → M process unit) l :
  (∀ x, preserves P (f x)) → preserves P (for_each f l).
Proof.
  intros Hf. induction l as [|x l IH]; cbn.
  - apply preserves_ret.
  - apply preserves_bind; [apply Hf|]. intros _. exact IH.
Qed.

End win32_tun_io.

(** [frame side] proves that an operation of the TUN path other than
    [add_ev] keeps a property, [side] showing that the property does not
    depend on the fields the operation's primitives update. *)
Ltac tun_ops :=
  unfold tun.queue_write, tun.setup, tun.set_tun_fd, tun.flush_write, tun.read,
    tun.do_write, tun.new_win32_tun_io, tun.tun_ev_loop_body, tun.delete_asio_evt_pkt,
    tun.exit_tun_loop_post, tun.exit_tun_loop_finish, tun.destroy, tun.new_pkt,
    tun.deref_pkt, tun.deref, tun.store, tun.submit, tun.emit.

Ltac frame side :=
  tun_ops;
  preserves_with ltac:(first [ apply preserves_for_each; intros ?
                             | apply preserves_modify; side ]).

(** Evaluates a filter over an explicit list of events. *)
Ltac count_events :=
  repeat first [ rewrite filter_cons_True by (cbn; tauto)
               | rewrite filter_cons_False by (cbn; tauto) ];
  rewrite ?filter_nil; cbn [length].

Section thread_pool.
Context `{!EvSizes, !CoDel}.
Import tun.

Ltac pool_side := intros ? [? ?]; split; cbn; assumption.

Lemma pool_is_body h n r : preserves (pool_is h n) (tun_ev_loop_body r).
Proof. frame pool_side. Qed.

Lemma pool_is_do_action h n a s s' :
  h ≠ INVALID_HANDLE_VALUE →
  pool_is h n s → do_action a s = Some s' → pool_is h n s'.
Proof.
  intros Hh HP. assert (HPm : pool_is h n (set_cur main s)) by exact HP.
  destruct a; cbn [do_action]; unfold by_main.
  - destruct (pc s); [|done..]. apply preserves_exec; [|exact HPm]. frame pool_side.
  - destruct (pc s); [|done..]. apply preserves_exec; [|exact HPm]. frame pool_side.
  - destruct (pc s); [|done..]. unfold exec.
    destruct (objs s !! ev) as [[o|]|] eqn:Hlive.
    + rewrite (add_ev_subsequent_spec ev o) by (destruct HP; cbn; congruence).
      intros [= <-]. exact HP.
    + unfold add_ev, deref. munfold. cbn. by rewrite Hlive.
    + unfold add_ev, deref. munfold. cbn. by rewrite Hlive.
  - destruct (pc s); [|done..]. apply preserves_exec; [|exact HPm]. frame pool_side.
  - destruct (0 <=? dt)%Z; [|done]. intros [= <-]. exact HP.
  - destruct (pending s !! k) as [[e p]|]; [|done]. intros [= <-].
    destruct (port_open s); exact HP.
  - destruct (threads s !! tid) as [[]|]; [|done..].
    destruct (port s); intros [= <-]; destruct HP as [? Hn];
      split; cbn; [done| |done|]; by rewrite length_insert.
  - destruct (threads s !! tid) as [[|r|]|]; [done| |done..].
    destruct (tun_ev_loop_body r (set_cur (worker tid) s)) as [[c s1]|] eqn:Hrun; [|done].
    assert (HP1 : pool_is h n s1) by (eapply pool_is_body; [|exact Hrun]; exact HP).
    destruct HP1 as [? Hn].
    destruct c; intros [= <-]; split; cbn; try done; by rewrite length_insert.
  - destruct (pc s); [|done..]. unfold exec.
    destruct (exit_tun_loop_post i (set_cur main s)) as [[u s1]|] eqn:Hrun; [|done].
    intros [= <-]. assert (HP1 : pool_is h n s1); [|exact HP1].
    eapply (preserves_exec (pool_is h n) (exit_tun_loop_post i)); [|exact HPm|].
    + frame pool_side.
    + unfold exec. by rewrite Hrun.
  - destruct (pc s) as [|i|]; [done| |done].
    destruct (wait_satisfied i (threads s)); [|done]. unfold exec.
    destruct (exit_tun_loop_finish i (set_cur main s)) as [[u s1]|] eqn:Hrun; [|done].
    intros [= <-]. assert (HP1 : pool_is h n s1); [|exact HP1].
    eapply (preserves_exec (pool_is h n) (exit_tun_loop_finish i)); [|exact HPm|].
    + frame pool_side.
    + unfold exec. by rewrite Hrun.
Qed.

Lemma pool_is_steps h n s s' :
  h ≠ INVALID_HANDLE_VALUE → steps s s' → pool_is h n s → pool_is h n s'.
Proof.
  intros Hh. induction 1 as [|s a s' s'' _ IH Ha]; [done|].
  intros HP. eapply pool_is_do_action; [done| |exact Ha]. by apply IH.
Qed.

(** C4.  The first registration, made while [tun_event_queue] is still
    [INVALID_HANDLE_VALUE], creates the port and starts twice as many threads
    as there are processors (a count below 2^30, which the doubled count needs
    to fit an [int]); a later registration associates the descriptor with the
    existing port and starts no thread; and once the port variable is set,
    nothing the process does changes it or the size of the pool. *)
Theorem add_ev_starts_pool_once :
  (∀ this o numCPU created s,
     objs s !! this = Some (Some o) → tun_event_queue s = INVALID_HANDLE_VALUE →
     (0 ≤ numCPU < 2 ^ 30)%Z →
     ∃ s', add_ev this numCPU created s = Some (true, s') ∧
       tun_event_queue s' = from_option Handle NULL created ∧
       threads s' = replicate (Z.to_nat (2 * numCPU)) waiting ∧
       logged s s' ([CreateIoCompletionPort (tun_fd (tunif o)) NULL (ptr this)
                                            (2 * numCPU)] ++
                    (CreateThread <$> seq 0 (Z.to_nat (2 * numCPU))) ++
                    [ReadFile (tun_fd (tunif o)) (readbuf this) 4096 (length (pkts s))])) ∧
  (∀ this o numCPU created s,
     objs s !! this = Some (Some o) → tun_event_queue s ≠ INVALID_HANDLE_VALUE →
     ∃ s', add_ev this numCPU created s = Some (true, s') ∧
       tun_event_queue s' = tun_event_queue s ∧
       threads s' = threads s ∧
       logged s s' [CreateIoCompletionPort (tun_fd (tunif o)) (tun_event_queue s)
                                           (ptr this) 0;
                    ReadFile (tun_fd (tunif o)) (readbuf this) 4096 (length (pkts s))]) ∧
  (∀ s s',
     tun_event_queue s ≠ INVALID_HANDLE_VALUE → steps s s' →
     tun_event_queue s' = tun_event_queue s ∧
     length (threads s') = length (threads s)).
Proof.
  split_and!.
  - intros this o numCPU created s Hlive Hq Hn. eexists.
    split; [by apply add_ev_first_spec|]. split_and!; [done..|].
    unfold logged. cbn. rewrite <- !app_assoc, !fmap_app, <- list_fmap_compose. done.
  - intros this o numCPU created s Hlive Hq. eexists.
    split; [by apply add_ev_subsequent_spec|]. split_and!; [done..|].
    unfold logged. cbn. by rewrite <- app_assoc.
  - intros s s' Hq Hsteps.
    by apply (pool_is_steps (tun_event_queue s) (length (threads s)) s s').
Qed.

(** C3, amended.  A registration issues exactly one read.  Handling a read
    completion dequeued with a TRUE result drains the write queue, issuing
    one write for each entry the queue hands over, and then issues exactly
    one read.  Handling a write completion dequeued with a TRUE result issues
    exactly one read as well, whatever is already pending: every request
    pending before is still pending after, and one more read is pending. *)
Theorem completions_issue_one_read :
  (∀ this o numCPU created s,
     objs s !! this = Some (Some o) → (0 ≤ numCPU < 2 ^ 30)%Z →
     ∃ s', add_ev this numCPU created s = Some (true, s') ∧
       reads_issued s' = S (reads_issued s) ∧
       pkts s' = pkts s ++ [Some (standing_read this 4096)] ∧
       pending s' = pending s ++ [(this, length (pkts s))]) ∧
  (∀ r ev p rec o q s,
     alert r = true → listener r = ptr ev → ovl r = Some p →
     pkts s !! p = Some (Some rec) → write rec = false →
     objs s !! ev = Some (Some o) → m_LossyWriteQueue o = Some q →
     ∃ s', tun_ev_loop_body r s = Some (Continue, s') ∧
       let handed := (Process (clock s) q).1 in
       reads_issued s' = S (reads_issued s) ∧
       writes_issued s' = writes_issued s + length handed ∧
       queue_of ev s' = Some (Process (clock s) q).2 ∧
       pending s' = pending s ++ imap (λ i _, (ev, length (pkts s) + i)) handed
                      ++ [(ev, length (pkts s) + length handed)] ∧
       pkts s' !! (length (pkts s) + length handed)
         = Some (Some (standing_read ev EV_READ_BUF_SZ))) ∧
  (∀ r ev p rec o s,
     alert r = true → listener r = ptr ev → ovl r = Some p →
     pkts s !! p = Some (Some rec) → write rec = true →
     objs s !! ev = Some (Some o) →
     ∃ s', tun_ev_loop_body r s = Some (Continue, s') ∧
       reads_issued s' = S (reads_issued s) ∧
       writes_issued s' = writes_issued s ∧
       objs s' = objs s ∧
       pending s' = pending s ++ [(ev, length (pkts s))] ∧
       pkts s' !! length (pkts s) = Some (Some (standing_read ev EV_READ_BUF_SZ))).
Proof.
  split_and!.
  - intros this o numCPU created s Hlive Hn.
    destruct (decide (tun_event_queue s = INVALID_HANDLE_VALUE)) as [Hq|Hq].
    + eexists. split; [by apply add_ev_first_spec|]. split_and!; [|done..].
      erewrite reads_issued_logged
        with (evs := [_] ++ ((λ i, (cur s, CreateThread i)) <$> seq 0 _) ++ [_]).
      2:{ cbn. rewrite <- !app_assoc. reflexivity. }
      rewrite !filter_app, !length_app.
      replace (filter is_ReadFile ((λ i, (cur s, CreateThread i)) <$> seq 0 _))
        with (@nil (thread * event)); [count_events; lia|].
      generalize (seq 0 (Z.to_nat (2 * numCPU))). intros l. symmetry.
      induction l as [|x l IH]; [done|].
      rewrite fmap_cons, filter_cons_False by (cbn; tauto). exact IH.
    + eexists. split; [by apply add_ev_subsequent_spec|]. split_and!; [|done..].
      erewrite reads_issued_logged with (evs := [_; _]).
      2:{ cbn. rewrite <- !app_assoc. reflexivity. }
      count_events. lia.
  - intros r ev p rec o q s Ha Hl Hovl Hp Hw Hlive Hq. eexists.
    split; [by eapply body_read_spec|]. cbn zeta.
    pose proof (body_read_trace p ev o q (size r) s) as Htr.
    split_and!.
    + rewrite (reads_issued_logged _ _ _ Htr).
      rewrite !filter_app, !length_app, no_reads_among_writes.
      destruct (ev.recvpkt (t o)), (ev.before_write (t o)); count_events; lia.
    + rewrite (writes_issued_logged _ _ _ Htr).
      rewrite !filter_app, !length_app, all_writes_among_writes.
      destruct (ev.recvpkt (t o)), (ev.before_write (t o)); count_events; lia.
    + unfold queue_of, released. cbn [objs set_pkts set_trace issued set_pending].
      pose proof (issued_writes_frame ev (tun_fd (tunif o)) (Process (clock s) q).1
                    (flushing ev o q (received ev (size r) o s)))
        as (_ & _ & _ & Hobjs & _).
      pose proof (received_frame ev (size r) o s) as (Hobjs0 & _ & Hclock0 & _).
      rewrite Hobjs. unfold flushing. cbn. rewrite Hobjs0, Hclock0.
      by erewrite lookup_stored by exact Hlive.
    + unfold released. cbn [pending set_pkts set_trace issued set_pending].
      rewrite issued_writes_pending, issued_writes_pkts, length_app, length_fmap.
      unfold flushing, received. rewrite <- app_assoc.
      by destruct (ev.recvpkt (t o)), (ev.before_write (t o)).
    + unfold released. cbn [pkts set_pkts set_trace].
      rewrite issued_pkts, issued_writes_pkts.
      assert (Hlen : length (pkts (flushing ev o q (received ev (size r) o s)))
                     = length (pkts s)).
      { unfold flushing, received.
        by destruct (ev.recvpkt (t o)), (ev.before_write (t o)). }
      rewrite list_lookup_insert_ne.
      2:{ apply lookup_lt_Some in Hp. lia. }
      rewrite lookup_app_r; rewrite length_app, length_fmap, Hlen; [|lia].
      by rewrite Nat.sub_diag.
  - intros r ev p rec o s Ha Hl Hovl Hp Hw Hlive. eexists.
    split; [by eapply body_write_spec|]. split_and!; [| |done..|].
    + erewrite reads_issued_logged with (evs := [_; _]).
      2:{ unfold released. cbn. rewrite <- !app_assoc. reflexivity. }
      count_events. lia.
    + erewrite writes_issued_logged with (evs := [_; _]).
      2:{ unfold released. cbn. rewrite <- !app_assoc. reflexivity. }
      count_events. lia.
    + unfold released. cbn [pkts set_pkts set_trace]. rewrite issued_pkts.
      rewrite list_lookup_insert_ne.
      2:{ apply lookup_lt_Some in Hp. lia. }
      by rewrite list_lookup_middle.
Qed.

End thread_pool.

(** ** Shutdown: [exit_tun_loop] *)

Section shutdown.
Context `{!EvSizes, !CoDel}.
Import tun.

Lemma filter_insert_count {A} (P : A → bool) (l : list A) i x y :
  l !! i = Some x →
  length (filter P (<[i := y]> l)) + (if P x then 1 else 0)
    = length (filter P l) + (if P y then 1 else 0).
Proof.
  intros Hi. rewrite insert_take_drop by (by eapply lookup_lt_Some).
  rewrite <- (take_drop_middle l i x Hi) at 3.
  rewrite !filter_app, !length_app, !filter_cons.
  destruct (P x) eqn:Ex, (P y) eqn:Ey; cbn;
    repeat case_decide; try done; cbn; try lia;
    rewrite ?Ex, ?Ey in *; cbn in *; tauto.
Qed.

Ltac stops_side :=
  let s0 := fresh in let Hs0 := fresh in
  intros s0 Hs0; unfold stops_are_posted, posted in *; cbn; exact Hs0.

Lemma stops_begin_tun_loop n : preserves stops_are_posted (begin_tun_loop n).
Proof.
  unfold begin_tun_loop. destruct (n <? 0)%Z; [apply preserves_fail|].
  apply preserves_bind; [|intros _; frame stops_side].
  apply preserves_modify. intros s Hs. unfold stops_are_posted, posted in *. cbn.
  replace (filter stopped (replicate (Z.to_nat n) waiting)) with (@nil tstate); [cbn; lia|].
  symmetry. induction (Z.to_nat n) as [|k IH]; [done|].
  change (replicate (S k) waiting) with (waiting :: replicate k waiting).
  rewrite filter_cons_False by (cbn; tauto). exact IH.
Qed.

Lemma stops_add_ev this numCPU created :
  preserves stops_are_posted (add_ev this numCPU created).
Proof.
  unfold add_ev. tun_ops.
  preserves_with ltac:(first [ apply stops_begin_tun_loop
                             | apply preserves_modify; stops_side ]).
Qed.

Lemma stops_body r : preserves stops_are_posted (tun_ev_loop_body r).
Proof. frame stops_side. Qed.

(** [tun_ev_loop] leaves its loop exactly on a stop packet. *)
Lemma body_control r s c s' :
  tun_ev_loop_body r s = Some (c, s') → c = Break ↔ is_stop r = true.
Proof.
  unfold tun_ev_loop_body, is_stop. destruct (alert r); cbn.
  2:{ intros [= <- _]. by destruct (listener r). }
  destruct (listener r) as [| |e]; [done|by intros [= <- _]|].
  destruct (ovl r) as [p|]; [|done]. unfold mbind, M_bind.
  destruct (deref_pkt p s) as [[rec s1]|]; [|done].
  destruct (deref e s1) as [[o s2]|]; [|done].
  match goal with |- context [match ?m s2 with _ => _ end] =>
    destruct (m s2) as [[u s3]|]; [|done] end.
  destruct (delete_asio_evt_pkt p s3) as [[u' s4]|]; [|done].
  by intros [= <- _].
Qed.

Lemma stops_do_action a s s' :
  stops_are_posted s → do_action a s = Some s' → stops_are_posted s'.
Proof.
  intros HP. assert (HPm : stops_are_posted (set_cur main s)) by exact HP.
  destruct a; cbn [do_action]; unfold by_main.
  - destruct (pc s) eqn:Hpc; [|done..]. apply preserves_exec; [|exact HPm].
    frame stops_side.
  - destruct (pc s) eqn:Hpc; [|done..]. apply preserves_exec; [|exact HPm].
    frame stops_side.
  - destruct (pc s) eqn:Hpc; [|done..]. apply preserves_exec; [|exact HPm].
    apply stops_add_ev.
  - destruct (pc s) eqn:Hpc; [|done..]. apply preserves_exec; [|exact HPm].
    frame stops_side.
  - destruct (0 <=? dt)%Z; [|done]. intros [= <-]. exact HP.
  - destruct (pending s !! k) as [[e p]|]; [|done]. intros [= <-].
    destruct (port_open s); [|exact HP].
    unfold stops_are_posted, posted in *. cbn. rewrite filter_app.
    rewrite (filter_cons_False _ _ []) by (cbn; tauto). by rewrite app_nil_r.
  - destruct (threads s !! tid) as [[]|] eqn:Htid; [|done..].
    destruct (port s) as [|r rest] eqn:Hport; intros [= <-];
      unfold stops_are_posted, posted in *; cbn.
    + pose proof (filter_insert_count stopped _ _ _ (dequeued timed_out) Htid) as Hc.
      cbn in Hc. rewrite Hport in HP |- *. cbn in HP |- *. destruct (pc s); lia.
    + pose proof (filter_insert_count stopped _ _ _ (dequeued r) Htid) as Hc.
      cbn in Hc. rewrite Hport, filter_cons in HP.
      destruct (is_stop r); case_decide; cbn in *; try tauto; destruct (pc s); lia.
  - destruct (threads s !! tid) as [[|r|]|] eqn:Htid; [done| |done..].
    destruct (tun_ev_loop_body r (set_cur (worker tid) s)) as [[c s1]|] eqn:Hrun; [|done].
    assert (HP1 : stops_are_posted s1) by (eapply stops_body; [|exact Hrun]; exact HP).
    assert (Hth : threads s1 !! tid = Some (dequeued r)).
    { assert (Hsame : threads s1 = threads s); [|by rewrite Hsame].
      eapply (preserves_exec (λ u, threads u = threads s) (tun_ev_loop_body r)
                (set_cur (worker tid) s) s1); [|done|unfold exec; by rewrite Hrun].
      frame ltac:(intros ? ?; cbn; assumption). }
    pose proof (body_control _ _ _ _ Hrun) as Hc.
    destruct c; intros [= <-]; unfold stops_are_posted, posted in *; cbn.
    + pose proof (filter_insert_count stopped _ _ _ waiting Hth) as Hn. cbn in Hn.
      destruct (is_stop r); [by destruct Hc as [_ Hc]; specialize (Hc eq_refl)|].
      destruct (pc s1); lia.
    + pose proof (filter_insert_count stopped _ _ _ exited Hth) as Hn. cbn in Hn.
      destruct (is_stop r); [destruct (pc s1); lia|].
      by destruct Hc as [Hc _]; specialize (Hc eq_refl).
  - destruct (pc s) eqn:Hpc; [|done..]. unfold exec, exit_tun_loop_post, emit.
    munfold. cbn. unfold stops_are_posted, posted in *. rewrite Hpc in HP.
    change (port_open (set_cur main s)) with (port_open s).
    destruct (port_open s); cbn; intros [= <-]; cbn; [|lia].
    rewrite filter_app, length_app. count_events. lia.
  - destruct (pc s) as [|i|] eqn:Hpc; [done| |done].
    destruct (wait_satisfied i (threads s)); [|done]. unfold exec.
    destruct (exit_tun_loop_finish i (set_cur main s)) as [[u s1]|] eqn:Hrun; [|done].
    intros [= <-].
    assert (HP1 : stops_are_posted s1).
    { eapply (preserves_exec stops_are_posted (exit_tun_loop_finish i)); [|exact HPm|].
      - frame stops_side.
      - unfold exec. by rewrite Hrun. }
    assert (Hpc1 : pc s1 = joining i).
    { rewrite <- Hpc.
      eapply (preserves_exec (λ u, pc u = pc s) (exit_tun_loop_finish i)
                (set_cur main s) s1); [|done|unfold exec; by rewrite Hrun].
      frame ltac:(intros ? ?; cbn; assumption). }
    unfold stops_are_posted, posted in *. cbn. by rewrite Hpc1 in HP1.
Qed.

Lemma stops_steps s s' : steps s s' → stops_are_posted s → stops_are_posted s'.
Proof.
  induction 1 as [|s a s' s'' _ IH Ha]; [done|].
  intros HP. eapply stops_do_action; [|exact Ha]. by apply IH.
Qed.

Lemma stops_reachable s : reachable s → stops_are_posted s.
Proof.
  intros Hs. eapply stops_steps; [exact Hs|].
  unfold stops_are_posted, posted. cbn. lia.
Qed.

Lemma exited_are_stopped ths :
  length (filter is_exited ths) ≤ length (filter stopped ths).
Proof.
  induction ths as [|st ths IH]; [done|]. rewrite !filter_cons.
  destruct st; repeat case_decide; cbn in *; try tauto; lia.
Qed.

Lemma all_exited_count n ths :
  n ≤ length ths → forallb is_exited (take n ths) = true →
  n ≤ length (filter is_exited ths).
Proof.
  revert ths. induction n as [|n IH]; intros ths Hlen Hall; [lia|].
  destruct ths as [|st ths]; [cbn in Hlen; lia|]. cbn in Hlen, Hall.
  apply andb_prop in Hall as [Hst Hall]. rewrite filter_cons_True by by rewrite Hst.
  cbn [length]. specialize (IH ths ltac:(lia) Hall). lia.
Qed.

(** C1 on the code: [exit_tun_loop] posts a single stop packet, and a packet
    is dequeued by one thread; so in every state the process reaches at most
    one thread of the pool has left [tun_ev_loop], none before
    [exit_tun_loop] is called, and a wait for two or more threads of the pool
    is never satisfied. *)
Theorem exit_tun_loop_stops_one_thread s :
  reachable s →
  length (filter is_exited (threads s)) ≤ posted s ∧
  posted s ≤ 1 ∧
  ∀ i, (2 ≤ i ≤ MAXIMUM_WAIT_OBJECTS)%Z → (i ≤ Z.of_nat (length (threads s)))%Z →
       wait_satisfied i (threads s) = false.
Proof.
  intros Hs. pose proof (stops_reachable s Hs) as HP.
  pose proof (exited_are_stopped (threads s)) as Hex.
  assert (Hposted : posted s ≤ 1) by (unfold posted; destruct (pc s); lia).
  split_and!; [unfold stops_are_posted in HP; lia|done|].
  intros i Hi Hlen. unfold wait_satisfied.
  destruct (Z.leb_spec 1 i); [|lia].
  destruct (Z.leb_spec i MAXIMUM_WAIT_OBJECTS); [|lia].
  destruct (Z.leb_spec i (Z.of_nat (length (threads s)))); [|lia]. cbn.
  destruct (forallb is_exited (take (Z.to_nat i) (threads s))) eqn:Hall; [|done].
  apply all_exited_count in Hall; [|lia].
  unfold stops_are_posted in HP. lia.
Qed.

End shutdown.

(** ** Request records are released once *)

Section single_release.
Context `{!EvSizes, !CoDel}.
Import tun.

Lemma requests_ok_perm s R R' : R ≡ₚ R' → requests_ok s R → requests_ok s R'.
Proof. intros HR [Hnd Hok]. split; by rewrite <- HR. Qed.

Lemma requests_ok_tail s x R : requests_ok s (x :: R) → requests_ok s R.
Proof.
  intros [Hnd Hok]. split; [|by inversion Hok].
  cbn in Hnd. destruct (ovl x); [by inversion Hnd|done].
Qed.

Lemma requests_ok_app_l s R R' : requests_ok s (R ++ R') → requests_ok s R.
Proof.
  intros [Hnd Hok]. rewrite omap_app in Hnd. apply NoDup_app in Hnd as [Hnd _].
  apply Forall_app in Hok as [Hok _]. by split.
Qed.

Lemma requests_ok_state s s' R :
  (∀ x, x ∈ R → request_ok s x → request_ok s' x) →
  requests_ok s R → requests_ok s' R.
Proof.
  intros Hx [Hnd Hok]. split; [done|].
  rewrite Forall_forall in *. intros x Hin. apply Hx; [done|]. by apply Hok.
Qed.

Lemma requests_ok_bound s R x p :
  requests_ok s R → x ∈ R → ovl x = Some p → p < length (pkts s).
Proof.
  intros [_ Hok] Hin Hp. rewrite Forall_forall in Hok. specialize (Hok x Hin).
  unfold request_ok in Hok. rewrite Hp in Hok.
  destruct (listener x); try done.
  destruct Hok as [[rec Hrec] _]. by eapply lookup_lt_Some.
Qed.

(** Requests for records allocated after every record in [R]. *)
Lemma requests_ok_fresh s' R e n k :
  requests_ok s' R →
  (∀ x p, x ∈ R → ovl x = Some p → p < n) →
  (∀ i, i < k → request_ok s' (request (e, n + i))) →
  requests_ok s' (R ++ ((λ p, request (e, p)) <$> seq n k)).
Proof.
  intros [Hnd Hok] Hbound Hnew. split.
  - rewrite omap_app. apply NoDup_app. split_and!; [done| |].
    + intros p [x [Hx Hp]]%list_elem_of_omap [y [Hy Hq]]%list_elem_of_omap.
      apply list_elem_of_fmap in Hy as [q [-> Hq']]. cbn in Hq. injection Hq as ->.
      apply elem_of_seq in Hq'. specialize (Hbound x p Hx Hp). lia.
    + replace (omap ovl ((λ p, request (e, p)) <$> seq n k)) with (seq n k);
        [apply NoDup_seq|].
      generalize (seq n k). intros l. induction l as [|y l IH]; [done|].
      cbn. by rewrite <- IH.
  - apply Forall_app. split; [done|]. apply Forall_fmap, Forall_forall.
    intros p Hp%elem_of_seq. cbn. replace p with (n + (p - n)) by lia.
    apply Hnew. lia.
Qed.

(** A packet may be exchanged for one with the same key and record. *)
Lemma requests_ok_same s x y R :
  listener y = listener x → ovl y = ovl x →
  (listener x = null → alert y = false) →
  requests_ok s (x :: R) → requests_ok s (y :: R).
Proof.
  intros Hl Hovl Ha [Hnd Hok]. split.
  - cbn in *. by rewrite Hovl.
  - apply Forall_cons in Hok as [Hx Hok]. constructor; [|done].
    unfold request_ok in *. rewrite Hl, Hovl.
    destruct (listener x), (ovl x); try done. by apply Ha.
Qed.

Lemma holding_insert ths tid st st' :
  ths !! tid = Some st →
  ∃ X, omap holding ths ≡ₚ option_list (holding st) ++ X ∧
       omap holding (<[tid := st']> ths) ≡ₚ option_list (holding st') ++ X.
Proof.
  intros Htid. exists (omap holding (take tid ths) ++ omap holding (drop (S tid) ths)).
  split.
  - rewrite <- (take_drop_middle ths tid st Htid) at 1.
    rewrite omap_app. cbn. destruct (holding st); cbn; [|done].
    by rewrite Permutation_middle.
  - rewrite insert_take_drop by (by eapply lookup_lt_Some).
    rewrite omap_app. cbn. destruct (holding st'); cbn; [|done].
    by rewrite Permutation_middle.
Qed.

Lemma deleted_snoc tr c e :
  deleted (tr ++ [(c, e)]) =
    deleted tr ++ match e with delete_pkt p => [p] | _ => [] end.
Proof. unfold deleted. rewrite omap_app. cbn. by destruct e. Qed.

Lemma live_obj_store (l : list (option win32_tun_io)) this o' e :
  (∃ o, l !! e = Some (Some o)) → ∃ o, <[this := Some o']> l !! e = Some (Some o).
Proof.
  intros [o Ho]. destruct (decide (this = e)) as [->|Hne].
  - exists o'. by eapply lookup_stored.
  - exists o. by rewrite list_lookup_insert_ne.
Qed.

(** *** Steps that touch no request *)

Lemma quiet_refl s : quiet s s.
Proof. by unfold quiet. Qed.

Lemma quiet_store s0 this o' :
  preserves (quiet s0) (modify (λ s, set_objs (<[this := Some o']> (objs s)) s)).
Proof.
  apply preserves_modify. intros u (? & ? & ? & ? & ? & ? & Hlive).
  split_and!; try done. intros e He. cbn. apply live_obj_store. by apply Hlive.
Qed.

Lemma quiet_new s0 o' :
  preserves (quiet s0) (modify (λ s, set_objs (objs s ++ [Some o']) s)).
Proof.
  apply preserves_modify. intros u (? & ? & ? & ? & ? & ? & Hlive).
  split_and!; try done. intros e He. destruct (Hlive e He) as [o Ho].
  exists o. cbn. by apply lookup_app_l_Some.
Qed.

Lemma quiet_log s0 e :
  match e with delete_pkt _ => False | _ => True end →
  preserves (quiet s0) (modify (λ s, set_trace (trace s ++ [(cur s, e)]) s)).
Proof.
  intros He. apply preserves_modify. intros u (? & ? & ? & ? & ? & Hd & Hlive).
  split_and!; try done. cbn. rewrite deleted_snoc, Hd. destruct e; try done.
  all: by rewrite app_nil_r.
Qed.

Ltac quiet_prim :=
  first [ apply quiet_store | apply quiet_new | apply quiet_log; exact I ].

Lemma quiet_setup s0 this start set_ip up :
  preserves (quiet s0) (setup this start set_ip up).
Proof. tun_ops. preserves_with quiet_prim. Qed.

Lemma quiet_new_win32_tun_io s0 tio dev :
  preserves (quiet s0) (new_win32_tun_io tio dev).
Proof. tun_ops. preserves_with quiet_prim. Qed.

Lemma have_queues_store this o' :
  is_Some (m_LossyWriteQueue o') →
  preserves have_queues (modify (λ s, set_objs (<[this := Some o']> (objs s)) s)).
Proof.
  intros Hq. apply preserves_modify. intros u Hu e o. cbn.
  destruct (decide (this = e)) as [->|Hne].
  - intros Ho. apply list_lookup_insert_Some in Ho as [(_ & [= <-] & _)|[? _]]; done.
  - rewrite list_lookup_insert_ne by done. apply Hu.
Qed.

Lemma have_queues_kill this :
  preserves have_queues (modify (λ s, set_objs (<[this := None]> (objs s)) s)).
Proof.
  apply preserves_modify. intros u Hu e o. cbn.
  destruct (decide (this = e)) as [->|Hne].
  - intros Ho. apply list_lookup_insert_Some in Ho as [(_ & [=] & _)|[? _]]; done.
  - rewrite list_lookup_insert_ne by done. apply Hu.
Qed.

Lemma have_queues_new o' :
  is_Some (m_LossyWriteQueue o') →
  preserves have_queues (modify (λ s, set_objs (objs s ++ [Some o']) s)).
Proof.
  intros Hq. apply preserves_modify. intros u Hu e o. cbn.
  intros [Ho|[_ Ho]]%lookup_app_Some; [by eapply Hu|].
  destruct (e - length (objs u)) as [|[|]]; naive_solver.
Qed.

Lemma have_queues_set_tun_fd this fd : preserves have_queues (set_tun_fd this fd).
Proof.
  intros s a s' Hs. unfold set_tun_fd, deref. munfold.
  destruct (objs s !! this) as [[o|]|] eqn:Ho; [|done..].
  intros Hrun. eapply (have_queues_store this); [|exact Hs|exact Hrun].
  cbn. by eapply Hs.
Qed.

Ltac queues_prim :=
  first [ apply have_queues_set_tun_fd
        | apply have_queues_store; by eexists
        | apply have_queues_new; by eexists
        | apply have_queues_kill
        | apply preserves_for_each; intros ?
        | apply preserves_modify;
          let u := fresh in let Hu := fresh in intros u Hu; exact Hu ].

Ltac queues_ops :=
  unfold queue_write, setup, flush_write, read, do_write, new_win32_tun_io,
    tun_ev_loop_body, delete_asio_evt_pkt, exit_tun_loop_post, exit_tun_loop_finish,
    destroy, new_pkt, deref_pkt, deref, store, submit, emit, add_ev, begin_tun_loop.

Lemma have_queues_do_action a s s' :
  have_queues s → do_action a s = Some s' → have_queues s'.
Proof.
  intros HP. assert (HPm : have_queues (set_cur main s)) by exact HP.
  destruct a; cbn [do_action]; unfold by_main.
  - destruct (pc s); [|done..]. apply preserves_exec; [|exact HPm].
    queues_ops. preserves_with queues_prim.
  - destruct (pc s); [|done..]. apply preserves_exec; [|exact HPm].
    queues_ops. preserves_with queues_prim.
  - destruct (pc s); [|done..]. apply preserves_exec; [|exact HPm].
    queues_ops. preserves_with queues_prim.
  - destruct (pc s); [|done..]. apply preserves_exec; [|exact HPm].
    queues_ops. preserves_with queues_prim.
  - destruct (0 <=? dt)%Z; [|done]. intros [= <-]. exact HP.
  - destruct (pending s !! k) as [[e p]|]; [|done]. intros [= <-].
    destruct (port_open s); exact HP.
  - destruct (threads s !! tid) as [[]|]; [|done..].
    destruct (port s); intros [= <-]; exact HP.
  - destruct (threads s !! tid) as [[|r|]|]; [done| |done..].
    destruct (tun_ev_loop_body r (set_cur (worker tid) s)) as [[c s1]|] eqn:Hrun; [|done].
    assert (HP1 : have_queues s1).
    { eapply (preserves_exec have_queues (tun_ev_loop_body r)
                (set_cur (worker tid) s)); [|exact HP|unfold exec; by rewrite Hrun].
      queues_ops. preserves_with queues_prim. }
    destruct c; intros [= <-]; exact HP1.
  - destruct (pc s); [|done..]. unfold exec.
    destruct (exit_tun_loop_post i (set_cur main s)) as [[u s1]|] eqn:Hrun; [|done].
    intros [= <-]. assert (HP1 : have_queues s1); [|exact HP1].
    eapply (preserves_exec have_queues (exit_tun_loop_post i)); [|exact HPm|].
    + queues_ops. preserves_with queues_prim.
    + unfold exec. by rewrite Hrun.
  - destruct (pc s) as [|i|]; [done| |done].
    destruct (wait_satisfied i (threads s)); [|done]. unfold exec.
    destruct (exit_tun_loop_finish i (set_cur main s)) as [[u s1]|] eqn:Hrun; [|done].
    intros [= <-]. assert (HP1 : have_queues s1); [|exact HP1].
    eapply (preserves_exec have_queues (exit_tun_loop_finish i)); [|exact HPm|].
    + queues_ops. preserves_with queues_prim.
    + unfold exec. by rewrite Hrun.
Qed.

(** *** How the invariant is carried from one state to the next *)

Lemma request_ok_carried s s' x :
  (∀ p, live_pkt s p → ovl x = Some p → live_pkt s' p) →
  (∀ e, live_obj s e → live_obj s' e) →
  (pc s = finished → pc s' = finished) →
  request_ok s x → request_ok s' x.
Proof.
  intros Hp Ho Hpc. unfold request_ok.
  destruct (listener x) as [| |e], (ovl x) as [p|]; try done.
  intros [Hlive Hobj]. split; [by apply Hp|].
  intros Hfin. apply Ho, Hobj. intros Hs. by apply Hfin, Hpc.
Qed.

Lemma requests_ok_none s r R :
  ovl r = None →
  match listener r with ptr _ => False | all_ones => True | null => alert r = false end →
  requests_ok s R → requests_ok s (r :: R).
Proof.
  intros Hovl Hk [Hnd Hok]. split; [cbn; by rewrite Hovl|]. constructor; [|done].
  unfold request_ok. rewrite Hovl. by destruct (listener r).
Qed.

Lemma consistent_reshuffle s s' :
  consistent s →
  pkts s' = pkts s → objs s' = objs s → deleted (trace s') = deleted (trace s) →
  (pc s = finished → pc s' = finished) →
  requests_ok s (requests s') →
  consistent s'.
Proof.
  intros [HR Hdead Honce Hq] Hpkts Hobjs Hdel Hpc HR'. split.
  - eapply requests_ok_state; [|exact HR']. intros x _.
    apply request_ok_carried; [|by unfold live_obj; rewrite Hobjs|done].
    intros p Hp _. unfold live_pkt in *. by rewrite Hpkts.
  - intros p. rewrite Hdel, Hpkts. apply Hdead.
  - by rewrite Hdel.
  - intros e o. rewrite Hobjs. apply Hq.
Qed.

Lemma consistent_quiet s s' :
  consistent s → quiet s s' → have_queues s' → consistent s'.
Proof.
  intros [HR Hdead Honce _] (Hpkts & Hpend & Hport & Hth & Hpc & Hdel & Hlive) Hq. split.
  - replace (requests s') with (requests s)
      by (unfold requests; by rewrite Hpend, Hport, Hth).
    eapply requests_ok_state; [|exact HR]. intros x _.
    apply request_ok_carried; [|done|by rewrite Hpc].
    intros p Hp _. unfold live_pkt in *. by rewrite Hpkts.
  - intros p. rewrite Hdel, Hpkts. apply Hdead.
  - by rewrite Hdel.
  - exact Hq.
Qed.

Lemma consistent_finished s s' :
  consistent s → quiet_but_for_endpoints s s' → have_queues s' →
  consistent (set_pc finished s').
Proof.
  intros [HR Hdead Honce _] (Hpkts & Hpend & Hport & Hth & Hdel) Hq. split.
  - replace (requests (set_pc finished s')) with (requests s)
      by (unfold requests; cbn; by rewrite Hpend, Hport, Hth).
    eapply requests_ok_state; [|exact HR]. intros x _. unfold request_ok.
    destruct (listener x) as [| |e], (ovl x) as [p|]; try done.
    intros [Hp _]. split; [|done]. unfold live_pkt in *. cbn. by rewrite Hpkts.
  - intros p. cbn [trace pkts set_pc]. rewrite Hdel, Hpkts. apply Hdead.
  - cbn [trace set_pc]. by rewrite Hdel.
  - exact Hq.
Qed.

(** New requests of endpoint [e], for records allocated one after the
    other. *)
Lemma consistent_grows s s' e news :
  consistent s →
  pkts s' = pkts s ++ (Some <$> news) →
  pending s' = pending s ++ ((λ p, (e, p)) <$> seq (length (pkts s)) (length news)) →
  port s' = port s →
  (omap holding (threads s') = omap holding (threads s) ∨
   omap holding (threads s') = []) →
  pc s' = pc s → deleted (trace s') = deleted (trace s) →
  (∀ x, live_obj s x → live_obj s' x) → live_obj s' e → have_queues s' →
  consistent s'.
Proof.
  intros [HR Hdead Honce _] Hpkts Hpend Hport Hth Hpc Hdel Hlive He Hq.
  assert (Hcarry : ∀ x, request_ok s x → request_ok s' x).
  { intros x. apply request_ok_carried; [|done|by rewrite Hpc].
    intros p [rec Hp] _. exists rec. rewrite Hpkts. by apply lookup_app_l_Some. }
  set (old := (request <$> pending s) ++ port s' ++ omap holding (threads s')).
  assert (Hold : requests_ok s old).
  { subst old. rewrite Hport. destruct Hth as [-> | ->]; [exact HR|].
    rewrite app_nil_r. apply (requests_ok_app_l s _ (omap holding (threads s))).
    unfold requests in HR. by rewrite app_assoc in HR. }
  split.
  - apply (requests_ok_perm s'
             (old ++ ((λ p, request (e, p)) <$> seq (length (pkts s)) (length news)))).
    { subst old. unfold requests.
      rewrite Hpend, !fmap_app, <- list_fmap_compose, <- !app_assoc.
      apply Permutation_app_head. rewrite app_assoc. apply Permutation_app_comm. }
    apply requests_ok_fresh.
    + eapply requests_ok_state; [|exact Hold]. intros x _. apply Hcarry.
    + intros x p. by apply requests_ok_bound.
    + intros i Hi. split; [|done].
      destruct (lookup_lt_is_Some_2 news i Hi) as [rec Hrec]. exists rec. cbn.
      rewrite Hpkts, lookup_app_r by lia. replace (_ + i - _) with i by lia.
      by rewrite list_lookup_fmap, Hrec.
  - intros p Hp. rewrite Hdel in Hp. rewrite Hpkts. apply lookup_app_l_Some.
    by apply Hdead.
  - by rewrite Hdel.
  - exact Hq.
Qed.

(** The thread [tid] deletes the record of the request it holds and is done
    with it. *)
Lemma consistent_release s tid r e p st' :
  consistent s →
  threads s !! tid = Some (dequeued r) → listener r = ptr e → ovl r = Some p →
  holding st' = None →
  consistent (set_threads (<[tid := st']> (threads s)) (released p s)).
Proof.
  intros [HR Hdead Honce Hq] Htid Hl Hovl Hst'.
  destruct (holding_insert (threads s) tid _ st' Htid) as (X & HX & HX').
  cbn in HX. rewrite Hst' in HX'. cbn in HX'.
  set (rest := (request <$> pending s) ++ port s ++ X).
  assert (Hsplit : requests s ≡ₚ r :: rest).
  { unfold requests, rest. rewrite HX. cbn. by rewrite <- !Permutation_middle. }
  assert (Hrest : requests (set_threads (<[tid := st']> (threads s)) (released p s))
                  ≡ₚ rest).
  { unfold requests, rest. cbn. by rewrite HX'. }
  pose proof (requests_ok_perm _ _ _ Hsplit HR) as [Hnd Hok].
  cbn in Hnd. rewrite Hovl in Hnd. apply NoDup_cons in Hnd as [Hp Hnd].
  apply Forall_cons in Hok as [Hr Hok].
  unfold request_ok in Hr. rewrite Hl, Hovl in Hr. destruct Hr as [[rec Hrec] _].
  split.
  - eapply requests_ok_perm; [symmetry; exact Hrest|]. split; [done|].
    rewrite Forall_forall in *. intros x Hx. specialize (Hok x Hx).
    unfold request_ok in *.
    destruct (listener x) as [| |e'] eqn:Hlx, (ovl x) as [p'|] eqn:Hox; try done.
    destruct Hok as [[rec' Hrec'] Hobj]. split; [|done].
    exists rec'. cbn. rewrite list_lookup_insert_ne; [done|].
    intros <-. apply Hp. apply list_elem_of_omap. by exists x.
  - intros q. cbn. rewrite deleted_snoc. intros [Hin|Hin%list_elem_of_singleton]%elem_of_app.
    + destruct (decide (p = q)) as [<-|Hne].
      * apply Hdead in Hin. congruence.
      * rewrite list_lookup_insert_ne by done. by apply Hdead.
    + subst q. apply list_lookup_insert_eq. by eapply lookup_lt_Some.
  - cbn. rewrite deleted_snoc. apply NoDup_app. split_and!; [done| |apply NoDup_singleton].
    intros q Hin ->%list_elem_of_singleton. apply Hdead in Hin. congruence.
  - exact Hq.
Qed.

(** The thread [tid] drops the packet it holds. *)
Lemma consistent_drop s tid r st' :
  consistent s →
  threads s !! tid = Some (dequeued r) → holding st' = None →
  consistent (set_threads (<[tid := st']> (threads s)) s).
Proof.
  intros Hs Htid Hst'.
  destruct (holding_insert (threads s) tid _ st' Htid) as (X & HX & HX').
  cbn in HX. rewrite Hst' in HX'. cbn in HX'.
  apply (consistent_reshuffle s); [done..|].
  apply (requests_ok_tail s r).
  eapply requests_ok_perm; [|apply Hs].
  unfold requests. cbn. rewrite HX, HX'. cbn.
  by rewrite <- !Permutation_middle.
Qed.

(** *** Issuing requests *)

Lemma grown_refl e s : grown e [] s s.
Proof. unfold grown. cbn. rewrite !app_nil_r. split_and!; auto. Qed.

Lemma grown_issued e news p ev s u :
  (∀ n, match ev n with delete_pkt _ => False | _ => True end) →
  grown e news s u → grown e (news ++ [p]) s (issued e p ev u).
Proof.
  intros Hev (Hpkts & Hpend & Hport & Hth & Hpc & Hdel & Hlive).
  unfold grown. cbn. rewrite deleted_snoc, Hdel.
  specialize (Hev (length (pkts u))). destruct (ev (length (pkts u))); try done.
  all: rewrite app_nil_r, Hpkts, Hpend.
  all: rewrite !length_app, length_fmap, fmap_app, <- !app_assoc; cbn.
  all: rewrite seq_app, fmap_app; cbn.
  all: split_and!; done.
Qed.

Lemma grown_issued_writes e fd bs news s u :
  grown e news s u →
  grown e (news ++ ((λ b, {| write := true; sz := bufsz b; buf := entry_buf (wbuf b) |})
                    <$> bs)) s (issued_writes e fd bs u).
Proof.
  revert news u. induction bs as [|b bs IH]; intros news u Hu.
  - cbn. by rewrite app_nil_r.
  - rewrite issued_writes_cons. cbn [fmap list_fmap].
    rewrite (app_assoc news [_] _ : news ++ _ :: _ = (news ++ [_]) ++ _).
    apply IH. by apply grown_issued.
Qed.


Lemma grown_log e news s u c ev :
  match ev with delete_pkt _ => False | _ => True end →
  grown e news s u → grown e news s (set_trace (trace u ++ [(c, ev)]) u).
Proof.
  intros Hev (Hpkts & Hpend & Hport & Hth & Hpc & Hdel & Hlive).
  unfold grown. cbn. rewrite deleted_snoc, Hdel. split_and!; try done.
  destruct ev; try done; by rewrite app_nil_r.
Qed.

Lemma grown_store e news s u this o' :
  grown e news s u → grown e news s (set_objs (<[this := Some o']> (objs u)) u).
Proof.
  intros (Hpkts & Hpend & Hport & Hth & Hpc & Hdel & Hlive).
  unfold grown. cbn. split_and!; try done.
  intros x Hx. apply live_obj_store. by apply Hlive.
Qed.

Lemma grown_received e news s u n o :
  grown e news s u → grown e news s (received e n o u).
Proof.
  intros Hu. unfold received. destruct (ev.recvpkt (t o)); [|done].
  by apply grown_log.
Qed.

Lemma grown_flushing e news s u o q :
  grown e news s u → grown e news s (flushing e o q u).
Proof.
  intros Hu. unfold flushing. destruct (ev.before_write (t o)).
  - apply (grown_store e news s (set_trace _ u)). by apply grown_log.
  - by apply grown_store.
Qed.

Lemma consistent_grown s s' e news :
  consistent s → grown e news s s' → live_obj s' e → have_queues s' → consistent s'.
Proof.
  intros Hs (Hpkts & Hpend & Hport & Hth & Hpc & Hdel & Hlive) He Hq.
  eapply consistent_grows; try done.
  destruct Hth as [-> | ->]; auto.
Qed.

Lemma grown_globals e news s u u' :
  pkts u' = pkts u → pending u' = pending u → port u' = port u →
  threads u' = threads u → pc u' = pc u → trace u' = trace u → objs u' = objs u →
  grown e news s u → grown e news s u'.
Proof.
  intros Hpkts Hpend Hport Hth Hpc Htr Hobjs. unfold grown, live_obj.
  by rewrite Hpkts, Hpend, Hport, Hth, Hpc, Htr, Hobjs.
Qed.

Lemma grown_spawned e news s u n :
  grown e news s u → grown e news s (spawned n u).
Proof.
  intros (Hpkts & Hpend & Hport & Hth & Hpc & Hdel & Hlive).
  unfold grown, spawned. cbn. split_and!; try done.
  - right. induction n as [|n IH]; [done|exact IH].
  - rewrite <- Hdel. unfold deleted. rewrite omap_app.
    replace (omap _ ((λ i, (cur u, CreateThread i)) <$> seq 0 n)) with (@nil nat);
      [by rewrite app_nil_r|].
    generalize (seq 0 n). intros l. by induction l.
Qed.

Lemma add_ev_first_gen this o numCPU created s :
  objs s !! this = Some (Some o) → tun_event_queue s = INVALID_HANDLE_VALUE →
  (0 ≤ to_int (wrap 32 (numCPU * 2)))%Z →
  add_ev this numCPU created s =
    Some (true,
      issued this (standing_read this 4096)
        (ReadFile (tun_fd (tunif o)) (readbuf this) 4096)
        (set_tun_listeners (tun_listeners s ++ [this])
           (spawned (Z.to_nat (to_int (wrap 32 (numCPU * 2))))
              (set_tun_event_queue (from_option Handle NULL created)
                 (set_trace (trace s ++ [(cur s, CreateIoCompletionPort (tun_fd (tunif o))
                                            NULL (ptr this) (wrap 32 (numCPU * 2)))]) s))))).
Proof.
  intros Hlive Hq Hn. unfold add_ev. unfold mbind at 1, M_bind at 1.
  rewrite (deref_live _ _ _ Hlive). unfold mbind at 1, M_bind at 1. cbn [get].
  rewrite bool_decide_eq_true_2 by done.
  unfold emit. munfold. rewrite begin_tun_loop_spec by lia. cbn.
  by rewrite (read_spec _ o).
Qed.

Lemma add_ev_grown this numCPU created s b s' :
  add_ev this numCPU created s = Some (b, s') →
  grown this [standing_read this 4096] s s' ∧ live_obj s' this.
Proof.
  destruct (objs s !! this) as [[o|]|] eqn:Hlive.
  2,3: unfold add_ev, deref; munfold; by rewrite Hlive.
  assert (Hread : ∀ u, grown this [] s u → objs u = objs s →
            let u' := issued this (standing_read this 4096)
                        (ReadFile (tun_fd (tunif o)) (readbuf this) 4096) u in
            grown this [standing_read this 4096] s u' ∧ live_obj u' this).
  { intros u Hu Hobjs. split; [by apply (grown_issued this [])|].
    exists o. cbn. by rewrite Hobjs. }
  destruct (decide (tun_event_queue s = INVALID_HANDLE_VALUE)) as [Hq|Hq].
  - destruct (Z.ltb_spec (to_int (wrap 32 (numCPU * 2))) 0) as [Hn|Hn].
    { unfold add_ev, deref, emit, begin_tun_loop. munfold. rewrite Hlive. cbn.
      rewrite bool_decide_eq_true_2 by done.
      by destruct (Z.ltb_spec (to_int (wrap 32 (numCPU * 2))) 0); [|lia]. }
    rewrite (add_ev_first_gen this o) by done. intros [= _ <-].
    apply Hread; [|done].
    eapply grown_globals; [reflexivity..|]. apply grown_spawned.
    eapply grown_globals; [reflexivity..|].
    apply grown_log; [exact I|apply grown_refl].
  - rewrite (add_ev_subsequent_spec this o) by done. intros [= _ <-].
    apply Hread; [|done].
    eapply grown_globals; [reflexivity..|].
    apply grown_log; [exact I|apply grown_refl].
Qed.

Lemma live_obj_issued_writes this fd bs u e :
  live_obj u e → live_obj (issued_writes this fd bs u) e.
Proof.
  unfold live_obj.
  by pose proof (issued_writes_frame this fd bs u) as (_ & _ & _ & -> & _).
Qed.

Lemma live_obj_flushing this o q u e :
  live_obj u e → live_obj (flushing this o q u) e.
Proof.
  intros He. unfold live_obj, flushing. cbn. apply live_obj_store.
  by destruct (ev.before_write (t o)).
Qed.

Lemma live_obj_received this n o u e :
  live_obj u e → live_obj (received this n o u) e.
Proof. unfold live_obj, received. by destruct (ev.recvpkt (t o)). Qed.

Lemma issued_threads this p e u : threads (issued this p e u) = threads u.
Proof. reflexivity. Qed.

Lemma issued_writes_threads this fd bs u : threads (issued_writes this fd bs u) = threads u.
Proof. apply issued_writes_frame. Qed.

Lemma flushing_threads this o q u : threads (flushing this o q u) = threads u.
Proof. unfold flushing. by destruct (ev.before_write (t o)). Qed.

Lemma received_threads this n o u : threads (received this n o u) = threads u.
Proof. unfold received. by destruct (ev.recvpkt (t o)). Qed.

Lemma queue_write_grown this buf sz s b s' :
  queue_write this buf sz s = Some (b, s') →
  ∃ news, grown this news s s' ∧ live_obj s' this.
Proof.
  destruct (objs s !! this) as [[o|]|] eqn:Hlive.
  2,3: unfold queue_write, deref; munfold; by rewrite Hlive.
  destruct (m_LossyWriteQueue o) as [q|] eqn:Hq.
  - rewrite (queue_write_spec this o q) by done. intros [= _ <-].
    eexists. split.
    + apply (grown_issued_writes this _ _ []), grown_flushing.
      apply (grown_store this [] s s), grown_refl.
    + apply live_obj_issued_writes, live_obj_flushing. cbn.
      apply live_obj_store. by exists o.
  - unfold queue_write. unfold mbind, M_bind. rewrite (deref_live _ _ _ Hlive), Hq.
    intros [= _ <-]. exists []. split; [apply grown_refl|by exists o].
Qed.

(** What the loop body does to the state, by the packet it was given. *)
Lemma body_cases r s c s' :
  tun_ev_loop_body r s = Some (c, s') →
  (is_stop r = true ∧ c = Break ∧ s' = s) ∨
  (alert r = false ∧ c = Continue ∧ s' = s) ∨
  (∃ e p news sg,
     alert r = true ∧ listener r = ptr e ∧ ovl r = Some p ∧ c = Continue ∧
     grown e news s sg ∧ threads sg = threads s ∧ live_obj sg e ∧
     s' = released p sg).
Proof.
  destruct (alert r) eqn:Ha.
  2:{ unfold tun_ev_loop_body. rewrite Ha. intros [= <- <-]. auto. }
  destruct (listener r) as [| |e] eqn:Hl.
  { unfold tun_ev_loop_body. by rewrite Ha, Hl. }
  { unfold tun_ev_loop_body, is_stop. rewrite Ha, Hl. intros [= <- <-]. auto. }
  destruct (ovl r) as [p|] eqn:Hovl.
  2:{ unfold tun_ev_loop_body. by rewrite Ha, Hl, Hovl. }
  destruct (pkts s !! p) as [[rec|]|] eqn:Hp.
  2,3: unfold tun_ev_loop_body, deref_pkt; rewrite Ha, Hl, Hovl; munfold; cbn;
       by rewrite Hp.
  destruct (objs s !! e) as [[o|]|] eqn:Hlive.
  2,3: unfold tun_ev_loop_body, deref_pkt, deref; rewrite Ha, Hl, Hovl; munfold; cbn;
       by rewrite Hp, Hlive.
  destruct (write rec) eqn:Hw.
  - rewrite (body_write_spec r e p rec o s) by done. intros [= <- <-].
    right. right. eexists e, p, _, _.
    split_and!; [done..| | | |reflexivity].
    + apply (grown_issued e []); [done|apply grown_refl].
    + done.
    + by exists o.
  - destruct (m_LossyWriteQueue o) as [q|] eqn:Hq.
    2:{ unfold tun_ev_loop_body, deref_pkt, deref, flush_write.
        rewrite Ha, Hl, Hovl. munfold. cbn. rewrite Hp, Hlive, Hw. cbn.
        unfold emit, deref. munfold.
        destruct (ev.recvpkt (t o)); cbn; rewrite Hlive;
          destruct (ev.before_write (t o)); cbn; by rewrite Hq. }
    rewrite (body_read_spec r e p rec o q s) by done. intros [= <- <-].
    right. right. eexists e, p, _, _.
    split_and!; [done..| | | |reflexivity].
    + apply grown_issued; [done|].
      apply (grown_issued_writes e _ _ []), grown_flushing, grown_received, grown_refl.
    + by rewrite issued_threads, issued_writes_threads, flushing_threads,
        received_threads.
    + apply (live_obj_issued_writes e _ _ _ e), live_obj_flushing, live_obj_received.
      by exists o.
Qed.

(** *** The invariant holds in every reachable state *)

Lemma consistent_set_cur c s : consistent s → consistent (set_cur c s).
Proof. intros [HR Hdead Honce Hq]. by split. Qed.

Lemma quiet_finish s0 i :
  preserves (quiet_but_for_endpoints s0) (exit_tun_loop_finish i).
Proof.
  frame ltac:(let u := fresh in let Hd := fresh in
              intros u (? & ? & ? & ? & Hd); split_and!;
              cbn [pkts pending port threads trace set_trace set_objs set_tun_listeners];
              try done; rewrite ?deleted_snoc, ?app_nil_r; done).
Qed.

Lemma consistent_do_action a s s' :
  consistent s → do_action a s = Some s' → consistent s'.
Proof.
  intros Hs Ha.
  pose proof (have_queues_do_action a s s' (consistent_queues s Hs) Ha) as Hq.
  pose proof (consistent_set_cur main s Hs) as Hsm.
  revert Ha.
  destruct a as [tio dev|ev start set_ip up|ev numCPU created|ev data len|dt|k ok n
                |tid|tid|i|]; cbn [do_action]; unfold by_main.
  - destruct (pc s); [|done..]. unfold exec.
    destruct (new_win32_tun_io tio dev (set_cur main s)) as [[a s1]|] eqn:Hrun; [|done].
    intros [= <-]. eapply consistent_quiet; [exact Hsm| |done].
    eapply quiet_new_win32_tun_io; [apply quiet_refl|exact Hrun].
  - destruct (pc s); [|done..]. unfold exec.
    destruct (setup ev start set_ip up (set_cur main s)) as [[a s1]|] eqn:Hrun; [|done].
    intros [= <-]. eapply consistent_quiet; [exact Hsm| |done].
    eapply quiet_setup; [apply quiet_refl|exact Hrun].
  - destruct (pc s); [|done..]. unfold exec.
    destruct (add_ev ev numCPU created (set_cur main s)) as [[a s1]|] eqn:Hrun; [|done].
    intros [= <-]. apply add_ev_grown in Hrun as [Hg He].
    by eapply consistent_grown.
  - destruct (pc s); [|done..]. unfold exec.
    destruct (queue_write ev data len (set_cur main s)) as [[a s1]|] eqn:Hrun; [|done].
    intros [= <-]. apply queue_write_grown in Hrun as (news & Hg & He).
    by eapply consistent_grown.
  - destruct (0 <=? dt)%Z; [|done]. intros [= <-].
    apply (consistent_reshuffle s); [done..|]. apply Hs.
  - destruct (pending s !! k) as [[e p]|] eqn:Hk; [|done]. intros [= <-].
    pose proof (delete_Permutation _ _ _ Hk) as Hperm.
    destruct (port_open s).
    + apply (consistent_reshuffle s); [done..|].
      eapply requests_ok_perm;
        [|apply (requests_ok_same s (request (e, p))
                   {| alert := ok; size := n; listener := ptr e; ovl := Some p |}
                   ((request <$> delete k (pending s)) ++ port s ++
                    omap holding (threads s))); [done..|]].
      * unfold requests. cbn. rewrite <- !app_assoc. cbn.
        by rewrite <- !Permutation_middle.
      * eapply requests_ok_perm; [|apply Hs].
        unfold requests. by rewrite Hperm at 1.
    + apply (consistent_reshuffle s); [done..|].
      apply (requests_ok_tail s (request (e, p))).
      eapply requests_ok_perm; [|apply Hs].
      unfold requests. cbn. by rewrite Hperm at 1.
  - destruct (threads s !! tid) as [[]|] eqn:Htid; [|done..].
    destruct (port s) as [|r rest] eqn:Hport; intros [= <-].
    + destruct (holding_insert (threads s) tid _ (dequeued timed_out) Htid)
        as (X & HX & HX').
      apply (consistent_reshuffle s); [done..|].
      eapply requests_ok_perm;
        [|apply (requests_ok_none s timed_out); [done|done|apply Hs]].
      unfold requests. cbn. rewrite Hport, HX, HX'. cbn.
      by rewrite <- !Permutation_middle.
    + destruct (holding_insert (threads s) tid _ (dequeued r) Htid) as (X & HX & HX').
      apply (consistent_reshuffle s); [done..|].
      eapply requests_ok_perm; [|apply Hs].
      unfold requests. cbn. rewrite Hport, HX, HX'. cbn.
      by rewrite <- !Permutation_middle.
  - destruct (threads s !! tid) as [[|r|]|] eqn:Htid; [done| |done..].
    destruct (tun_ev_loop_body r (set_cur (worker tid) s)) as [[c s1]|] eqn:Hrun; [|done].
    pose proof (consistent_set_cur (worker tid) s Hs) as Hsw.
    apply body_cases in Hrun
      as [(_ & -> & ->)|[(_ & -> & ->)|(e & p & news & sg & _ & Hl & Hovl & -> & Hg & Hth
                                         & He & ->)]]; intros [= <-].
    + by apply (consistent_drop (set_cur (worker tid) s) tid r).
    + by apply (consistent_drop (set_cur (worker tid) s) tid r).
    + cbn [threads released set_pkts set_trace].
      apply (consistent_release sg tid r e p); [|by rewrite Hth|done..].
      eapply consistent_grown; [exact Hsw|exact Hg|exact He|exact Hq].
  - destruct (pc s) eqn:Hpc; [|done..]. unfold exec, exit_tun_loop_post, emit.
    munfold. cbn. change (port_open (set_cur main s)) with (port_open s).
    destruct (port_open s); cbn; intros [= <-].
    + apply (consistent_reshuffle s); [done|done|done| |intros ?; congruence|].
      { cbn. by rewrite !deleted_snoc, !app_nil_r. }
      eapply requests_ok_perm;
        [|apply (requests_ok_none s sentinel); [done|done|apply Hs]].
      unfold requests. cbn. rewrite <- !app_assoc. cbn.
      by rewrite <- !Permutation_middle.
    + apply (consistent_reshuffle s); [done|done|done| |intros ?; congruence|apply Hs].
      cbn. by rewrite !deleted_snoc, !app_nil_r.
  - destruct (pc s) as [|i|] eqn:Hpc; [done| |done].
    destruct (wait_satisfied i (threads s)); [|done]. unfold exec.
    destruct (exit_tun_loop_finish i (set_cur main s)) as [[u s1]|] eqn:Hrun; [|done].
    intros [= <-]. apply (consistent_finished (set_cur main s)); [done| |done].
    eapply quiet_finish; [|exact Hrun]. by unfold quiet_but_for_endpoints.
Qed.

Lemma consistent_steps s s' : steps s s' → consistent s → consistent s'.
Proof.
  induction 1 as [|s a s' s'' _ IH Ha]; [done|].
  intros Hs. eapply consistent_do_action; [|exact Ha]. by apply IH.
Qed.

Lemma consistent_init : consistent init.
Proof.
  split.
  - split; cbn; constructor.
  - intros p. cbn. by intros ?%elem_of_nil.
  - cbn. constructor.
  - intros e o. cbn. by rewrite lookup_nil.
Qed.

(** *** The trace only grows *)

Ltac prefix_side :=
  let u := fresh in let Hu := fresh in
  intros u Hu; cbn; first [exact Hu | by apply prefix_app_r].

Lemma trace_do_action a s s' :
  do_action a s = Some s' → trace s `prefix_of` trace s'.
Proof.
  assert (HP : trace s `prefix_of` trace (set_cur main s)) by done.
  destruct a as [tio dev|ev start set_ip up|ev numCPU created|ev data len|dt|k ok n
                |tid|tid|i|]; cbn [do_action]; unfold by_main.
  - destruct (pc s); [|done..]. apply (preserves_exec (λ u, trace s `prefix_of` trace u)); [|exact HP]. frame prefix_side.
  - destruct (pc s); [|done..]. apply (preserves_exec (λ u, trace s `prefix_of` trace u)); [|exact HP]. frame prefix_side.
  - destruct (pc s); [|done..]. apply (preserves_exec (λ u, trace s `prefix_of` trace u)); [|exact HP].
    unfold add_ev, begin_tun_loop. frame prefix_side.
  - destruct (pc s); [|done..]. apply (preserves_exec (λ u, trace s `prefix_of` trace u)); [|exact HP]. frame prefix_side.
  - destruct (0 <=? dt)%Z; [|done]. by intros [= <-].
  - destruct (pending s !! k) as [[e p]|]; [|done]. intros [= <-].
    by destruct (port_open s).
  - destruct (threads s !! tid) as [[]|]; [|done..].
    by destruct (port s); intros [= <-].
  - destruct (threads s !! tid) as [[|r|]|]; [done| |done..].
    destruct (tun_ev_loop_body r (set_cur (worker tid) s)) as [[c s1]|] eqn:Hrun; [|done].
    assert (HP1 : trace s `prefix_of` trace s1).
    { eapply (preserves_exec (λ u, trace s `prefix_of` trace u) (tun_ev_loop_body r)
                (set_cur (worker tid) s)); [|done|unfold exec; by rewrite Hrun].
      frame prefix_side. }
    by destruct c; intros [= <-].
  - destruct (pc s); [|done..]. unfold exec.
    destruct (exit_tun_loop_post i (set_cur main s)) as [[u s1]|] eqn:Hrun; [|done].
    intros [= <-]. cbn.
    eapply (preserves_exec (λ u, trace s `prefix_of` trace u) (exit_tun_loop_post i)
              (set_cur main s)); [|done|unfold exec; by rewrite Hrun].
    frame prefix_side.
  - destruct (pc s) as [|i|]; [done| |done].
    destruct (wait_satisfied i (threads s)); [|done]. unfold exec.
    destruct (exit_tun_loop_finish i (set_cur main s)) as [[u s1]|] eqn:Hrun; [|done].
    intros [= <-]. cbn.
    eapply (preserves_exec (λ u, trace s `prefix_of` trace u) (exit_tun_loop_finish i)
              (set_cur main s)); [|done|unfold exec; by rewrite Hrun].
    frame prefix_side.
Qed.

Lemma trace_steps s s' : steps s s' → trace s `prefix_of` trace s'.
Proof.
  induction 1 as [|s a s' s'' _ IH Ha]; [done|].
  etrans; [exact IH|]. by eapply trace_do_action.
Qed.

Lemma deleted_app tr tr' : deleted (tr ++ tr') = deleted tr ++ deleted tr'.
Proof. apply omap_app. Qed.

Lemma not_deleted p tr : p ∉ deleted tr → filter (deletes p) tr = [].
Proof.
  induction tr as [|[c e] tr IH]; [done|]. intros Hp.
  assert (Htail : p ∉ deleted tr).
  { intros Hin. apply Hp. unfold deleted. cbn. destruct e; try done. by right. }
  rewrite filter_cons_False; [by apply IH|].
  unfold deletes. cbn. destruct e; try tauto. case_bool_decide; [|tauto].
  subst. destruct Hp. unfold deleted. cbn. by left.
Qed.

Lemma deleted_tagged c evs :
  Forall keeps_records evs → deleted ((λ e, (c, e)) <$> evs) = [].
Proof.
  induction 1 as [|e evs He _ IH]; [done|]. unfold deleted in *. cbn.
  by destruct e.
Qed.

Lemma writes_keep_records fd n (bs : list WriteBuffer_t) :
  Forall keeps_records (imap (λ i b, WriteFile fd (wbuf b) (bufsz b) (n + i)) bs).
Proof.
  revert n. induction bs as [|b bs IH]; intros n; [constructor|].
  rewrite imap_cons. constructor; [exact I|].
  erewrite imap_ext; [apply (IH (S n))|]. intros i x _. cbn. f_equal. lia.
Qed.

(** What a thread appends to the trace when it handles a completion that
    carries a record. *)
Lemma body_logs r ev p rec o q tid s :
  alert r = true → listener r = ptr ev → ovl r = Some p →
  pkts s !! p = Some (Some rec) →
  objs s !! ev = Some (Some o) → m_LossyWriteQueue o = Some q →
  ∃ s1 evs n,
    tun_ev_loop_body r (set_cur (worker tid) s) = Some (Continue, s1) ∧
    Forall keeps_records evs ∧
    trace s1 = trace s ++ ((λ e, (worker tid, e)) <$>
                 (evs ++ [ReadFile (tun_fd (tunif o)) (readbuf ev) EV_READ_BUF_SZ n;
                          delete_pkt p])) ∧
    threads s1 = threads s.
Proof.
  intros Ha Hl Hovl Hp Hlive Hq. destruct (write rec) eqn:Hw.
  - eexists _, [], _. split; [by eapply body_write_spec|].
    split_and!; [constructor| |done].
    unfold released. cbn. by rewrite <- app_assoc.
  - eexists _, ((if ev.recvpkt (t o) then [cb_recvpkt ev (size r)] else []) ++
                (if ev.before_write (t o) then [cb_before_write ev] else []) ++
                imap (λ i b, WriteFile (tun_fd (tunif o)) (wbuf b) (bufsz b)
                                       (length (pkts s) + i)) (Process (clock s) q).1), _.
    split; [by eapply (body_read_spec r ev p rec o q (set_cur (worker tid) s))|].
    split_and!.
    + rewrite !Forall_app. split_and!.
      * destruct (ev.recvpkt (t o)); repeat constructor.
      * destruct (ev.before_write (t o)); repeat constructor.
      * apply writes_keep_records.
    + rewrite (body_read_trace p ev o q (size r) (set_cur (worker tid) s)).
      cbn [trace cur pkts clock set_cur]. rewrite !fmap_app, fmap_imap, <- !app_assoc.
      by destruct (ev.recvpkt (t o)), (ev.before_write (t o)).
    + cbn [threads released set_pkts set_trace].
      by rewrite issued_threads, issued_writes_threads, flushing_threads,
        received_threads.
Qed.

(** The completion of a request that succeeded.  In a reachable state in
    which the endpoints have not been destroyed, a thread that has dequeued a
    packet with a TRUE result, other than the stop packet, holds the record
    of a request of a live endpoint that has not been deleted; its next step
    dispatches to the endpoint, the dispatch ending with the new read, and
    then deletes the record; and whatever the threads do afterwards, that
    deletion by that thread stays the only deletion of the record. *)
Lemma successful_completion_released_once s tid r :
  reachable s → pc s ≠ finished →
  threads s !! tid = Some (dequeued r) → alert r = true → listener r ≠ all_ones →
  ∃ ev p s',
    listener r = ptr ev ∧ ovl r = Some p ∧
    do_action (thread_runs tid) s = Some s' ∧
    filter (deletes p) (trace s) = [] ∧
    (∃ evs fd n,
       Forall keeps_records evs ∧
       trace s' = trace s ++ ((λ e, (worker tid, e)) <$>
                    (evs ++ [ReadFile fd (readbuf ev) EV_READ_BUF_SZ n; delete_pkt p]))) ∧
    ∀ s'', steps s' s'' →
           filter (deletes p) (trace s'') = [(worker tid, delete_pkt p)].
Proof.
  intros Hreach Hpc Htid Ha Hne.
  assert (Hs : consistent s) by (eapply consistent_steps; [exact Hreach|apply consistent_init]).
  assert (Hin : r ∈ requests s).
  { unfold requests. rewrite !elem_of_app. right. right. apply list_elem_of_omap.
    exists (dequeued r). split; [by eapply list_elem_of_lookup_2|done]. }
  pose proof (consistent_requests s Hs) as [_ Hok].
  rewrite Forall_forall in Hok. specialize (Hok r Hin). unfold request_ok in Hok.
  destruct (listener r) as [| |ev] eqn:Hl, (ovl r) as [p|] eqn:Hovl;
    try done; [congruence|].
  destruct Hok as [[rec Hrec] Hobj]. destruct (Hobj Hpc) as [o Ho].
  destruct (consistent_queues s Hs ev o Ho) as [q Hq].
  assert (Hnot : p ∉ deleted (trace s)).
  { intros Hp. apply (consistent_dead s Hs) in Hp. congruence. }
  destruct (body_logs r ev p rec o q tid s Ha Hl Hovl Hrec Ho Hq)
    as (s1 & evs & n & Hrun & Hevs & Htrace & Hth).
  set (s' := set_threads (<[tid := waiting]> (threads s1)) s1).
  assert (Hdo : do_action (thread_runs tid) s = Some s').
  { cbn [do_action]. by rewrite Htid, Hrun. }
  exists ev, p, s'. split_and!; [done|done|exact Hdo|by apply not_deleted| |].
  { exists evs, (tun_fd (tunif o)), n. split; [exact Hevs|exact Htrace]. }
  intros s'' Hsteps.
  assert (Hs'' : consistent s'').
  { eapply consistent_steps; [exact Hsteps|]. by eapply consistent_do_action. }
  destruct (trace_steps _ _ Hsteps) as [more Hmore].
  change (trace s') with (trace s1) in Hmore. rewrite Htrace in Hmore.
  pose proof (consistent_once s'' Hs'') as Honce.
  rewrite Hmore, fmap_app, !deleted_app, (deleted_tagged _ _ Hevs) in Honce.
  change (deleted ((λ e, (worker tid, e)) <$> [_; delete_pkt p])) with [p] in Honce.
  rewrite <- !app_assoc in Honce. cbn [app] in Honce.
  apply NoDup_app in Honce as (_ & _ & Honce).
  apply NoDup_cons in Honce as [Hmore_p _].
  rewrite Hmore, fmap_app, !filter_app.
  rewrite (not_deleted p (trace s) Hnot).
  rewrite (not_deleted p ((λ e, (worker tid, e)) <$> evs))
    by (rewrite (deleted_tagged _ _ Hevs); apply not_elem_of_nil).
  rewrite (not_deleted p more Hmore_p). cbn [fmap list_fmap app].
  rewrite filter_cons_False by (cbn; tauto).
  rewrite filter_cons_True by (unfold deletes; cbn; by case_bool_decide).
  by rewrite app_nil_r.
Qed.

End single_release.

(** ** The properties at concrete inputs *)

Section tun_examples.
#[local] Existing Instance example_sizes.
#[local] Existing Instance eager_codel.
Import tun.

Lemma run_steps acts s s' : run acts s = Some s' → steps s s'.
Proof.
  intros Hrun. cut (∀ s0, steps s0 s → steps s0 s'); [intros Hc; apply Hc, steps_refl|].
  revert s Hrun. induction acts as [|a acts IH]; intros s Hrun s0 Hs0; cbn in Hrun.
  - by injection Hrun as <-.
  - destruct (do_action a s) as [s1|] eqn:Ha; [|done].
    eapply IH; [exact Hrun|]. by eapply steps_step.
Qed.

Lemma constructed_live : objs (after constructed) !! 0 = Some (Some example_endpoint).
Proof. reflexivity. Qed.

Lemma registered_live : objs (after registered) !! 0 = Some (Some example_endpoint).
Proof. reflexivity. Qed.

Lemma setup_is_fail_fast_witness :
  ∃ s', setup 0 (0%Z, Handle 7) ((-1)%Z, Handle 7) (0%Z, Handle 7) (after constructed)
          = Some (false, s') ∧
        trace s' = [(main, tuntap_start 0); (main, tuntap_set_ip 0)].
Proof.
  destruct (setup_is_fail_fast 0 example_endpoint (0%Z, Handle 7) ((-1)%Z, Handle 7)
              (0%Z, Handle 7) (after constructed) constructed_live)
    as (b & s' & Hrun & Hlog & _ & Hb).
  exists s'. destruct b.
  - exfalso. destruct Hb as [Hb _]. by destruct (Hb eq_refl) as (_ & ? & _).
  - split; [exact Hrun|exact Hlog].
Defined.



Lemma add_ev_starts_pool_once_witness :
  (∃ s', add_ev 0 2 (Some 1) (after constructed) = Some (true, s') ∧
         threads s' = [waiting; waiting; waiting; waiting]) ∧
  (∃ s', add_ev 0 8 None (after registered) = Some (true, s') ∧
         threads s' = [waiting; waiting]) ∧
  length (threads (after write_completed)) = 2.
Proof.
  destruct add_ev_starts_pool_once as (Hfirst & Hnext & Hlater). split_and!.
  - destruct (Hfirst 0 example_endpoint 2%Z (Some 1) (after constructed)
                constructed_live eq_refl) as (s' & Hrun & _ & Hth & _); [lia|].
    exists s'. split; [exact Hrun|exact Hth].
  - destruct (Hnext 0 example_endpoint 8%Z None (after registered) registered_live)
      as (s' & Hrun & _ & Hth & _); [discriminate|].
    exists s'. split; [exact Hrun|exact Hth].
  - refine (proj2 (Hlater (after registered) (after write_completed) _ _)).
    + discriminate.
    + apply (run_steps [call_queue_write 0 [x01; x02; x03]%byte 3; io_completes 1 true 3;
                        thread_dequeues 0; thread_runs 0]). vm_compute. reflexivity.
Defined.

Lemma after_reachable acts s : run acts init = Some s → reachable s.
Proof. apply run_steps. Qed.

Lemma completions_issue_one_read_witness :
  (∃ s', add_ev 0 1 (Some 1) (after constructed) = Some (true, s') ∧
         reads_issued s' = S (reads_issued (after constructed))) ∧
  (∃ s', tun_ev_loop_body read_completion (after read_dequeued) = Some (Continue, s') ∧
         reads_issued s' = S (reads_issued (after read_dequeued))) ∧
  (∃ s', tun_ev_loop_body write_completion (after write_dequeued) = Some (Continue, s') ∧
         reads_issued s' = S (reads_issued (after write_dequeued)) ∧
         pending s' = pending (after write_dequeued)
                      ++ [(0, length (pkts (after write_dequeued)))]).
Proof.
  destruct completions_issue_one_read as (Hreg & Hread & Hwrite). split_and!.
  - destruct (Hreg 0 example_endpoint 1%Z (Some 1) (after constructed) constructed_live)
      as (s' & Hrun & Hreads & _); [lia|].
    exists s'. split; [exact Hrun|exact Hreads].
  - destruct (Hread read_completion 0 0 (standing_read 0 4096) example_endpoint new_queue
                (after read_dequeued)) as (s' & Hrun & Hreads & _);
      [reflexivity..|].
    exists s'. split; [exact Hrun|exact Hreads].
  - destruct (Hwrite write_completion 0 1
                {| write := true; sz := 3; buf := entry_buf [x01; x02; x03]%byte |}
                example_endpoint (after write_dequeued))
      as (s' & Hrun & Hreads & _ & _ & Hpend & _); [reflexivity..|].
    exists s'. split_and!; [exact Hrun|exact Hreads|exact Hpend].
Defined.

(** C3 as stated fails, twice.  The standing read issued at registration is
    still pending, no read has completed, and handling the completion of a
    write has issued a second read on the same endpoint.  And when the
    standing read fails, handling its completion drains nothing and issues no
    read: the read of the registration stays the only one and no request is
    pending. *)
Lemma write_completion_issues_second_read :
  (∃ s, run write_completed init = Some s ∧
        pending s = [(0, 0); (0, 2)] ∧
        pkts s = [Some (standing_read 0 4096); None; Some (standing_read 0 4096)] ∧
        trace s = [(main, CreateIoCompletionPort (Handle 7) NULL (ptr 0) 2);
                   (main, CreateThread 0); (main, CreateThread 1);
                   (main, ReadFile (Handle 7) (readbuf 0) 4096 0);
                   (main, WriteFile (Handle 7) [x01; x02; x03]%byte 3 1);
                   (worker 0, ReadFile (Handle 7) (readbuf 0) 4096 2);
                   (worker 0, delete_pkt 1)]) ∧
  (∃ s, run read_failure_handled init = Some s ∧
        pending s = [] ∧ port s = [] ∧
        trace s = [(main, CreateIoCompletionPort (Handle 7) NULL (ptr 0) 2);
                   (main, CreateThread 0); (main, CreateThread 1);
                   (main, ReadFile (Handle 7) (readbuf 0) 4096 0)]).
Proof.
  split; (eexists; split; [vm_compute; reflexivity|]; split_and!; reflexivity).
Qed.

Lemma exit_tun_loop_stops_one_thread_witness :
  length (filter is_exited (threads (after stopping))) ≤ posted (after stopping) ∧
  posted (after stopping) ≤ 1 ∧
  wait_satisfied 2 (threads (after stopping)) = false.
Proof.
  destruct (exit_tun_loop_stops_one_thread (after stopping)) as (Hex & Hposted & Hwait).
  { apply (after_reachable stopping). vm_compute. reflexivity. }
  split_and!; [exact Hex|exact Hposted|].
  apply Hwait; [unfold MAXIMUM_WAIT_OBJECTS; lia|]. vm_compute. discriminate.
Defined.

(** C1 at two threads and one endpoint: the packet [exit_tun_loop] posted has
    been dequeued by thread 1, which has left its loop; the port is empty,
    thread 0 is still waiting on it, and the wait for both threads is not
    satisfied. *)
Lemma exit_tun_loop_leaves_a_thread :
  ∃ s, run stopping init = Some s ∧
       threads s = [waiting; exited] ∧ port s = [] ∧ pc s = joining 2 ∧
       tun_listeners s = [0] ∧
       wait_satisfied 2 (threads s) = false.
Proof. eexists. split; [vm_compute; reflexivity|]. split_and!; reflexivity. Qed.

End tun_examples.

(** ** Further properties of the readiness loop *)

Section readiness.
Import ev.

Lemma add_ev_fails e o write s :
  objs s !! e = Some (Some o) →
  llarp_win32_loop.add_ev e write (-1) s =
    Some (false, destroyed e (logging [os_upoll_ctl_add (fd o) e write] s)).
Proof.
  intros Hlive. unfold llarp_win32_loop.add_ev, deref, emit, delete. munfold. simpl.
  rewrite Hlive. simpl. rewrite Hlive. reflexivity.
Qed.

Lemma add_ev_dead e write ctl s :
  (∀ o, objs s !! e ≠ Some (Some o)) → llarp_win32_loop.add_ev e write ctl s = None.
Proof.
  intros Hdead. unfold llarp_win32_loop.add_ev, deref. munfold. simpl.
  destruct (objs s !! e) as [[o|]|]; [by destruct (Hdead o)|done..].
Qed.

(** X1.  [add_ev] on a live endpoint makes one [upoll_ctl] and then either
    registers the endpoint, appending it to [handlers] and to the poll set
    and returning true, or, when [upoll_ctl] returns -1, destroys the
    endpoint and returns false, leaving [handlers] as it was (a pointer to
    the endpoint that [handlers] already held stays there). *)
Theorem add_ev_registers_or_destroys e o write ctl s :
  objs s !! e = Some (Some o) →
  ∃ b s', llarp_win32_loop.add_ev e write ctl s = Some (b, s') ∧
    appended s s' [os_upoll_ctl_add (fd o) e write] ∧
    (ctl = (-1)%Z → b = false ∧ objs s' = <[e := None]> (objs s) ∧
                    handlers s' = handlers s ∧ upollfd s' = upollfd s) ∧
    (ctl ≠ (-1)%Z → b = true ∧ objs s' = objs s ∧ handlers s' = handlers s ++ [e] ∧
                    upollfd s' = (λ regs, regs ++ [(fd o, e, write)]) <$> upollfd s).
Proof.
  intros Hlive. destruct (decide (ctl = (-1)%Z)) as [->|Hctl].
  - rewrite (add_ev_fails e o) by done. eexists _, _. split; [reflexivity|].
    split_and!; [done| |done]. by intros _.
  - rewrite (add_ev_registers e o) by done. eexists _, _. split; [reflexivity|].
    split_and!; [done|done|]. by intros _.
Qed.

Lemma add_ev_registers_or_destroys_witness :
  ∃ s', llarp_win32_loop.add_ev 0 true (-1)
          (loop_with_conn {| connected := true; error := true |}) = Some (false, s') ∧
        objs s' = [None] ∧ handlers s' = [0].
Proof.
  destruct (add_ev_registers_or_destroys 0 _ true (-1)
              (loop_with_conn {| connected := true; error := true |}) eq_refl)
    as (b & s' & Hrun & _ & Hfail & _).
  destruct (Hfail eq_refl) as (-> & Hobjs & Hh & _).
  exists s'. split; [exact Hrun|]. split; [exact Hobjs|exact Hh].
Defined.

(** X2.  When the socket is created but [upoll_ctl] refuses it, [add_ev]
    destroys the new connection; [tcp_connect] does not look at what [add_ev]
    returned and calls [connect()] on the destroyed object, which is
    undefined. *)
Theorem tcp_connect_uses_destroyed_connection tcp family sock result err s :
  sock ≠ (-1)%Z →
  llarp_win32_loop.tcp_connect tcp family sock (-1) result err s = None.
Proof.
  intros Hsock. unfold llarp_win32_loop.tcp_connect, new. unfold emit at 1. munfold. cbn.
  destruct (Z.eqb_spec sock (-1)) as [|_]; [done|].
  erewrite add_ev_fails by (by apply list_lookup_middle).
  unfold tcp_conn.connect, deref, destroyed, logging. munfold. cbn.
  rewrite list_lookup_insert_eq; [done|]. rewrite length_app. cbn. lia.
Qed.

Lemma tcp_connect_uses_destroyed_connection_witness :
  llarp_win32_loop.tcp_connect (Some {| connected := true; error := true |})
    AF_INET 4 (-1) 0 0 started_loop = None.
Proof. by apply tcp_connect_uses_destroyed_connection. Defined.

Lemma tcp_serv_read_unfold this o tcp new_fd ctl s :
  objs s !! this = Some (Some o) → impl o = tcp_serv tcp →
  llarp_win32_loop.tcp_serv_read this new_fd ctl s =
    let s1 := logging [os_accept (fd o)] s in
    if (new_fd =? -1)%Z then Some ((-1)%Z, s1)
    else
      (connimpl ← new {| fd := new_fd; _shouldClose := false; impl := tcp_conn 0 None |};
       ok ← llarp_win32_loop.add_ev connimpl true ctl;
       if (ok : bool) then
         when (accepted tcp) (emit (cb_accepted this connimpl));; mret 0%Z
       else delete connimpl;; mret (-1)%Z) s1.
Proof.
  intros Hlive Himpl. unfold llarp_win32_loop.tcp_serv_read, deref.
  unfold mbind at 1, M_bind at 1. unfold mbind at 1, M_bind at 1. unfold get at 1.
  rewrite Hlive. cbn [mret M_ret]. rewrite Himpl.
  unfold mbind at 1, M_bind at 1. unfold emit at 1, modify at 1.
  by destruct (new_fd =? -1)%Z.
Qed.

(** X3.  [tcp_serv::read] makes one [::accept].  If that returns -1 the
    method returns -1 and nothing else happens.  If it returns a descriptor
    and the new connection can be added to the poll set, the method returns
    0, the connection is a new endpoint on that descriptor, registered with
    write interest, and the [accepted] callback, if set, is invoked once,
    after the registration. *)
Theorem tcp_serv_read_accepts this o tcp new_fd ctl s :
  objs s !! this = Some (Some o) → impl o = tcp_serv tcp →
  (new_fd = (-1)%Z →
     llarp_win32_loop.tcp_serv_read this new_fd ctl s
       = Some ((-1)%Z, logging [os_accept (fd o)] s)) ∧
  (new_fd ≠ (-1)%Z → ctl ≠ (-1)%Z →
     ∃ s' conn,
       llarp_win32_loop.tcp_serv_read this new_fd ctl s = Some (0%Z, s') ∧
       objs s' = objs s ++ [Some conn] ∧ fd conn = new_fd ∧
       handlers s' = handlers s ++ [length (objs s)] ∧
       upollfd s' = (λ regs, regs ++ [(new_fd, length (objs s), true)]) <$> upollfd s ∧
       appended s s' ([os_accept (fd o); os_upoll_ctl_add new_fd (length (objs s)) true]
                      ++ if accepted tcp then [cb_accepted this (length (objs s))] else [])).
Proof.
  intros Hlive Himpl. rewrite (tcp_serv_read_unfold this o tcp) by done. split.
  - intros ->. reflexivity.
  - intros Hfd Hctl. cbv zeta. destruct (Z.eqb_spec new_fd (-1)) as [|_]; [done|].
    unfold mbind at 1, M_bind at 1. rewrite new_spec.
    unfold mbind at 1, M_bind at 1.
    erewrite add_ev_registers; [|cbn; by apply list_lookup_middle|done].
    destruct (accepted tcp); (eexists _, _; split; [reflexivity|]);
      cbn; unfold appended; cbn; rewrite <- ?app_assoc; done.
Qed.

Lemma tcp_serv_read_accepts_witness :
  ∃ s', llarp_win32_loop.tcp_serv_read 0 6 0 loop_with_serv = Some (0%Z, s') ∧
        handlers s' = [0; 1] ∧
        trace s' = [os_accept 5; os_upoll_ctl_add 6 1 true; cb_accepted 0 1].
Proof.
  destruct (proj2 (tcp_serv_read_accepts 0 _ {| accepted := true |} 6 0 loop_with_serv
                     eq_refl eq_refl))
    as (s' & conn & Hrun & _ & _ & Hh & _ & Htr); [done..|].
  exists s'. split; [exact Hrun|]. split; [exact Hh|exact Htr].
Defined.

(** X4.  When [::accept] returns a descriptor that [upoll_ctl] refuses,
    [add_ev] destroys the new connection and returns false, and
    [tcp_serv::read] then deletes the same connection again: the behaviour
    is undefined. *)
Theorem tcp_serv_read_deletes_twice this o tcp new_fd s :
  objs s !! this = Some (Some o) → impl o = tcp_serv tcp → new_fd ≠ (-1)%Z →
  llarp_win32_loop.tcp_serv_read this new_fd (-1) s = None.
Proof.
  intros Hlive Himpl Hfd. rewrite (tcp_serv_read_unfold this o tcp) by done.
  cbv zeta. destruct (Z.eqb_spec new_fd (-1)) as [|_]; [done|].
  unfold mbind at 1, M_bind at 1. rewrite new_spec.
  unfold mbind at 1, M_bind at 1.
  erewrite add_ev_fails; [|cbn; by apply list_lookup_middle].
  unfold delete, destroyed, logging. munfold. cbn.
  rewrite list_lookup_insert_eq; [done|]. rewrite length_app. cbn. lia.
Qed.

Lemma tcp_serv_read_deletes_twice_witness :
  llarp_win32_loop.tcp_serv_read 0 6 (-1) loop_with_serv = None.
Proof.
  by apply (tcp_serv_read_deletes_twice 0 _ {| accepted := true |} 6 loop_with_serv
              eq_refl eq_refl).
Defined.

(** *** Sockets: [udp_bind] and [bind_tcp] *)

(** X5.  [udp_bind] changes nothing but the trace of calls.  It returns the
    socket exactly when the family is [AF_INET] or [AF_INET6] and no call
    failed, and then the socket has not been closed; for any other family it
    returns -1 without any call; and when it returns -1 after the socket was
    created, closing the socket is the last thing it did, once. *)
Theorem udp_bind_closes_failed_socket family sock v6only bound s :
  ∃ r evs,
    llarp_win32_loop.udp_bind family sock v6only bound s = Some (r, logging evs s) ∧
    (r ≠ (-1)%Z ↔ binds family sock v6only bound) ∧
    (r ≠ (-1)%Z → r = sock ∧ os_close sock ∉ evs) ∧
    (family ≠ AF_INET → family ≠ AF_INET6 → evs = []) ∧
    (r = (-1)%Z → family = AF_INET ∨ family = AF_INET6 → sock ≠ (-1)%Z →
       ∃ pre, evs = pre ++ [os_close sock] ∧ os_close sock ∉ pre).
Proof.
  unfold llarp_win32_loop.udp_bind, binds.
  destruct (Z.eqb_spec family AF_INET) as [->|H4].
  - destruct (Z.eqb_spec sock (-1)) as [->|Hs].
    { exists (-1)%Z, [os_usocket AF_INET]. split; [reflexivity|].
      split_and!; [intuition congruence|done|done|done]. }
    destruct (Z.eqb_spec bound (-1)) as [->|Hb].
    + exists (-1)%Z, [os_usocket AF_INET; os_bind sock AF_INET sizeof_sockaddr_in;
                      os_close sock].
      split.
      { unfold emit. munfold. cbn. destruct (Z.eqb_spec sock (-1)); [done|].
        unfold logging. cbn. by rewrite <- !app_assoc. }
      split_and!; [intuition congruence|done|done|].
      intros _ _ _. exists [os_usocket AF_INET; os_bind sock AF_INET sizeof_sockaddr_in].
      split; [done|]. rewrite !not_elem_of_cons. split_and!; [done..|apply not_elem_of_nil].
    + exists sock, [os_usocket AF_INET; os_bind sock AF_INET sizeof_sockaddr_in].
      split.
      { unfold emit. munfold. cbn. destruct (Z.eqb_spec sock (-1)); [done|].
        destruct (Z.eqb_spec bound (-1)); [done|].
        unfold logging. cbn. by rewrite <- !app_assoc. }
      split_and!; [intuition|  |done|done].
      intros _. split; [done|].
      rewrite !not_elem_of_cons. split_and!; [done..|apply not_elem_of_nil].
  - destruct (Z.eqb_spec family AF_INET6) as [->|H6].
    2:{ exists (-1)%Z, []. split; [unfold logging; cbn; rewrite app_nil_r; by destruct s|].
        split_and!; [intuition congruence|done|done|]. intros _ [?|?]; done. }
    destruct (Z.eqb_spec sock (-1)) as [->|Hs].
    { exists (-1)%Z, [os_usocket AF_INET6]. split; [reflexivity|].
      split_and!; [intuition congruence|done|done|done]. }
    destruct (Z.eqb_spec v6only (-1)) as [->|Hv].
    { exists (-1)%Z, [os_usocket AF_INET6; os_setsockopt_v6only sock; os_close sock].
      split.
      { unfold emit. munfold. cbn. destruct (Z.eqb_spec sock (-1)); [done|].
        unfold logging. cbn. by rewrite <- !app_assoc. }
      split_and!; [intuition congruence|done|done|].
      intros _ _ _. exists [os_usocket AF_INET6; os_setsockopt_v6only sock].
      split; [done|]. rewrite !not_elem_of_cons. split_and!; [done..|apply not_elem_of_nil]. }
    destruct (Z.eqb_spec bound (-1)) as [->|Hb].
    + exists (-1)%Z, [os_usocket AF_INET6; os_setsockopt_v6only sock;
                      os_bind sock AF_INET6 sizeof_sockaddr_in6; os_close sock].
      split.
      { unfold emit. munfold. cbn. destruct (Z.eqb_spec sock (-1)); [done|].
        destruct (Z.eqb_spec v6only (-1)); [done|].
        unfold logging. cbn. by rewrite <- !app_assoc. }
      split_and!; [intuition congruence|done|done|].
      intros _ _ _. exists [os_usocket AF_INET6; os_setsockopt_v6only sock;
                            os_bind sock AF_INET6 sizeof_sockaddr_in6].
      split; [done|]. rewrite !not_elem_of_cons. split_and!; [done..|apply not_elem_of_nil].
    + exists sock, [os_usocket AF_INET6; os_setsockopt_v6only sock;
                    os_bind sock AF_INET6 sizeof_sockaddr_in6].
      split.
      { unfold emit. munfold. cbn. destruct (Z.eqb_spec sock (-1)); [done|].
        destruct (Z.eqb_spec v6only (-1)); [done|].
        destruct (Z.eqb_spec bound (-1)); [done|].
        unfold logging. cbn. by rewrite <- !app_assoc. }
      split_and!; [intuition| |done|done].
      intros _. split; [done|].
      rewrite !not_elem_of_cons. split_and!; [done..|apply not_elem_of_nil].
Qed.

(** X6.  [bind_tcp] never registers anything: [handlers] and the poll set
    are as before in every case.  When [usocket], [::bind] and [ulisten] all
    succeed it returns a new acceptor on the socket, which is left open;
    otherwise it returns the null pointer, allocates nothing and, if the
    socket had been created, closes it as its last call, once. *)
Theorem bind_tcp_does_not_register tcp family sock bound listening s :
  ∃ r evs s',
    llarp_win32_loop.bind_tcp tcp family sock bound listening s = Some (r, s') ∧
    appended s s' evs ∧ handlers s' = handlers s ∧ upollfd s' = upollfd s ∧
    (sock ≠ (-1)%Z → bound ≠ (-1)%Z → listening ≠ (-1)%Z →
       r = Some (length (objs s)) ∧
       objs s' = objs s ++ [Some {| fd := sock; _shouldClose := false;
                                    impl := tcp_serv tcp |}] ∧
       os_close sock ∉ evs) ∧
    (sock = (-1)%Z ∨ bound = (-1)%Z ∨ listening = (-1)%Z →
       r = None ∧ objs s' = objs s ∧
       (sock ≠ (-1)%Z → ∃ pre, evs = pre ++ [os_close sock] ∧ os_close sock ∉ pre)).
Proof.
  unfold llarp_win32_loop.bind_tcp.
  set (sz := if (family =? AF_INET6)%Z then sizeof_sockaddr_in6
             else if (family =? AF_UNIX)%Z then sizeof_sockaddr_un
             else sizeof_sockaddr_in).
  destruct (Z.eqb_spec sock (-1)) as [->|Hs].
  { exists None, [os_usocket family], (logging [os_usocket family] s).
    split; [reflexivity|]. split_and!; [done..|]. by intros _. }
  destruct (Z.eqb_spec bound (-1)) as [->|Hb].
  { exists None, [os_usocket family; os_bind sock family sz; os_close sock],
      (logging [os_usocket family; os_bind sock family sz; os_close sock] s).
    split.
    { unfold emit. munfold. cbn. destruct (Z.eqb_spec sock (-1)); [done|].
      unfold logging. cbn. by rewrite <- !app_assoc. }
    split_and!; [done..|]. intros _. split_and!; [done..|]. intros _.
    exists [os_usocket family; os_bind sock family sz]. split; [done|].
    rewrite !not_elem_of_cons. split_and!; [done..|apply not_elem_of_nil]. }
  destruct (Z.eqb_spec listening (-1)) as [->|Hl].
  { exists None, [os_usocket family; os_bind sock family sz; os_listen sock; os_close sock],
      (logging [os_usocket family; os_bind sock family sz; os_listen sock; os_close sock] s).
    split.
    { unfold emit. munfold. cbn. destruct (Z.eqb_spec sock (-1)); [done|].
      destruct (Z.eqb_spec bound (-1)); [done|].
      unfold logging. cbn. by rewrite <- !app_assoc. }
    split_and!; [done..|]. intros _. split_and!; [done..|]. intros _.
    exists [os_usocket family; os_bind sock family sz; os_listen sock]. split; [done|].
    rewrite !not_elem_of_cons. split_and!; [done..|apply not_elem_of_nil]. }
  eexists (Some (length (objs s))), [os_usocket family; os_bind sock family sz; os_listen sock], _.
  split.
  { unfold emit, new. munfold. cbn. destruct (Z.eqb_spec sock (-1)); [done|].
    destruct (Z.eqb_spec bound (-1)); [done|].
    destruct (Z.eqb_spec listening (-1)); [done|]. reflexivity. }
  cbn. split_and!; [unfold appended; cbn; by rewrite <- !app_assoc|done|done| |].
  - intros _ _ _. split_and!; [done..|].
    rewrite !not_elem_of_cons. split_and!; [done..|apply not_elem_of_nil].
  - intros [?|[?|?]]; done.
Qed.

(** *** UDP listeners: [udp_listen] and [udp_close] *)

Lemma udp_bind_binds family sock v6only bound s :
  binds family sock v6only bound →
  ∃ evs, llarp_win32_loop.udp_bind family sock v6only bound s = Some (sock, logging evs s).
Proof.
  intros ([->|[-> Hv]] & Hs & Hb); unfold llarp_win32_loop.udp_bind, emit; munfold; cbn;
    destruct (Z.eqb_spec sock (-1)); try done;
    try (destruct (Z.eqb_spec v6only (-1)); [done|]);
    destruct (Z.eqb_spec bound (-1)); try done; cbn;
    eexists; unfold logging; cbn; rewrite <- ?app_assoc; reflexivity.
Qed.

Lemma create_udp_binds l family sock v6only bound s :
  binds family sock v6only bound →
  ∃ evs, llarp_win32_loop.create_udp l family sock v6only bound s =
    Some ((Some (length (objs s)),
           {| llarp_win32_loop.io := llarp_win32_loop.io l;
              llarp_win32_loop.io_impl := Some (length (objs s));
              llarp_win32_loop.io_fd := llarp_win32_loop.io_fd l |}),
          {| objs := objs s ++ [Some {| fd := sock; _shouldClose := false;
                                        impl := udp_listener (llarp_win32_loop.io l) |}];
             handlers := handlers s; upollfd := upollfd s;
             wsa_last_error := wsa_last_error s; trace := trace s ++ evs |}).
Proof.
  intros Hb. destruct (udp_bind_binds _ _ _ _ s Hb) as [evs Hrun].
  exists evs. unfold llarp_win32_loop.create_udp. unfold mbind at 1, M_bind at 1.
  rewrite Hrun. destruct Hb as (_ & Hs & _).
  destruct (Z.eqb_spec sock (-1)); [done|]. reflexivity.
Qed.

Lemma close_ev_spec e o ctl s :
  objs s !! e = Some (Some o) →
  llarp_win32_loop.close_ev e ctl s =
    Some (negb (ctl =? -1)%Z,
          {| objs := objs s; handlers := handlers s;
             upollfd := if (ctl =? -1)%Z then upollfd s
                        else filter (λ r : Z * nat * bool, r.1.2 ≠ e) <$> upollfd s;
             wsa_last_error := wsa_last_error s;
             trace := trace s ++ [os_upoll_ctl_del (fd o)] |}).
Proof.
  intros Hlive. unfold llarp_win32_loop.close_ev, deref, emit, llarp_win32_loop.set_upoll.
  munfold. cbn. rewrite Hlive. cbn. by destruct (ctl =? -1)%Z.
Qed.

Lemma close_ev_dead e ctl s :
  (∀ o, objs s !! e ≠ Some (Some o)) → llarp_win32_loop.close_ev e ctl s = None.
Proof.
  intros Hdead. unfold llarp_win32_loop.close_ev, deref. munfold. cbn.
  destruct (objs s !! e) as [[o|]|]; [by destruct (Hdead o)|done..].
Qed.

Lemma erase_handlers_absent e hs s :
  e ∉ hs → llarp_win32_loop.erase_handlers e hs s = Some (tt, s).
Proof.
  induction hs as [|h hs IH]; [done|]. intros [Hne Hin]%not_elem_of_cons.
  cbn [llarp_win32_loop.erase_handlers]. unfold mbind, M_bind.
  rewrite bool_decide_false by done. cbn. by apply IH.
Qed.

Lemma erase_handlers_once e o h1 h2 s :
  objs s !! e = Some (Some o) → e ∉ h1 → e ∉ h2 →
  llarp_win32_loop.erase_handlers e (h1 ++ e :: h2) s = Some (tt, destroyed e s).
Proof.
  intros Hlive H1 H2. induction h1 as [|h h1 IH]; cbn [app llarp_win32_loop.erase_handlers].
  - unfold mbind, M_bind. rewrite bool_decide_true by done. cbn.
    unfold delete. munfold. rewrite Hlive. cbn. by apply erase_handlers_absent.
  - apply not_elem_of_cons in H1 as [Hne H1]. unfold mbind, M_bind.
    rewrite bool_decide_false by done. cbn. by apply IH.
Qed.

Lemma erase_handlers_dead e h1 h2 s :
  (∀ o, objs s !! e ≠ Some (Some o)) →
  llarp_win32_loop.erase_handlers e (h1 ++ e :: h2) s = None.
Proof.
  intros Hdead. induction h1 as [|h h1 IH]; cbn [app llarp_win32_loop.erase_handlers].
  - unfold mbind, M_bind. rewrite bool_decide_true by done. cbn.
    unfold delete. munfold. destruct (objs s !! e) as [[o|]|]; [by destruct (Hdead o)|done..].
  - unfold mbind, M_bind. destruct (bool_decide (h = e)); cbn; [|exact IH].
    unfold delete. munfold. destruct (objs s !! e) as [[o|]|]; [by destruct (Hdead o)|done..].
Qed.

Lemma filter_out_absent (e : nat) (hs : list nat) : e ∉ hs → filter (λ h : nat, h ≠ e) hs = hs.
Proof.
  induction hs as [|h hs IH]; [done|]. intros [Hne Hin]%not_elem_of_cons.
  rewrite filter_cons_True by done. f_equal. by apply IH.
Qed.

Lemma filter_out_once (e : nat) (h1 h2 : list nat) :
  e ∉ h1 → e ∉ h2 → filter (λ h : nat, h ≠ e) (h1 ++ e :: h2) = h1 ++ h2.
Proof.
  intros H1 H2. rewrite filter_app, filter_cons_False by (intros ?; done).
  by rewrite !filter_out_absent.
Qed.

Lemma udp_close_once l e o ctl h1 h2 s :
  llarp_win32_loop.io_impl l = Some e → objs s !! e = Some (Some o) →
  handlers s = h1 ++ e :: h2 → e ∉ h1 → e ∉ h2 →
  llarp_win32_loop.udp_close l ctl s =
    Some ((true, {| llarp_win32_loop.io := llarp_win32_loop.io l;
                    llarp_win32_loop.io_impl := None;
                    llarp_win32_loop.io_fd := llarp_win32_loop.io_fd l |}),
          {| objs := <[e := None]> (objs s); handlers := h1 ++ h2;
             upollfd := if (ctl =? -1)%Z then upollfd s
                        else filter (λ r : Z * nat * bool, r.1.2 ≠ e) <$> upollfd s;
             wsa_last_error := wsa_last_error s;
             trace := trace s ++ [os_upoll_ctl_del (fd o)] |}).
Proof.
  intros Himpl Hlive Hh H1 H2. unfold llarp_win32_loop.udp_close. rewrite Himpl.
  unfold mbind at 1, M_bind at 1. rewrite (close_ev_spec e o) by done.
  unfold mbind at 1, M_bind at 1, get at 1. cbn [handlers].
  unfold mbind at 1, M_bind at 1. rewrite Hh.
  rewrite (erase_handlers_once e o) by done.
  by rewrite filter_out_once.
Qed.

Lemma udp_close_dead l e ctl s :
  llarp_win32_loop.io_impl l = Some e → (∀ o, objs s !! e ≠ Some (Some o)) →
  llarp_win32_loop.udp_close l ctl s = None.
Proof.
  intros Himpl Hdead. unfold llarp_win32_loop.udp_close. rewrite Himpl.
  unfold mbind at 1, M_bind at 1. by rewrite close_ev_dead.
Qed.

(** X7.  [udp_close] returns false and does nothing when [l->impl] is null.
    For a live listener held once by [handlers] it returns true, whatever
    [upoll_ctl] returned for the removal from the poll set: the listener is
    taken out of [handlers] and destroyed and [l->impl] is cleared.  When
    [l->impl] points to a destroyed listener the call is undefined. *)
Theorem udp_close_unregisters l ctl s :
  (llarp_win32_loop.io_impl l = None →
     llarp_win32_loop.udp_close l ctl s = Some ((false, l), s)) ∧
  (∀ e o h1 h2,
     llarp_win32_loop.io_impl l = Some e → objs s !! e = Some (Some o) →
     handlers s = h1 ++ e :: h2 → e ∉ h1 → e ∉ h2 →
     ∃ l' s', llarp_win32_loop.udp_close l ctl s = Some ((true, l'), s') ∧
       llarp_win32_loop.io_impl l' = None ∧
       handlers s' = h1 ++ h2 ∧ objs s' = <[e := None]> (objs s) ∧
       appended s s' [os_upoll_ctl_del (fd o)]) ∧
  (∀ e, llarp_win32_loop.io_impl l = Some e → (∀ o, objs s !! e ≠ Some (Some o)) →
     llarp_win32_loop.udp_close l ctl s = None).
Proof.
  split_and!.
  - intros Himpl. unfold llarp_win32_loop.udp_close. by rewrite Himpl.
  - intros e o h1 h2 Himpl Hlive Hh H1 H2.
    rewrite (udp_close_once l e o ctl h1 h2) by done.
    eexists _, _. split; [reflexivity|]. done.
  - intros e. apply udp_close_dead.
Qed.

Lemma udp_close_unregisters_witness :
  ∃ l' s', llarp_win32_loop.udp_close listener_io (-1) loop_with_listener
             = Some ((true, l'), s') ∧
           handlers s' = [] ∧ objs s' = [None].
Proof.
  destruct (proj1 (proj2 (udp_close_unregisters listener_io (-1) loop_with_listener))
              0 _ [] [] eq_refl eq_refl eq_refl)
    as (l' & s' & Hrun & _ & Hh & Ho & _); [apply not_elem_of_nil..|].
  exists l', s'. split; [exact Hrun|]. split; [exact Hh|exact Ho].
Defined.

Lemma udp_listen_registers l family sock v6only bound ctl s :
  binds family sock v6only bound → ctl ≠ (-1)%Z →
  ∃ evs, llarp_win32_loop.udp_listen l family sock v6only bound ctl s =
    Some ((true, {| llarp_win32_loop.io := llarp_win32_loop.io l;
                    llarp_win32_loop.io_impl := Some (length (objs s));
                    llarp_win32_loop.io_fd := sock |}),
          {| objs := objs s ++ [Some {| fd := sock; _shouldClose := false;
                                        impl := udp_listener (llarp_win32_loop.io l) |}];
             handlers := handlers s ++ [length (objs s)];
             upollfd := (λ regs, regs ++ [(sock, length (objs s), false)]) <$> upollfd s;
             wsa_last_error := wsa_last_error s;
             trace := (trace s ++ evs) ++ [os_upoll_ctl_add sock (length (objs s)) false] |}).
Proof.
  intros Hb Hctl. destruct (create_udp_binds l _ _ _ _ s Hb) as [evs Hrun].
  exists evs. unfold llarp_win32_loop.udp_listen. unfold mbind at 1, M_bind at 1.
  rewrite Hrun. cbn [fst snd]. unfold deref. munfold. cbn.
  rewrite list_lookup_middle by done. cbn.
  erewrite add_ev_registers; [|cbn; by apply list_lookup_middle|done]. reflexivity.
Qed.

Lemma insert_at_end {A} (l : list A) x y : <[length l := y]> (l ++ [x]) = l ++ [y].
Proof. rewrite insert_app_r_alt by done. by rewrite Nat.sub_diag. Qed.

Lemma udp_listen_fails l family sock v6only bound s :
  binds family sock v6only bound →
  ∃ evs, llarp_win32_loop.udp_listen l family sock v6only bound (-1) s =
    Some ((false, {| llarp_win32_loop.io := llarp_win32_loop.io l;
                     llarp_win32_loop.io_impl := Some (length (objs s));
                     llarp_win32_loop.io_fd := sock |}),
          {| objs := objs s ++ [None]; handlers := handlers s; upollfd := upollfd s;
             wsa_last_error := wsa_last_error s;
             trace := (trace s ++ evs) ++ [os_upoll_ctl_add sock (length (objs s)) false] |}).
Proof.
  intros Hb. destruct (create_udp_binds l _ _ _ _ s Hb) as [evs Hrun].
  exists evs. unfold llarp_win32_loop.udp_listen. unfold mbind at 1, M_bind at 1.
  rewrite Hrun. cbn [fst snd]. unfold deref. munfold. cbn.
  rewrite list_lookup_middle by done. cbn.
  erewrite add_ev_fails; [|cbn; by apply list_lookup_middle].
  unfold destroyed, logging. cbn. by rewrite insert_at_end.
Qed.

(** X8.  When [udp_bind] succeeds and [upoll_ctl] refuses the socket,
    [udp_listen] returns false with the listener destroyed by [add_ev], yet
    the caller's [l->impl], set by [create_udp], still points to it: a
    [udp_close] on that [llarp_udp_io] is undefined. *)
Theorem udp_listen_leaves_dangling_impl l family sock v6only bound s :
  binds family sock v6only bound →
  ∃ l' s',
    llarp_win32_loop.udp_listen l family sock v6only bound (-1) s = Some ((false, l'), s') ∧
    llarp_win32_loop.io_impl l' = Some (length (objs s)) ∧
    objs s' = objs s ++ [None] ∧ handlers s' = handlers s ∧
    ∀ ctl, llarp_win32_loop.udp_close l' ctl s' = None.
Proof.
  intros Hb. destruct (udp_listen_fails l _ _ _ _ s Hb) as [evs Hrun].
  eexists _, _. split; [exact Hrun|]. split_and!; [done..|].
  intros ctl. apply (udp_close_dead _ (length (objs s))); [done|].
  intros o. cbn. by rewrite list_lookup_middle.
Qed.

Lemma udp_listen_leaves_dangling_impl_witness :
  ∃ l' s', llarp_win32_loop.udp_listen unbound_io AF_INET 3 0 0 (-1) started_loop
             = Some ((false, l'), s') ∧
           llarp_win32_loop.io_impl l' = Some 0 ∧ objs s' = [None] ∧
           llarp_win32_loop.udp_close l' 0 s' = None.
Proof.
  destruct (udp_listen_leaves_dangling_impl unbound_io AF_INET 3 0 0 started_loop)
    as (l' & s' & Hrun & Himpl & Hobjs & _ & Hclose).
  { unfold binds. split_and!; [by left|done|done]. }
  exists l', s'. split_and!; [exact Hrun|exact Himpl|exact Hobjs|apply Hclose].
Defined.

(** *** Registered endpoints have been allocated *)

Lemma preserves_get_with {S A} (P : S → Prop) (k : S → M S A) :
  (∀ s0, P s0 → ∀ a s', k s0 s0 = Some (a, s') → P s') → preserves P (get ≫= k).
Proof. intros Hk s a s' HP. unfold mbind, M_bind, get. by apply Hk. Qed.

Lemma in_bounds_new o : preserves in_bounds (new o).
Proof.
  intros s a s' HP [= _ <-]. unfold in_bounds in *. cbn.
  eapply Forall_impl; [exact HP|]. intros h Hh. cbn in Hh. rewrite length_app. lia.
Qed.

Lemma in_bounds_delete e : preserves in_bounds (delete e).
Proof.
  intros s a s' HP. unfold delete. munfold.
  destruct (objs s !! e) as [[o|]|]; [|done..]. intros [= _ <-].
  unfold in_bounds in *. cbn. by rewrite length_insert.
Qed.

Lemma in_bounds_deref e : preserves in_bounds (deref e).
Proof.
  intros s a s' HP. unfold deref. munfold.
  destruct (objs s !! e) as [[o|]|]; [|done..]. by intros [= _ <-].
Qed.

Ltac in_bounds_prim :=
  first [ apply in_bounds_new | apply in_bounds_delete | apply in_bounds_deref
        | apply preserves_modify; let u := fresh in let Hu := fresh in
          intros u Hu; exact Hu ].

Lemma in_bounds_add_ev e write ctl : preserves in_bounds (llarp_win32_loop.add_ev e write ctl).
Proof.
  intros s b s' HP. destruct (objs s !! e) as [[o|]|] eqn:Hlive.
  - destruct (decide (ctl = (-1)%Z)) as [->|Hctl].
    + rewrite (add_ev_fails e o) by done. intros [= _ <-].
      unfold in_bounds in *. cbn. by rewrite length_insert.
    + rewrite (add_ev_registers e o) by done. intros [= _ <-].
      unfold in_bounds in *. cbn. apply Forall_app. split; [exact HP|].
      constructor; [|constructor]. by eapply lookup_lt_Some.
  - rewrite add_ev_dead; [done|]. intros o. by rewrite Hlive.
  - rewrite add_ev_dead; [done|]. intros o. by rewrite Hlive.
Qed.

Lemma in_bounds_erase_handlers e hs :
  preserves in_bounds (llarp_win32_loop.erase_handlers e hs).
Proof.
  induction hs as [|h hs IH]; cbn [llarp_win32_loop.erase_handlers].
  - apply preserves_ret.
  - apply preserves_bind; [|intros ?; exact IH].
    apply preserves_when, in_bounds_delete.
Qed.

Lemma erase_handlers_keeps_handlers e hs h :
  preserves (λ u, handlers u = h) (llarp_win32_loop.erase_handlers e hs).
Proof.
  induction hs as [|x hs IH]; cbn [llarp_win32_loop.erase_handlers].
  - apply preserves_ret.
  - apply preserves_bind; [|intros ?; exact IH]. apply preserves_when.
    intros s a s' HP. unfold delete. munfold.
    destruct (objs s !! e) as [[o|]|]; [|done..]. by intros [= _ <-].
Qed.

Lemma in_bounds_udp_close l ctl : preserves in_bounds (llarp_win32_loop.udp_close l ctl).
Proof.
  unfold llarp_win32_loop.udp_close. destruct (llarp_win32_loop.io_impl l) as [e|];
    [|apply preserves_ret].
  apply preserves_bind.
  { unfold llarp_win32_loop.close_ev, llarp_win32_loop.set_upoll, emit.
    preserves_with in_bounds_prim. }
  intros _. apply preserves_get_with. intros s0 HP a s'. unfold mbind, M_bind.
  destruct (llarp_win32_loop.erase_handlers e (handlers s0) s0) as [[[] s1]|] eqn:Herase;
    [|done].
  intros [= _ <-].
  pose proof (in_bounds_erase_handlers e _ _ _ _ HP Herase) as HP1.
  pose proof (erase_handlers_keeps_handlers e _ (handlers s0) _ _ _ eq_refl Herase) as Hh.
  unfold in_bounds in *. cbn. rewrite Forall_forall in HP1. apply Forall_forall.
  intros x [_ Hx]%list_elem_of_filter. apply HP1. by rewrite Hh.
Qed.

Lemma in_bounds_do_call c s s' :
  in_bounds s → llarp_win32_loop.do_call c s = Some s' → in_bounds s'.
Proof.
  intros HP. destruct c; cbn [llarp_win32_loop.do_call];
    apply preserves_exec; try exact HP.
  - unfold llarp_win32_loop.init, llarp_win32_loop.set_upoll. preserves_with in_bounds_prim.
  - unfold llarp_win32_loop.tcp_connect, tcp_conn.connect, emit, set_last_error.
    preserves_with ltac:(first [in_bounds_prim | apply in_bounds_add_ev]).
  - unfold llarp_win32_loop.bind_tcp, emit. preserves_with in_bounds_prim.
  - unfold llarp_win32_loop.udp_listen, llarp_win32_loop.create_udp,
      llarp_win32_loop.udp_bind, emit.
    preserves_with ltac:(first [in_bounds_prim | apply in_bounds_add_ev]).
  - unfold llarp_win32_loop.create_tun. preserves_with in_bounds_prim.
  - apply in_bounds_add_ev.
  - unfold llarp_win32_loop.close_ev, llarp_win32_loop.set_upoll, emit.
    preserves_with in_bounds_prim.
  - apply in_bounds_udp_close.
  - unfold udp_listener.sendto, emit. preserves_with in_bounds_prim.
  - unfold llarp_win32_loop.tcp_serv_read, emit.
    preserves_with ltac:(first [in_bounds_prim | apply in_bounds_add_ev]).
  - unfold tcp_conn.flush_write, emit. preserves_with in_bounds_prim.
Qed.

Lemma in_bounds_steps s s' : llarp_win32_loop.steps s s' → in_bounds s → in_bounds s'.
Proof.
  induction 1 as [|s c s' s'' _ IH Hc]; [done|].
  intros HP. eapply in_bounds_do_call; [|exact Hc]. by apply IH.
Qed.

Lemma in_bounds_reachable s : llarp_win32_loop.reachable s → in_bounds s.
Proof. intros Hs. eapply in_bounds_steps; [exact Hs|]. constructor. Qed.

Lemma started_loop_reachable : llarp_win32_loop.reachable started_loop.
Proof.
  apply llarp_win32_loop.steps_step with
    (c := llarp_win32_loop.call_init true) (s' := llarp_win32_loop.init_loop);
    [apply llarp_win32_loop.steps_refl|reflexivity].
Qed.

(** X9.  In a state the loop reaches, a [udp_listen] that succeeds followed
    by [udp_close] on the same [llarp_udp_io] leaves [handlers] as it was
    before the two calls: the listener was appended to [handlers], with the
    caller's [impl] and [fd] set, and is removed again and destroyed, with
    [impl] cleared. *)
Theorem udp_listen_then_udp_close l family sock v6only bound ctl ctl' s :
  llarp_win32_loop.reachable s → binds family sock v6only bound → ctl ≠ (-1)%Z →
  ∃ l' s' l'' s'',
    llarp_win32_loop.udp_listen l family sock v6only bound ctl s = Some ((true, l'), s') ∧
    llarp_win32_loop.io_impl l' = Some (length (objs s)) ∧
    llarp_win32_loop.io_fd l' = sock ∧
    handlers s' = handlers s ++ [length (objs s)] ∧
    llarp_win32_loop.udp_close l' ctl' s' = Some ((true, l''), s'') ∧
    llarp_win32_loop.io_impl l'' = None ∧
    handlers s'' = handlers s ∧ objs s'' = objs s ++ [None].
Proof.
  intros Hs Hb Hctl. destruct (udp_listen_registers l _ _ _ _ ctl s Hb Hctl) as [evs Hrun].
  assert (Hfresh : length (objs s) ∉ handlers s).
  { intros Hin. apply in_bounds_reachable in Hs. unfold in_bounds in Hs.
    rewrite Forall_forall in Hs. apply Hs in Hin. lia. }
  eexists _, _, _, _. split; [exact Hrun|]. split_and!; [done..| | | |].
  - apply (udp_close_once _ (length (objs s))
             {| fd := sock; _shouldClose := false;
                impl := udp_listener (llarp_win32_loop.io l) |} ctl' (handlers s) []);
      [done| |done|done|apply not_elem_of_nil].
    cbn. by apply list_lookup_middle.
  - done.
  - cbn. by rewrite app_nil_r.
  - cbn. by rewrite insert_at_end.
Qed.

Lemma udp_listen_then_udp_close_witness :
  ∃ l' s' l'' s'',
    llarp_win32_loop.udp_listen unbound_io AF_INET 3 0 0 0 started_loop
      = Some ((true, l'), s') ∧
    handlers s' = [0] ∧
    llarp_win32_loop.udp_close l' 0 s' = Some ((true, l''), s'') ∧
    handlers s'' = [] ∧ objs s'' = [None].
Proof.
  destruct (udp_listen_then_udp_close unbound_io AF_INET 3 0 0 0 0 started_loop)
    as (l' & s' & l'' & s'' & Hrun & _ & _ & Hh & Hclose & _ & Hh' & Ho).
  { exact started_loop_reachable. }
  { unfold binds. split_and!; [by left|done|done]. }
  { done. }
  exists l', s', l'', s''. split_and!; [exact Hrun|exact Hh|exact Hclose|exact Hh'|exact Ho].
Defined.

(** *** [init], [running] and [stop] *)

Lemma init_spec created s :
  llarp_win32_loop.init created s =
    if llarp_win32_loop.running s then Some (true, s)
    else Some (created, {| objs := objs s; handlers := handlers s;
                           upollfd := if created then Some [] else None;
                           wsa_last_error := wsa_last_error s; trace := trace s |}).
Proof.
  unfold llarp_win32_loop.init, llarp_win32_loop.running, llarp_win32_loop.set_upoll.
  munfold. destruct (upollfd s) as [u|] eqn:Hu.
  - rewrite bool_decide_false by done. rewrite (bool_decide_true (Some u ≠ None)) by done.
    rewrite Hu. by rewrite bool_decide_true.
  - rewrite bool_decide_true by done. rewrite (bool_decide_false (None ≠ None)) by auto.
    cbn. destruct created; [by rewrite bool_decide_true|by rewrite bool_decide_false; auto].
Qed.

(** X10.  [init] returns whether the loop has a poll set afterwards.  On a
    loop that has one it returns true and changes nothing; on a loop that has
    none it returns whether [upoll_create] gave one.  After an [init] that
    returned true every further [init] returns true and changes nothing. *)
Theorem init_is_idempotent created created' s :
  ∃ b s', llarp_win32_loop.init created s = Some (b, s') ∧
    llarp_win32_loop.running s' = b ∧
    (llarp_win32_loop.running s = true → b = true ∧ s' = s) ∧
    (llarp_win32_loop.running s = false → b = created) ∧
    (b = true → llarp_win32_loop.init created' s' = Some (true, s')).
Proof.
  rewrite init_spec. destruct (llarp_win32_loop.running s) eqn:Hr.
  - exists true, s. split_and!; [done..|]. intros _. by rewrite init_spec, Hr.
  - eexists _, _. split; [reflexivity|]. split_and!; [|done|done|].
    + unfold llarp_win32_loop.running. cbn. by destruct created.
    + by intros ->.
Qed.

Ltac polling_prim :=
  first [ apply preserves_modify; let u := fresh in let Hu := fresh in
          intros u Hu; exact Hu
        | let u := fresh in let Hu := fresh in
          intros u ? ? Hu; unfold new, delete, deref; munfold;
          repeat match goal with
                 | |- context [match ?x with _ => _ end] => destruct x
                 end;
          try discriminate; intros [= _ <-]; exact Hu ].

Lemma polling_init created : preserves polling (llarp_win32_loop.init created).
Proof.
  intros s b s' HP. rewrite init_spec. unfold llarp_win32_loop.running.
  rewrite bool_decide_true by exact HP. by intros [= _ <-].
Qed.

Lemma polling_add_ev e write ctl : preserves polling (llarp_win32_loop.add_ev e write ctl).
Proof.
  intros s b s' HP. destruct (objs s !! e) as [[o|]|] eqn:Hlive.
  - destruct (decide (ctl = (-1)%Z)) as [->|Hctl].
    + rewrite (add_ev_fails e o) by done. by intros [= _ <-].
    + rewrite (add_ev_registers e o) by done. intros [= _ <-].
      unfold polling in *. cbn. by destruct (upollfd s).
  - rewrite add_ev_dead; [done|]. intros o. by rewrite Hlive.
  - rewrite add_ev_dead; [done|]. intros o. by rewrite Hlive.
Qed.

Lemma polling_close_ev e ctl : preserves polling (llarp_win32_loop.close_ev e ctl).
Proof.
  intros s b s' HP. destruct (objs s !! e) as [[o|]|] eqn:Hlive.
  - rewrite (close_ev_spec e o) by done. intros [= _ <-].
    unfold polling in *. cbn. by destruct (ctl =? -1)%Z, (upollfd s).
  - rewrite close_ev_dead; [done|]. intros o. by rewrite Hlive.
  - rewrite close_ev_dead; [done|]. intros o. by rewrite Hlive.
Qed.

Lemma polling_erase_handlers e hs :
  preserves polling (llarp_win32_loop.erase_handlers e hs).
Proof.
  induction hs as [|h hs IH]; cbn [llarp_win32_loop.erase_handlers].
  - apply preserves_ret.
  - apply preserves_bind; [|intros ?; exact IH]. apply preserves_when. polling_prim.
Qed.

Lemma polling_do_call c s s' :
  polling s → llarp_win32_loop.do_call c s = Some s' → polling s'.
Proof.
  intros HP. destruct c; cbn [llarp_win32_loop.do_call];
    apply preserves_exec; try exact HP.
  - apply polling_init.
  - unfold llarp_win32_loop.tcp_connect, tcp_conn.connect, emit, set_last_error.
    preserves_with ltac:(first [apply polling_add_ev | polling_prim]).
  - unfold llarp_win32_loop.bind_tcp, emit. preserves_with polling_prim.
  - unfold llarp_win32_loop.udp_listen, llarp_win32_loop.create_udp,
      llarp_win32_loop.udp_bind, emit.
    preserves_with ltac:(first [apply polling_add_ev | polling_prim]).
  - unfold llarp_win32_loop.create_tun. preserves_with polling_prim.
  - apply polling_add_ev.
  - apply polling_close_ev.
  - unfold llarp_win32_loop.udp_close, llarp_win32_loop.set_handlers.
    preserves_with ltac:(first [apply polling_close_ev | apply polling_erase_handlers
                               | polling_prim]).
  - unfold udp_listener.sendto, emit. preserves_with polling_prim.
  - unfold llarp_win32_loop.tcp_serv_read, emit.
    preserves_with ltac:(first [apply polling_add_ev | polling_prim]).
  - unfold tcp_conn.flush_write, emit. preserves_with polling_prim.
Qed.

(** X11.  [stop] changes nothing, and no operation of the loop resets the
    poll set: once [running] is true it stays true, and with it the condition
    [while(upollfd)] on which [run] repeats. *)
Theorem loop_cannot_be_stopped :
  (∀ s, llarp_win32_loop.stop s = Some (tt, s)) ∧
  (∀ s s', llarp_win32_loop.steps s s' →
     llarp_win32_loop.running s = true → llarp_win32_loop.running s' = true).
Proof.
  split; [done|]. intros s s' Hsteps Hr.
  assert (Hs : polling s) by (by apply bool_decide_eq_true in Hr).
  apply bool_decide_eq_true. change (polling s').
  induction Hsteps as [|s c s' s'' _ IH Hc]; [done|].
  eapply polling_do_call; [|exact Hc]. by apply IH.
Qed.

Lemma loop_cannot_be_stopped_witness :
  llarp_win32_loop.stop loop_after_refusal = Some (tt, loop_after_refusal) ∧
  llarp_win32_loop.running loop_after_refusal = true.
Proof.
  split; [apply (proj1 loop_cannot_be_stopped)|].
  apply (proj2 loop_cannot_be_stopped started_loop loop_after_refusal); [|reflexivity].
  apply llarp_win32_loop.steps_step with
    (c := llarp_win32_loop.call_tcp_connect (Some {| connected := true; error := true |})
            AF_INET 4 0 (-1) WSAECONNREFUSED) (s' := started_loop);
    [apply llarp_win32_loop.steps_refl|reflexivity].
Defined.

(** *** The data path: [tcp_conn::read], [tcp_conn::do_write], [udp_listener::read] *)

(** X12.  A [tcp_conn::read] on an open connection whose [uread] returns 0
    or less returns -1 and marks the connection as closing; from then on
    every [read] and every [do_write] on it returns -1 without calling the
    operating system or the [read] callback. *)
Theorem tcp_conn_read_failure_is_sticky o tcp_read sz amount :
  _shouldClose o = false → (amount ≤ 0)%Z →
  ∃ o', tcp_conn.read o tcp_read sz amount = ((-1)%Z, o', [os_uread (fd o) sz]) ∧
    fd o' = fd o ∧ impl o' = impl o ∧
    ∀ tcp_read' sz' amount' written',
      tcp_conn.read o' tcp_read' sz' amount' = ((-1)%Z, o', []) ∧
      tcp_conn.do_write o' sz' written' = ((-1)%Z, []).
Proof.
  intros Hopen Hamount. unfold tcp_conn.read. rewrite Hopen.
  destruct (Z.ltb_spec 0 amount) as [|_]; [lia|].
  eexists. split; [reflexivity|]. split_and!; [done..|]. by intros.
Qed.

Lemma tcp_conn_read_failure_is_sticky_witness :
  ∃ o', tcp_conn.read open_conn true 1500 0 = ((-1)%Z, o', [os_uread 4 1500]) ∧
        tcp_conn.read o' true 1500 60 = ((-1)%Z, o', []) ∧
        tcp_conn.do_write o' 10 10 = ((-1)%Z, []).
Proof.
  destruct (tcp_conn_read_failure_is_sticky open_conn true 1500 0 eq_refl)
    as (o' & Hrun & _ & _ & Hafter); [lia|].
  exists o'. split; [exact Hrun|].
  split; [exact (proj1 (Hafter true 1500%Z 60%Z 10%Z))|].
  exact (proj2 (Hafter true 10%Z 0%Z 10%Z)).
Defined.

(** X13.  Whenever [udp_listener::read] returns, it has made one
    [::recvfrom] and returns 0 or -1; it returns 0 exactly when [::recvfrom]
    returned a length between 0 and the size of the buffer, and only then
    does it invoke the [recvfrom] callback, once, with that length: the
    callback is never handed more than the buffer holds. *)
Theorem udp_listener_read_bounds o udp_recvfrom sz ret r calls :
  udp_listener.read o udp_recvfrom sz ret = Some (r, calls) →
  (r = 0%Z ∨ r = (-1)%Z) ∧
  (r = 0%Z ↔ (0 ≤ ret ≤ sz)%Z) ∧
  (∀ n, cb_udp_recvfrom n ∈ calls → n = ret ∧ (0 ≤ n ≤ sz)%Z ∧ r = 0%Z) ∧
  (r = 0%Z → calls = [os_recvfrom (fd o) sz; cb_udp_recvfrom ret]) ∧
  (r = (-1)%Z → calls = [os_recvfrom (fd o) sz]).
Proof.
  unfold udp_listener.read. intros Hrun.
  assert (Hcases : (r = (-1)%Z ∧ calls = [os_recvfrom (fd o) sz] ∧ ¬ (0 ≤ ret ≤ sz)%Z) ∨
                   (r = 0%Z ∧ calls = [os_recvfrom (fd o) sz; cb_udp_recvfrom ret] ∧
                    (0 ≤ ret ≤ sz)%Z)).
  { destruct (Z.ltb_spec ret 0); [injection Hrun as <- <-; left; split_and!; [done..|lia]|].
    destruct (Z.ltb_spec sz ret); [injection Hrun as <- <-; left; split_and!; [done..|lia]|].
    destruct udp_recvfrom; [|done]. injection Hrun as <- <-. right. split_and!; [done..|lia]. }
  destruct Hcases as [(-> & -> & Hout)|(-> & -> & Hin)].
  - split; [by right|]. split; [split; [done|lia]|]. split; [|done].
    intros n [Hn|Hn%elem_of_nil]%elem_of_cons; done.
  - split; [by left|]. split; [done|]. split; [|done].
    intros n [Hn|[Hn|Hn%elem_of_nil]%elem_of_cons]%elem_of_cons; [done| |done].
    by injection Hn as ->.
Qed.

Lemma udp_listener_read_bounds_witness :
  udp_listener.read open_conn true 1500 60
    = Some (0%Z, [os_recvfrom 4 1500; cb_udp_recvfrom 60]) ∧
  (0 ≤ 60 ≤ 1500)%Z.
Proof.
  split; [reflexivity|].
  apply (proj1 (proj2 (udp_listener_read_bounds open_conn true 1500 60 0
                         [os_recvfrom 4 1500; cb_udp_recvfrom 60] eq_refl))).
  reflexivity.
Defined.
End readiness.

(** ** Further properties of the completion path *)

Section completion.
Context `{!EvSizes, !CoDel}.
Import tun.

Lemma destroy_spec e o s :
  objs s !! e = Some (Some o) → destroy e s = Some (tt, destroying e s).
Proof.
  intros Hlive. unfold destroy, destroying, destructor_calls, emit.
  unfold mbind at 1, M_bind at 1. rewrite (deref_live _ _ _ Hlive), Hlive.
  munfold. cbn. case_bool_decide; cbn; [done|]. by rewrite <- app_assoc.
Qed.

Lemma destroy_dead e s : ¬ live_obj s e → destroy e s = None.
Proof.
  intros Hdead. unfold destroy, deref. munfold.
  destruct (objs s !! e) as [[o|]|] eqn:E; [|done..]. destruct Hdead. by exists o.
Qed.

Lemma for_each_destroy_defined es s :
  is_Some (for_each destroy es s) ↔ NoDup es ∧ ∀ e, e ∈ es → live_obj s e.
Proof.
  revert s. induction es as [|e es IH]; intros s.
  - cbn. split; [intros _; split; [constructor|by intros ? ?%elem_of_nil]|by eexists].
  - cbn [for_each]. unfold mbind, M_bind.
    destruct (objs s !! e) as [[o|]|] eqn:Ho.
    2,3: rewrite destroy_dead by (intros [? ?]; congruence);
         (split; [by intros [? [=]]|]); intros [_ Hall];
         destruct (Hall e) as [? ?]; [by left|congruence].
    rewrite (destroy_spec e o) by done. rewrite IH. rewrite NoDup_cons.
    assert (Hkill : ∀ x, live_obj (destroying e s) x ↔ x ≠ e ∧ live_obj s x).
    { intros x. unfold live_obj, destroying. cbn. destruct (decide (x = e)) as [->|Hne].
      - rewrite list_lookup_insert_eq by (by eapply lookup_lt_Some).
        split; [by intros [? [=]]|by intros [? _]].
      - rewrite list_lookup_insert_ne by done. split; [by intros ?|by intros [_ ?]]. }
    split.
    + intros [Hnd Hall]. split_and!; [|done|].
      * intros Hin. by apply Hall, Hkill in Hin as [? _].
      * intros x [->|Hin]%elem_of_cons; [by exists o|]. by apply Hall, Hkill in Hin as [_ ?].
    + intros [[Hnotin Hnd] Hall]. split; [done|]. intros x Hin. apply Hkill.
      split; [by intros ->|]. apply Hall. by right.
Qed.

Lemma bind_ext_in {A B} (f g : A → list B) (l : list A) :
  (∀ x, x ∈ l → f x = g x) → l ≫= f = l ≫= g.
Proof.
  induction l as [|x l IH]; [done|]. intros Heq. cbn.
  rewrite Heq by (by left). f_equal. apply IH. intros y Hy. apply Heq. by right.
Qed.

(** What destroying distinct live endpoints does, one after the other. *)
Lemma for_each_destroy_spec es s :
  NoDup es → (∀ e, e ∈ es → live_obj s e) →
  ∃ s', for_each destroy es s = Some (tt, s') ∧
    trace s' = trace s ++ ((λ ev, (cur s, ev)) <$> (es ≫= destructor_calls s)) ∧
    (∀ e, e ∈ es → objs s' !! e = Some None) ∧
    (∀ e, e ∉ es → objs s' !! e = objs s !! e) ∧
    cur s' = cur s ∧ tun_listeners s' = tun_listeners s ∧
    tun_event_queue s' = tun_event_queue s ∧ threads s' = threads s ∧
    pkts s' = pkts s ∧ pending s' = pending s ∧ port s' = port s.
Proof.
  revert s. induction es as [|e es IH]; intros s Hnd Hall.
  { exists s. cbn. rewrite app_nil_r. split_and!; try done. by intros ? ?%elem_of_nil. }
  apply NoDup_cons in Hnd as [Hnotin Hnd].
  destruct (Hall e) as [o Ho]; [by left|].
  destruct (IH (destroying e s) Hnd) as (s' & Hrun & Htr & Hdead & Hsame & Hframe).
  { intros x Hin. destruct (Hall x) as [ox Hox]; [by right|]. exists ox.
    unfold destroying. cbn. rewrite list_lookup_insert_ne; [done|]. by intros ->. }
  exists s'. cbn [for_each]. unfold mbind, M_bind. rewrite (destroy_spec e o) by done.
  split; [exact Hrun|]. split_and!; try (by destruct Hframe as (? & ? & ? & ? & ? & ? & ?)).
  - rewrite Htr. rewrite (bind_ext_in (destructor_calls (destroying e s)) (destructor_calls s)).
    + cbn. by rewrite <- app_assoc, fmap_app.
    + intros x Hin. unfold destructor_calls, destroying. cbn.
      rewrite list_lookup_insert_ne; [done|]. by intros ->.
  - intros x [->|Hin]%elem_of_cons; [|by apply Hdead].
    rewrite Hsame by done. unfold destroying. cbn.
    apply list_lookup_insert_eq. by eapply lookup_lt_Some.
  - intros x [Hne Hnot]%not_elem_of_cons. rewrite Hsame by done.
    unfold destroying. cbn. by rewrite list_lookup_insert_ne.
Qed.

(** X14.  When the registered endpoints are distinct and alive, the part of
    [exit_tun_loop] after the wait, for a count [i] of handles within the
    pool, closes the thread handles, frees the pool, destroys the endpoints in the order they were registered (each
    with [CancelIo] on its descriptor and then, unless the descriptor is
    null, [tuntap_destroy]), empties [tun_listeners] and only then closes the
    port; no other endpoint is touched. *)
Theorem exit_tun_loop_releases_in_order i s :
  (i ≤ Z.of_nat (length (threads s)))%Z →
  NoDup (tun_listeners s) → (∀ e, e ∈ tun_listeners s → live_obj s e) →
  ∃ s', exit_tun_loop_finish i s = Some (tt, s') ∧
    logged s s' ((CloseHandle_thread <$> seq 0 (Z.to_nat i)) ++ [delete_kThreadPool] ++
                 (tun_listeners s ≫= destructor_calls s) ++
                 [CloseHandle (tun_event_queue s)]) ∧
    tun_listeners s' = [] ∧
    (∀ e, e ∈ tun_listeners s → objs s' !! e = Some None) ∧
    (∀ e, e ∉ tun_listeners s → objs s' !! e = objs s !! e).
Proof.
  intros Hi Hnd Hall. unfold exit_tun_loop_finish.
  unfold mbind at 1, M_bind at 1, get at 1.
  destruct (Z.ltb_spec (Z.of_nat (length (threads s))) i) as [|_]; [lia|].
  unfold mbind at 1, M_bind at 1. cbn [mret M_ret].
  unfold mbind at 1, M_bind at 1. rewrite for_each_emit_spec.
  unfold mbind at 1, M_bind at 1. unfold emit at 1, modify at 1.
  unfold mbind at 1, M_bind at 1. unfold get at 1.
  set (s1 := set_trace _ _).
  destruct (for_each_destroy_spec (tun_listeners s) s1 Hnd Hall)
    as (s2 & Hrun & Htr & Hdead & Hsame & Hcur & Hl & Hq & _).
  unfold mbind at 1, M_bind at 1. change (tun_listeners s1) with (tun_listeners s).
  rewrite Hrun. unfold emit. munfold. cbn.
  eexists. split; [reflexivity|]. cbn. split_and!; [|done|done|done].
  unfold logged. cbn. rewrite Htr, Hcur. cbn.
  change (destructor_calls s1) with (destructor_calls s).
  rewrite !fmap_app, <- !app_assoc. cbn. by rewrite <- !list_fmap_compose, !fmap_app.
Qed.

(** X15.  The part of [exit_tun_loop] after the wait, for a count [i] of
    handles within the pool, is defined exactly when [tun_listeners] holds
    distinct, live endpoints: an endpoint that was
    registered twice, or destroyed before, is deleted a second time. *)
Theorem exit_tun_loop_needs_distinct_live_endpoints i s :
  (i ≤ Z.of_nat (length (threads s)))%Z →
  is_Some (exit_tun_loop_finish i s) ↔
  NoDup (tun_listeners s) ∧ ∀ e, e ∈ tun_listeners s → live_obj s e.
Proof.
  intros Hi. unfold exit_tun_loop_finish.
  unfold mbind at 1, M_bind at 1, get at 1.
  destruct (Z.ltb_spec (Z.of_nat (length (threads s))) i) as [|_]; [lia|].
  unfold mbind at 1, M_bind at 1. cbn [mret M_ret].
  unfold mbind at 1, M_bind at 1. rewrite for_each_emit_spec.
  unfold mbind at 1, M_bind at 1. unfold emit at 1, modify at 1.
  unfold mbind at 1, M_bind at 1. unfold get at 1.
  set (s1 := set_trace _ _).
  etrans; [|apply (for_each_destroy_defined (tun_listeners s) s1)].
  change (tun_listeners s1) with (tun_listeners s).
  unfold mbind, M_bind.
  destruct (for_each destroy (tun_listeners s) s1) as [[[] s2]|]; [|done].
  split; by eexists.
Qed.

(** X18.  In a state the process reaches, [queue_write] on a live endpoint
    returns true: the write queue, created by the constructor, is never
    reset, so the branch that returns false is not taken, and a payload the
    queue does not take is not reported. *)
Theorem queue_write_never_reports_failure s ev o buf sz :
  reachable s → objs s !! ev = Some (Some o) →
  ∃ s', queue_write ev buf sz s = Some (true, s').
Proof.
  intros Hs Hlive.
  assert (Hc : consistent s) by (eapply consistent_steps; [exact Hs|apply consistent_init]).
  destruct (consistent_queues s Hc ev o Hlive) as [q Hq].
  eexists. by apply (queue_write_spec ev o q).
Qed.

(** *** The size of the reads *)

Ltac standing_side :=
  let u := fresh in let Hu := fresh in
  intros u Hu; cbn;
  first [ exact Hu
        | apply Forall_app; split; [exact Hu|];
          constructor; [|constructor]; cbn; auto ].

Lemma standing_do_action a s s' :
  Forall standing (trace s) → do_action a s = Some s' → Forall standing (trace s').
Proof.
  intros HP. assert (HPm : Forall standing (trace (set_cur main s))) by exact HP.
  destruct a as [tio dev|ev start set_ip up|ev numCPU created|ev data len|dt|k ok n
                |tid|tid|i|]; cbn [do_action]; unfold by_main.
  - destruct (pc s); [|done..].
    apply (preserves_exec (λ u, Forall standing (trace u))); [|exact HPm].
    frame standing_side.
  - destruct (pc s); [|done..].
    apply (preserves_exec (λ u, Forall standing (trace u))); [|exact HPm].
    frame standing_side.
  - destruct (pc s); [|done..].
    apply (preserves_exec (λ u, Forall standing (trace u))); [|exact HPm].
    unfold add_ev, begin_tun_loop. frame standing_side.
  - destruct (pc s); [|done..].
    apply (preserves_exec (λ u, Forall standing (trace u))); [|exact HPm].
    frame standing_side.
  - destruct (0 <=? dt)%Z; [|done]. by intros [= <-].
  - destruct (pending s !! k) as [[e p]|]; [|done]. intros [= <-].
    by destruct (port_open s).
  - destruct (threads s !! tid) as [[]|]; [|done..].
    by destruct (port s); intros [= <-].
  - destruct (threads s !! tid) as [[|r|]|]; [done| |done..].
    destruct (tun_ev_loop_body r (set_cur (worker tid) s)) as [[c s1]|] eqn:Hrun; [|done].
    assert (HP1 : Forall standing (trace s1)).
    { eapply (preserves_exec (λ u, Forall standing (trace u)) (tun_ev_loop_body r)
                (set_cur (worker tid) s)); [|done|unfold exec; by rewrite Hrun].
      frame standing_side. }
    by destruct c; intros [= <-].
  - destruct (pc s); [|done..]. unfold exec.
    destruct (exit_tun_loop_post i (set_cur main s)) as [[u s1]|] eqn:Hrun; [|done].
    intros [= <-]. cbn.
    eapply (preserves_exec (λ u, Forall standing (trace u)) (exit_tun_loop_post i)
              (set_cur main s)); [|done|unfold exec; by rewrite Hrun].
    frame standing_side.
  - destruct (pc s) as [|i|]; [done| |done].
    destruct (wait_satisfied i (threads s)); [|done]. unfold exec.
    destruct (exit_tun_loop_finish i (set_cur main s)) as [[u s1]|] eqn:Hrun; [|done].
    intros [= <-]. cbn.
    eapply (preserves_exec (λ u, Forall standing (trace u)) (exit_tun_loop_finish i)
              (set_cur main s)); [|done|unfold exec; by rewrite Hrun].
    frame standing_side.
Qed.

Lemma standing_steps s s' :
  steps s s' → Forall standing (trace s) → Forall standing (trace s').
Proof.
  induction 1 as [|s a s' s'' _ IH Ha]; [done|].
  intros HP. eapply standing_do_action; [|exact Ha]. by apply IH.
Qed.

(** X17.  Every read the process ever issues is into the [readbuf] of an
    endpoint and asks for 4096 bytes (the read of [add_ev]) or for
    [sizeof(readbuf)] bytes (the reads of [tun_ev_loop]); so no read asks for
    more than the buffer holds provided the buffer has at least 4096
    bytes. *)
Theorem reads_fit_the_read_buffer s c fd buf sz n :
  reachable s → (c, ReadFile fd buf sz n) ∈ trace s →
  (∃ ev, buf = readbuf ev) ∧ (sz = 4096%Z ∨ sz = EV_READ_BUF_SZ) ∧
  ((4096 ≤ EV_READ_BUF_SZ)%Z → (sz ≤ EV_READ_BUF_SZ)%Z).
Proof.
  intros Hs Hin.
  assert (Hall : Forall standing (trace s)).
  { eapply standing_steps; [exact Hs|]. constructor. }
  rewrite Forall_forall in Hall. specialize (Hall _ Hin). unfold standing in Hall. cbn in Hall.
  destruct buf as [ev|data]; [|done]. split; [by exists ev|]. split; [done|].
  intros Hsz. destruct Hall as [->| ->]; lia.
Qed.

(** *** Records of failed requests *)

Lemma names_intro s r x : r ∈ requests s → ovl r = Some x → names s x.
Proof. intros Hin Hovl. by exists r. Qed.

Lemma stems_same s s' :
  pkts s' = pkts s → deleted (trace s') = deleted (trace s) →
  (∀ r x, r ∈ requests s' → ovl r = Some x → names s x) →
  stems s s'.
Proof.
  intros Hp Hd Hsub. split_and!.
  - intros x Hx _. unfold live_pkt. by rewrite Hp.
  - intros x (r & Hin & Hovl). left. by eapply Hsub.
  - intros x Hx. left. by rewrite <- Hd.
Qed.

Lemma stems_quiet s s' : quiet_but_for_endpoints s s' → stems s s'.
Proof.
  intros (Hp & Hpe & Hpo & Hth & Hd). apply stems_same; [done..|].
  intros r x Hin Hovl. exists r. split; [|done].
  revert Hin. unfold requests. by rewrite Hpe, Hpo, Hth.
Qed.

Lemma stems_grown e news s s' : grown e news s s' → stems s s'.
Proof.
  intros (Hp & Hpe & Hpo & Hth & _ & Hd & _). split_and!.
  - intros x [rec Hx] _. exists rec. rewrite Hp. by apply lookup_app_l_Some.
  - intros x (r & Hin & Hovl). unfold requests in Hin.
    rewrite Hpe, Hpo, fmap_app, !elem_of_app in Hin.
    destruct Hin as [[Hin|Hin]|[Hin|Hin]].
    + left. exists r. split; [|done]. unfold requests. rewrite !elem_of_app. auto.
    + right. apply list_elem_of_fmap in Hin as ([e' p] & -> & Hin).
      apply list_elem_of_fmap in Hin as (p' & [= -> ->] & Hin).
      apply elem_of_seq in Hin. cbn in Hovl. injection Hovl as <-. lia.
    + left. exists r. split; [|done]. unfold requests. rewrite !elem_of_app. auto.
    + destruct Hth as [Hth|Hth]; [|by rewrite Hth in Hin; apply elem_of_nil in Hin].
      left. exists r. split; [|done]. unfold requests. rewrite !elem_of_app, <- Hth. auto.
  - intros x Hx. left. by rewrite <- Hd.
Qed.

Lemma holding_replaced (ths : list tstate) (tid : nat) st' r :
  r ∈ omap holding (<[tid := st']> ths) →
  r ∈ omap holding ths ∨ holding st' = Some r.
Proof.
  rewrite !list_elem_of_omap. intros (st & Hin & Hst).
  apply list_elem_of_lookup in Hin as [i Hi].
  destruct (decide (i = tid)) as [->|Hne].
  - assert (tid < length ths) by (apply lookup_lt_Some in Hi; by rewrite length_insert in Hi).
    rewrite list_lookup_insert_eq in Hi by done. injection Hi as <-. by right.
  - rewrite list_lookup_insert_ne in Hi by done. left. exists st. split; [|done].
    by eapply list_elem_of_lookup_2.
Qed.

Lemma held_is_requested s tid r :
  threads s !! tid = Some (dequeued r) → r ∈ requests s.
Proof.
  intros Htid. unfold requests. rewrite !elem_of_app. right. right.
  apply list_elem_of_omap. exists (dequeued r). split; [by eapply list_elem_of_lookup_2|done].
Qed.

Lemma stems_handled s tid r st' :
  threads s !! tid = Some (dequeued r) → holding st' = None →
  stems s (set_threads (<[tid := st']> (threads s)) s).
Proof.
  intros Htid Hnone. apply stems_same; [done..|].
  intros r0 x. unfold requests at 1. cbn. rewrite !elem_of_app.
  intros [Hin|[Hin|Hin]] Hovl.
  - eapply names_intro; [|done]. unfold requests. rewrite !elem_of_app. auto.
  - eapply names_intro; [|done]. unfold requests. rewrite !elem_of_app. auto.
  - apply holding_replaced in Hin as [Hin|Hin]; [|congruence].
    eapply names_intro; [|done]. unfold requests. rewrite !elem_of_app. auto.
Qed.

Lemma stems_released s sg tid r p st' :
  stems s sg → threads sg = threads s →
  threads s !! tid = Some (dequeued r) → ovl r = Some p → holding st' = None →
  stems s (set_threads (<[tid := st']> (threads sg)) (released p sg)).
Proof.
  intros (Hlive & Hnames & Hdel) Hth Htid Hovl Hnone.
  assert (Hp : names s p) by (eapply names_intro; [by eapply held_is_requested|done]).
  split_and!.
  - intros x Hx Hnot. destruct (Hlive x Hx Hnot) as [rec Hrec]. exists rec.
    unfold released. cbn. rewrite list_lookup_insert_ne; [done|]. by intros ->.
  - intros x (r0 & Hin & Hov). apply Hnames. revert Hin.
    unfold requests at 1. cbn. rewrite !elem_of_app. intros [Hin|[Hin|Hin]].
    + eapply names_intro; [|done]. unfold requests. rewrite !elem_of_app. auto.
    + eapply names_intro; [|done]. unfold requests. rewrite !elem_of_app. auto.
    + apply holding_replaced in Hin as [Hin|Hin]; [|congruence].
      eapply names_intro; [|done]. unfold requests. rewrite !elem_of_app. auto.
  - intros x. unfold released. cbn. rewrite deleted_snoc, elem_of_app.
    intros [Hx|Hx%list_elem_of_singleton]; [by apply Hdel|]. right. by subst.
Qed.

Lemma stems_do_action a s s' : do_action a s = Some s' → stems s s'.
Proof.
  destruct a as [tio dev|ev start set_ip up|ev numCPU created|ev data len|dt|k ok n
                |tid|tid|i|]; cbn [do_action]; unfold by_main.
  - destruct (pc s); [|done..]. unfold exec.
    destruct (new_win32_tun_io tio dev (set_cur main s)) as [[a s1]|] eqn:Hrun; [|done].
    intros [= <-]. apply stems_quiet.
    destruct (quiet_new_win32_tun_io _ tio dev _ _ _ (quiet_refl _) Hrun)
      as (? & ? & ? & ? & ? & ? & ?). by split_and!.
  - destruct (pc s); [|done..]. unfold exec.
    destruct (setup ev start set_ip up (set_cur main s)) as [[a s1]|] eqn:Hrun; [|done].
    intros [= <-]. apply stems_quiet.
    destruct (quiet_setup _ ev start set_ip up _ _ _ (quiet_refl _) Hrun)
      as (? & ? & ? & ? & ? & ? & ?). by split_and!.
  - destruct (pc s); [|done..]. unfold exec.
    destruct (add_ev ev numCPU created (set_cur main s)) as [[a s1]|] eqn:Hrun; [|done].
    intros [= <-]. apply add_ev_grown in Hrun as [Hg _].
    by apply (stems_grown ev [standing_read ev 4096]).
  - destruct (pc s); [|done..]. unfold exec.
    destruct (queue_write ev data len (set_cur main s)) as [[a s1]|] eqn:Hrun; [|done].
    intros [= <-]. apply queue_write_grown in Hrun as (news & Hg & _).
    by apply (stems_grown ev news).
  - destruct (0 <=? dt)%Z; [|done]. intros [= <-]. apply stems_same; [done..|].
    intros r x. apply names_intro.
  - destruct (pending s !! k) as [[e p]|] eqn:Hk; [|done]. intros [= <-].
    assert (Hold : ∀ r, r ∈ request <$> delete k (pending s) → r ∈ requests s).
    { intros r Hin. unfold requests. rewrite !elem_of_app. left.
      apply list_elem_of_fmap in Hin as (x & -> & Hin). apply list_elem_of_fmap_2.
      by eapply list_elem_of_delete_inv. }
    assert (Hkp : request (e, p) ∈ requests s).
    { unfold requests. rewrite !elem_of_app. left. apply list_elem_of_fmap_2.
      by eapply list_elem_of_lookup_2. }
    destruct (port_open s); apply stems_same; try done.
    + intros r x. unfold requests at 1. cbn. rewrite !elem_of_app.
      intros [Hin|[[Hin|Hin]|Hin]] Hovl.
      * eapply names_intro; [by apply Hold|done].
      * eapply names_intro; [|done]. unfold requests. rewrite !elem_of_app. auto.
      * apply list_elem_of_singleton in Hin as ->. by eapply names_intro.
      * eapply names_intro; [|done]. unfold requests. rewrite !elem_of_app. auto.
    + intros r x. unfold requests at 1. cbn. rewrite !elem_of_app.
      intros [Hin|[Hin|Hin]] Hovl.
      * eapply names_intro; [by apply Hold|done].
      * eapply names_intro; [|done]. unfold requests. rewrite !elem_of_app. auto.
      * eapply names_intro; [|done]. unfold requests. rewrite !elem_of_app. auto.
  - destruct (threads s !! tid) as [[]|] eqn:Htid; [|done..].
    destruct (port s) as [|r0 rest] eqn:Hport; intros [= <-]; (apply stems_same; [done..|]);
      intros r x; unfold requests at 1; cbn; rewrite !elem_of_app;
      intros [Hin|[Hin|Hin]] Hovl.
    + eapply names_intro; [|done]. unfold requests. rewrite !elem_of_app. auto.
    + eapply names_intro; [|done]. unfold requests. rewrite !elem_of_app. auto.
    + apply holding_replaced in Hin as [Hin|[= <-]]; [|done].
      eapply names_intro; [|done]. unfold requests. rewrite !elem_of_app. auto.
    + eapply names_intro; [|done]. unfold requests. rewrite !elem_of_app. auto.
    + eapply names_intro; [|done]. unfold requests. rewrite Hport, !elem_of_app.
      right. left. by right.
    + apply holding_replaced in Hin as [Hin|[= <-]].
      * eapply names_intro; [|done]. unfold requests. rewrite !elem_of_app. auto.
      * eapply names_intro; [|done]. unfold requests. rewrite Hport, !elem_of_app.
        right. left. by left.
  - destruct (threads s !! tid) as [[|r|]|] eqn:Htid; [done| |done..].
    destruct (tun_ev_loop_body r (set_cur (worker tid) s)) as [[c s1]|] eqn:Hrun; [|done].
    apply body_cases in Hrun
      as [(_ & -> & ->)|[(_ & -> & ->)|(e & p & news & sg & _ & Hl & Hovl & -> & Hg & Hth
                                         & He & ->)]]; intros [= <-].
    + by apply (stems_handled (set_cur (worker tid) s) tid r).
    + by apply (stems_handled (set_cur (worker tid) s) tid r).
    + cbn [threads released set_pkts set_trace].
      apply (stems_released (set_cur (worker tid) s) sg tid r p); try done.
      by apply (stems_grown e news).
  - destruct (pc s) eqn:Hpc; [|done..]. unfold exec, exit_tun_loop_post, emit.
    munfold. cbn. change (port_open (set_cur main s)) with (port_open s).
    destruct (port_open s); cbn; intros [= <-]; apply stems_same; try done.
    + cbn. by rewrite !deleted_snoc, !app_nil_r.
    + intros r x. unfold requests at 1. cbn. rewrite !elem_of_app.
      intros [Hin|[[Hin|Hin]|Hin]] Hovl.
      * eapply names_intro; [|done]. unfold requests. rewrite !elem_of_app. auto.
      * eapply names_intro; [|done]. unfold requests. rewrite !elem_of_app. auto.
      * by apply list_elem_of_singleton in Hin as ->.
      * eapply names_intro; [|done]. unfold requests. rewrite !elem_of_app. auto.
    + cbn. by rewrite !deleted_snoc, !app_nil_r.
    + intros r x. apply names_intro.
  - destruct (pc s) as [|i|] eqn:Hpc; [done| |done].
    destruct (wait_satisfied i (threads s)); [|done]. unfold exec.
    destruct (exit_tun_loop_finish i (set_cur main s)) as [[u s1]|] eqn:Hrun; [|done].
    intros [= <-]. apply stems_quiet.
    destruct (quiet_finish (set_cur main s) i (set_cur main s) u s1) as (? & ? & ? & ? & ?);
      [by unfold quiet_but_for_endpoints|exact Hrun|]. by split_and!.
Qed.

Lemma leaked_steps p s s' : steps s s' → leaked p s → leaked p s'.
Proof.
  induction 1 as [|s a s' s'' _ IH Ha]; [done|].
  intros Hs. destruct (IH Hs) as (Hlive & Hnot & Hdel).
  destruct (stems_do_action _ _ _ Ha) as (Hl & Hn & Hd). split_and!.
  - by apply Hl.
  - intros Hx. apply Hn in Hx as [Hx|Hx]; [done|].
    destruct Hlive as [rec Hrec]. apply lookup_lt_Some in Hrec. lia.
  - intros Hx. by apply Hd in Hx as [Hx|Hx].
Qed.

(** The completion of a request that failed. *)
Lemma failed_completion_never_released s tid r p :
  reachable s → threads s !! tid = Some (dequeued r) →
  alert r = false → ovl r = Some p →
  ∃ ev s', listener r = ptr ev ∧
    do_action (thread_runs tid) s = Some s' ∧
    trace s' = trace s ∧ pkts s' = pkts s ∧ pending s' = pending s ∧
    (p ∉ deleted (trace s)) ∧
    ∀ s'', steps s' s'' →
      live_pkt s'' p ∧ filter (deletes p) (trace s'') = [].
Proof.
  intros Hreach Htid Ha Hovl.
  assert (Hs : consistent s) by (eapply consistent_steps; [exact Hreach|apply consistent_init]).
  pose proof (held_is_requested s tid r Htid) as Hin.
  pose proof (consistent_requests s Hs) as [Hnd Hok].
  rewrite Forall_forall in Hok. specialize (Hok r Hin). unfold request_ok in Hok.
  rewrite Hovl in Hok. destruct (listener r) as [| |e] eqn:Hl; [done..|].
  destruct Hok as [Hlive _].
  set (s' := set_threads (<[tid := waiting]> (threads s)) (set_cur (worker tid) s)).
  assert (Hdo : do_action (thread_runs tid) s = Some s').
  { cbn [do_action]. rewrite Htid. unfold tun_ev_loop_body. by rewrite Ha. }
  assert (Hnot : p ∉ deleted (trace s)).
  { intros Hp. apply (consistent_dead s Hs) in Hp. destruct Hlive as [rec Hrec].
    congruence. }
  exists e, s'. split_and!; [done|exact Hdo|done..|].
  assert (Hleak : leaked p s').
  { split_and!; [exact Hlive| |exact Hnot].
    intros (r0 & Hin0 & Hovl0).
    destruct (holding_insert (threads s) tid _ waiting Htid) as (X & HX & HX').
    cbn in HX, HX'.
    assert (Hperm : requests s ≡ₚ r :: requests s').
    { unfold requests. cbn. rewrite HX, HX'. by rewrite <- !Permutation_middle. }
    rewrite Hperm in Hnd. cbn in Hnd. rewrite Hovl in Hnd.
    apply NoDup_cons in Hnd as [Hnotin _]. apply Hnotin.
    apply list_elem_of_omap. by exists r0. }
  intros s'' Hsteps. destruct (leaked_steps p _ _ Hsteps Hleak) as (Hl'' & _ & Hd'').
  split; [exact Hl''|]. by apply not_deleted.
Qed.

(** X16.  In a state the process reaches, a thread that has dequeued a
    completion with a FALSE result and a request record (a request that
    failed) takes the branch of the timeout: it goes back to waiting without
    a call, issues no new read and does not delete the record.  No request
    in flight carries the record any more, so it stays allocated and is
    never deleted, whatever happens afterwards. *)
Theorem failed_completion_leaks_record s tid r p :
  reachable s → threads s !! tid = Some (dequeued r) →
  alert r = false → ovl r = Some p →
  ∃ s', do_action (thread_runs tid) s = Some s' ∧
    trace s' = trace s ∧ pkts s' = pkts s ∧ pending s' = pending s ∧
    ∀ s'', steps s' s'' →
      live_pkt s'' p ∧ filter (deletes p) (trace s'') = [].
Proof.
  intros Hreach Htid Ha Hovl.
  destruct (failed_completion_never_released s tid r p Hreach Htid Ha Hovl)
    as (ev & s' & _ & Hdo & Htr & Hp & Hpe & _ & Hlater).
  exists s'. by split_and!.
Qed.

(** C2 on the code.  In a reachable state in which the endpoints have not
    been destroyed, a thread that has dequeued a packet that is neither a
    timeout nor the stop packet holds the record of a request of an endpoint,
    and the record has not been deleted.  If the result is TRUE, the thread's
    next step dispatches to the endpoint, the dispatch ending with the new
    read, and then deletes the record, and that deletion stays the only one
    of the record.  If the result is FALSE (the request failed), the step
    takes the branch of the timeout: nothing is dispatched and the record is
    not deleted, neither then nor ever after. *)
Theorem completion_record_released_unless_failed s tid r :
  reachable s → pc s ≠ finished →
  threads s !! tid = Some (dequeued r) → is_stop r = false → is_timeout r = false →
  ∃ ev p s',
    listener r = ptr ev ∧ ovl r = Some p ∧
    do_action (thread_runs tid) s = Some s' ∧
    filter (deletes p) (trace s) = [] ∧
    (alert r = true →
       (∃ evs fd n,
          Forall keeps_records evs ∧
          trace s' = trace s ++ ((λ e, (worker tid, e)) <$>
                       (evs ++ [ReadFile fd (readbuf ev) EV_READ_BUF_SZ n; delete_pkt p]))) ∧
       ∀ s'', steps s' s'' →
              filter (deletes p) (trace s'') = [(worker tid, delete_pkt p)]) ∧
    (alert r = false →
       trace s' = trace s ∧
       ∀ s'', steps s' s'' →
              live_pkt s'' p ∧ filter (deletes p) (trace s'') = []).
Proof.
  intros Hreach Hpc Htid Hstop Htimeout. destruct (alert r) eqn:Ha.
  - assert (Hne : listener r ≠ all_ones).
    { intros Hl. unfold is_stop in Hstop. rewrite Hl, Ha in Hstop. discriminate. }
    destruct (successful_completion_released_once s tid r Hreach Hpc Htid Ha Hne)
      as (ev & p & s' & Hl & Hovl & Hdo & Hnot & Hlog & Honce).
    exists ev, p, s'. split_and!; [done..| |by intros [=]].
    intros _. split; [exact Hlog|exact Honce].
  - destruct (ovl r) as [p|] eqn:Hovl.
    2:{ unfold is_timeout in Htimeout. rewrite Ha, Hovl in Htimeout. discriminate. }
    destruct (failed_completion_never_released s tid r p Hreach Htid Ha Hovl)
      as (ev & s' & Hl & Hdo & Htr & _ & _ & Hnot & Hlater).
    exists ev, p, s'. split_and!; [done|done|exact Hdo|by apply not_deleted|by intros [=]|].
    intros _. split; [exact Htr|exact Hlater].
Qed.

End completion.

Section completion_examples.
#[local] Existing Instance example_sizes.
#[local] Existing Instance eager_codel.
Import tun.

Lemma exit_tun_loop_releases_in_order_witness :
  ∃ s', exit_tun_loop_finish 2 (after registered) = Some (tt, s') ∧
        tun_listeners s' = [] ∧ objs s' !! 0 = Some None.
Proof.
  destruct (exit_tun_loop_releases_in_order 2 (after registered))
    as (s' & Hrun & _ & Hl & Hdead & _).
  { vm_compute. discriminate. }
  { vm_compute. apply NoDup_singleton. }
  { intros e He. vm_compute in He. apply list_elem_of_singleton in He as ->.
    exists example_endpoint. exact registered_live. }
  exists s'. split; [exact Hrun|]. split; [exact Hl|].
  apply Hdead. vm_compute. apply list_elem_of_singleton. reflexivity.
Defined.

Lemma exit_tun_loop_needs_distinct_live_endpoints_witness :
  is_Some (exit_tun_loop_finish 2 (after registered)).
Proof.
  apply (exit_tun_loop_needs_distinct_live_endpoints 2 (after registered)).
  - vm_compute. discriminate.
  - split; [vm_compute; apply NoDup_singleton|].
    intros e He. vm_compute in He. apply list_elem_of_singleton in He as ->.
    exists example_endpoint. exact registered_live.
Defined.

Lemma completion_record_released_unless_failed_witness :
  (∃ s', do_action (thread_runs 0) (after write_dequeued) = Some s' ∧
         filter (deletes 1) (trace s') = [(worker 0, delete_pkt 1)]) ∧
  (∃ s', do_action (thread_runs 0) (after read_failed) = Some s' ∧
         trace s' = trace (after read_failed) ∧
         filter (deletes 0) (trace s') = []).
Proof.
  split.
  - destruct (completion_record_released_unless_failed (after write_dequeued) 0
                write_completion) as (ev & p & s' & _ & Hp & Hdo & _ & Hok & _).
    + apply (after_reachable write_dequeued). vm_compute. reflexivity.
    + vm_compute. discriminate.
    + vm_compute. reflexivity.
    + reflexivity.
    + reflexivity.
    + injection Hp as <-. exists s'. split; [exact Hdo|].
      apply (proj2 (Hok eq_refl)), steps_refl.
  - destruct (completion_record_released_unless_failed (after read_failed) 0
                failed_read) as (ev & p & s' & _ & Hp & Hdo & _ & _ & Hfail).
    + apply (after_reachable read_failed). vm_compute. reflexivity.
    + vm_compute. discriminate.
    + vm_compute. reflexivity.
    + reflexivity.
    + reflexivity.
    + injection Hp as <-. exists s'. split; [exact Hdo|].
      destruct (Hfail eq_refl) as [Htr Hlater].
      split; [exact Htr|]. apply Hlater, steps_refl.
Defined.

(** C2 at a failed read: the endpoint is registered, the device completes the
    standing read with an error, thread 0 dequeues the completion, which is
    not a timeout, and handles it.  Both threads wait again, nothing is
    pending or queued, and the record of the read is still allocated: it has
    not been deleted and is not deleted in any later state. *)
Lemma failed_read_record_is_never_released :
  is_timeout failed_read = false ∧ is_stop failed_read = false ∧
  ∃ s, run read_failure_handled init = Some s ∧
       threads s = [waiting; waiting] ∧ pending s = [] ∧ port s = [] ∧
       pkts s = [Some (standing_read 0 4096)] ∧
       ∀ s', steps s s' → live_pkt s' 0 ∧ filter (deletes 0) (trace s') = [].
Proof.
  split; [reflexivity|]. split; [reflexivity|].
  eexists. split; [vm_compute; reflexivity|]. split_and!; [reflexivity..|].
  intros s' Hsteps.
  destruct (leaked_steps 0 _ _ Hsteps) as (Hlive & _ & Hdel).
  { split_and!.
    - eexists. reflexivity.
    - intros (r & Hin & _). vm_compute in Hin. by apply elem_of_nil in Hin.
    - intros Hin. vm_compute in Hin. by apply elem_of_nil in Hin. }
  split; [exact Hlive|]. by apply not_deleted.
Qed.

Lemma failed_completion_leaks_record_witness :
  ∃ s', do_action (thread_runs 0) (after read_failed) = Some s' ∧
        trace s' = trace (after read_failed) ∧
        live_pkt s' 0 ∧ filter (deletes 0) (trace s') = [].
Proof.
  destruct (failed_completion_leaks_record (after read_failed) 0 failed_read 0)
    as (s' & Hdo & Htr & _ & _ & Hlater).
  - apply (after_reachable read_failed). vm_compute. reflexivity.
  - vm_compute. reflexivity.
  - reflexivity.
  - reflexivity.
  - exists s'. split; [exact Hdo|]. split; [exact Htr|]. apply Hlater, steps_refl.
Defined.

Lemma reads_fit_the_read_buffer_witness :
  (∃ ev, readbuf 0 = readbuf ev) ∧ (4096 = 4096 ∨ 4096 = EV_READ_BUF_SZ)%Z ∧
  ((4096 ≤ EV_READ_BUF_SZ)%Z → (4096 ≤ EV_READ_BUF_SZ)%Z).
Proof.
  apply (reads_fit_the_read_buffer (after registered) main (Handle 7) (readbuf 0) 4096 0).
  - apply (after_reachable registered). vm_compute. reflexivity.
  - apply (list_elem_of_lookup_2 _ 3). vm_compute. reflexivity.
Defined.

Lemma queue_write_never_reports_failure_witness :
  ∃ s', queue_write 0 [x01; x02; x03]%byte 3 (after registered) = Some (true, s').
Proof.
  apply (queue_write_never_reports_failure (after registered) 0 example_endpoint).
  - apply (after_reachable registered). vm_compute. reflexivity.
  - exact registered_live.
Defined.

End completion_examples.
